(** * Evaluation of cudf-polars logical plans: a shallow embedding

    The definitions below follow
    [python/cudf_polars/cudf_polars/dsl/ir.py] and
    [python/cudf_polars/cudf_polars/dsl/utils/aggregations.py].
    Python exceptions are values of [exn], a function that may raise returns
    a [result], dictionaries that are only looked up are [gmap]s, and
    dictionaries whose insertion order is observable (JSON serialisation)
    are association lists. *)

From Stdlib Require Import ZArith Lia Permutation Sorted Ascii String.
From stdpp Require Import base option list gmap strings pretty sorting.

#[global] Set Warnings "-register-all".

Open Scope Z_scope.
Open Scope string_scope.
Open Scope list_scope.

(** ** Python exceptions and fallible computations *)

Inductive exn : Type :=
| RuntimeError (msg : string)
| NotImplementedError (msg : string)
| ValueError (msg : string)
| KeyError (key : string)
| TypeError (msg : string)
| IndexError (msg : string)
| AttributeError (msg : string)
| AssertionError (msg : string)
| UndefinedBehaviour (msg : string).

Inductive result (A : Type) : Type :=
| Ok (a : A)
| Raise (e : exn).
Arguments Ok {A} a.
Arguments Raise {A} e.

Definition rbind {A B} (m : result A) (k : A -> result B) : result B :=
  match m with
  | Ok a => k a
  | Raise e => Raise e
  end.

Declare Scope result_scope.
Delimit Scope result_scope with res.
Notation "x <- m ;; k" := (rbind m (fun x => k))
  (at level 100, m at next level, right associativity) : result_scope.
Open Scope result_scope.

Fixpoint rmapM {A B} (f : A -> result B) (l : list A) : result (list B) :=
  match l with
  | [] => Ok []
  | a :: l' => b <- f a ;; bs <- rmapM f l' ;; Ok (b :: bs)
  end.

(** ** Option values

    Options reach the plan as plain Python data (the deserialised JSON of
    the upstream planner): [None], booleans, integers, strings, lists and
    dictionaries. A dictionary keeps its items in insertion order. *)

Inductive json : Type :=
| JNull
| JBool (b : bool)
| JInt (z : Z)
| JStr (s : string)
| JList (l : list json)
| JDict (items : list (string * json)).

(** Python truthiness. *)
Definition truthy (v : json) : bool :=
  match v with
  | JNull => false
  | JBool b => b
  | JInt z => negb (Z.eqb z 0)
  | JStr s => negb (String.eqb s EmptyString)
  | JList l => match l with [] => false | _ => true end
  | JDict l => match l with [] => false | _ => true end
  end.

(** [d[k]] on a dictionary of options. *)
Fixpoint assoc_lookup (k : string) (items : list (string * json)) : option json :=
  match items with
  | [] => None
  | (k', v) :: items' => if String.eqb k k' then Some v else assoc_lookup k items'
  end.

Definition getitem (d : json) (k : string) : result json :=
  match d with
  | JDict items =>
    match assoc_lookup k items with
    | Some v => Ok v
    | None => Raise (KeyError k)
    end
  | _ => Raise (TypeError "object is not subscriptable with a string key")
  end.

(** [d.get(k)]. *)
Definition dict_get (d : json) (k : string) : result json :=
  match d with
  | JDict items => Ok (default JNull (assoc_lookup k items))
  | _ => Raise (AttributeError "object has no attribute 'get'")
  end.

(** [v is not None]. *)
Definition is_not_None (v : json) : bool :=
  match v with JNull => false | _ => true end.

(** [v != 0]. *)
Definition ne_zero (v : json) : bool :=
  match v with
  | JInt z => negb (Z.eqb z 0)
  | JBool b => b
  | _ => true
  end.

(** [needle in s] for two strings. *)
Fixpoint is_substring (needle s : string) : bool :=
  String.prefix needle s ||
  match s with
  | EmptyString => false
  | String _ s' => is_substring needle s'
  end.

(** [k in v] for a string [k]: a key of a dictionary, an element of a list,
    a substring of a string. *)
Definition contains_str (k : string) (v : json) : result bool :=
  match v with
  | JDict items => Ok (bool_decide (is_Some (assoc_lookup k items)))
  | JList l =>
    Ok (existsb (fun x => match x with JStr s => String.eqb s k | _ => false end) l)
  | JStr s => Ok (is_substring k s)
  | _ => Raise (TypeError "argument is not iterable")
  end.

(** Python [==] on option values: dictionaries are equal when they hold the
    same keys with equal values, whatever the insertion order. *)
Fixpoint py_eq (a b : json) {struct a} : bool :=
  match a, b with
  | JNull, JNull => true
  | JBool x, JBool y => Bool.eqb x y
  | JInt x, JInt y => Z.eqb x y
  | JBool x, JInt y => Z.eqb (if x then 1 else 0) y
  | JInt x, JBool y => Z.eqb x (if y then 1 else 0)
  | JStr x, JStr y => String.eqb x y
  | JList la, JList lb =>
    (fix eq_all (la lb : list json) : bool :=
       match la, lb with
       | [], [] => true
       | x :: la', y :: lb' => py_eq x y && eq_all la' lb'
       | _, _ => false
       end) la lb
  | JDict ia, JDict ib =>
    Nat.eqb (length ia) (length ib) &&
    (fix sub (ia : list (string * json)) : bool :=
       match ia with
       | [] => true
       | (k, v) :: ia' =>
         match assoc_lookup k ib with
         | Some v' => py_eq v v' && sub ia'
         | None => false
         end
       end) ia
  | _, _ => false
  end.

(** ** [json.dumps] with its default arguments *)

Definition hex_digit (n : N) : ascii :=
  match n with
  | 0%N => "0" | 1%N => "1" | 2%N => "2" | 3%N => "3" | 4%N => "4"
  | 5%N => "5" | 6%N => "6" | 7%N => "7" | 8%N => "8" | 9%N => "9"
  | 10%N => "a" | 11%N => "b" | 12%N => "c" | 13%N => "d" | 14%N => "e"
  | _ => "f"
  end%char.

(** One character of a string, escaped as [ensure_ascii] asks: everything
    outside the printable range from space to tilde is escaped. *)
Definition backslash : ascii := ascii_of_nat 92.

Definition escape_char (c : ascii) : string :=
  let n := N_of_ascii c in
  if N.eqb n 34 then String backslash (String c EmptyString)
  else if N.eqb n 92 then String backslash (String backslash EmptyString)
  else if N.eqb n 10 then String backslash "n"
  else if N.eqb n 13 then String backslash "r"
  else if N.eqb n 9 then String backslash "t"
  else if N.eqb n 8 then String backslash "b"
  else if N.eqb n 12 then String backslash "f"
  else if N.leb 32 n && N.leb n 126 then String c EmptyString
  else String backslash
         ("u00" +:+ String (hex_digit (N.div n 16))
                      (String (hex_digit (N.modulo n 16)) EmptyString)).

Fixpoint escape (s : string) : string :=
  match s with
  | EmptyString => EmptyString
  | String c s' => escape_char c +:+ escape s'
  end.

Definition quote_char : ascii := ascii_of_nat 34.

Definition quoted (s : string) : string :=
  String quote_char (escape s +:+ String quote_char EmptyString).

Fixpoint json_dumps (v : json) : string :=
  match v with
  | JNull => "null"
  | JBool true => "true"
  | JBool false => "false"
  | JInt z => pretty z
  | JStr s => quoted s
  | JList l =>
    "[" +:+
    (fix elems (l : list json) : string :=
       match l with
       | [] => EmptyString
       | [x] => json_dumps x
       | x :: l' => json_dumps x +:+ ", " +:+ elems l'
       end) l +:+ "]"
  | JDict items =>
    "{" +:+
    (fix entries (items : list (string * json)) : string :=
       match items with
       | [] => EmptyString
       | [(k, x)] => quoted k +:+ ": " +:+ json_dumps x
       | (k, x) :: items' => quoted k +:+ ": " +:+ json_dumps x +:+ ", " +:+ entries items'
       end) items +:+ "}"
  end.

(** A text made of decimal digits, and a text that does not go on with
    one: what may follow a number in a serialised value. *)
Fixpoint all_digits (s : string) : Prop :=
  match s with
  | EmptyString => True
  | String c s' => Ascii.is_nat c <> None /\ all_digits s'
  end.

Definition no_digit_ahead (r : string) : Prop :=
  match r with
  | EmptyString => True
  | String c _ => Ascii.is_nat c = None
  end.

(** The items of a list and of a dictionary as [json_dumps] writes them,
    one after the other with a comma and a space in between. *)
Fixpoint dumps_elems (l : list json) : string :=
  match l with
  | [] => EmptyString
  | x :: l' =>
    json_dumps x +:+ match l' with
                     | [] => EmptyString
                     | _ => ", " +:+ dumps_elems l'
                     end
  end.

Fixpoint dumps_entries (items : list (string * json)) : string :=
  match items with
  | [] => EmptyString
  | (k, x) :: items' =>
    quoted k +:+ ": " +:+ json_dumps x +:+ match items' with
                                           | [] => EmptyString
                                           | _ => ", " +:+ dumps_entries items'
                                           end
  end.

(** ** Columns *)

Module Columns.

(** [plc.types.Sorted], [plc.types.Order], [plc.types.NullOrder]. *)
Inductive Sorted := NO | YES.
Inductive Order := ASCENDING | DESCENDING.
Inductive NullOrder := AFTER | BEFORE.

(** A device value: a nullable integer. *)
Abbreviation cell := (option Z).

(** Modelled from the spec: [cudf_polars.containers.Column] is not among
    the sources; an Evaluated Column is a "device-resident sequence of
    values of fixed length, tagged with a name and sortedness metadata". *)
Record Column : Type := mkColumn {
  obj : list cell;
  is_sorted : Sorted;
  order : Order;
  null_order : NullOrder;
  name : string
}.

Definition size (c : Column) : nat := length (obj c).

(** Modelled from the spec: the constructor [Column(obj, name=name)] of the
    containers module, called without metadata. The "sortedness metadata
    (order direction + null position, or "unknown")" of the new column is
    unknown, under the constructor's default order and null position,
    unless the column has at most one row: such a column is sorted whatever
    it holds, and the constructor tags it so. *)
Definition plain_column (o : list cell) (name : string) : Column :=
  mkColumn o (if Nat.leb (length o) 1 then YES else NO) ASCENDING BEFORE name.

(** Modelled from the spec: [Column.obj_scalar], the single element of a
    length-1 column ("representing a broadcastable scalar"). *)
Definition obj_scalar (c : Column) : result cell :=
  match obj c with
  | [v] => Ok v
  | _ => Raise (ValueError "Cannot convert a column of length != 1 to a scalar")
  end.

(** Modelled from the spec: [plc.Column.from_scalar(s, n)], the column of
    [n] copies of the scalar ("expanding a length-1 column to a target row
    count by repetition"). *)
Definition from_scalar (s : cell) (n : nat) : list cell := replicate n s.

(** The replacement built for a length-1 column in [broadcast]. *)
Definition broadcast_column (nrows : nat) (column : Column) : result Column :=
  if decide (size column = 1%nat) then
    s <- obj_scalar column ;;
    Ok (mkColumn (from_scalar s nrows) YES ASCENDING BEFORE (name column))
  else Ok column.

Definition mismatch_msg (nrows target_length : nat) : string :=
  "Cannot broadcast columns of length nrows=" +:+ pretty nrows
    +:+ " to target_length=" +:+ pretty target_length.

(** [broadcast]: the columns and the optional [target_length]. *)
Definition broadcast (columns : list Column) (target_length : option nat)
  : result (list Column) :=
  match columns with
  | [] => Ok []
  | _ =>
    let lengths : gset nat := list_to_set (size <$> columns) in
    if decide (lengths = {[ 1%nat ]}) then
      match target_length with
      | None => Ok columns
      | Some nrows => rmapM (broadcast_column nrows) columns
      end
    else
      match elements (lengths ∖ {[ 1%nat ]}) with
      | [nrows] =>
        match target_length with
        | Some t =>
          if decide (nrows = t) then rmapM (broadcast_column nrows) columns
          else Raise (RuntimeError (mismatch_msg nrows t))
        | None => rmapM (broadcast_column nrows) columns
        end
      | _ => Raise (RuntimeError "Mismatching column lengths")
      end
  end.

(** What [broadcast_column nrows] does to one column, as a relation between
    the input column [c] and the returned column [o]. *)
Definition broadcast_rel (nrows : nat) (c o : Column) : Prop :=
  (size c <> 1%nat /\ o = c) \/
  (exists v, obj c = [v] /\
             o = mkColumn (replicate nrows v) YES ASCENDING BEFORE (name c)).

(** A column's values are in the order its metadata claims: ascending with
    nulls first is the only tag [broadcast] writes. *)
Definition cell_le_nulls_before (a b : cell) : Prop :=
  match a, b with
  | None, _ => True
  | Some _, None => False
  | Some x, Some y => (x <= y)%Z
  end.

Definition ascending_nulls_before (l : list cell) : Prop :=
  StronglySorted cell_le_nulls_before l.

(** Example columns. *)
Definition col_scalar : Column := mkColumn [Some 7] NO ASCENDING BEFORE "a".
Definition col_three : Column :=
  mkColumn [Some 3; Some 1; None] NO ASCENDING BEFORE "b".
Definition col_scalar_x3 : Column :=
  mkColumn [Some 7; Some 7; Some 7] YES ASCENDING BEFORE "a".

End Columns.


(** ** The storage engine's primitives *)

Module Engine.
Import Columns.

(** Modelled from the spec: the storage engine (pylibcudf) is an external
    collaborator that "must provide ... stable and unstable sort-by-key;
    stable/unstable distinct ...; integer sequence generation" and gathers
    rows through "an index sequence selecting/reordering rows from a table".
    A table is the list of its columns, every column a list of nullable
    values; a gather map is a column of row indices. *)
Definition Table : Type := list (list cell).

Inductive OutOfBoundsPolicy := NULLIFY | DONT_CHECK.
Inductive NullEquality := EQUAL | UNEQUAL.

Definition num_rows (t : Table) : nat :=
  match t with
  | [] => 0%nat
  | c :: _ => length c
  end.

(** Modelled from the spec: [plc.filling.sequence(n, init, step)], the
    "integer sequence generation". *)
Definition sequence (n : nat) (init step : Z) : list cell :=
  (fun k => Some (init + Z.of_nat k * step)) <$> seq 0 n.

(** Modelled from the spec: one element gathered through "an index
    sequence selecting/reordering rows". An index in [0, n) selects that
    row, an index in [-n, 0) counts from the end, any other index gives a
    null under [NULLIFY] and is outside the contract under [DONT_CHECK]. *)
Definition gather_cell (col : list cell) (policy : OutOfBoundsPolicy) (i : Z)
  : result cell :=
  let n := Z.of_nat (length col) in
  if (0 <=? i)%Z && (i <? n)%Z then Ok (default None (col !! Z.to_nat i))
  else if (- n <=? i)%Z && (i <? 0)%Z then Ok (default None (col !! Z.to_nat (i + n)))
  else match policy with
       | NULLIFY => Ok None
       | DONT_CHECK => Raise (UndefinedBehaviour "gather index out of bounds")
       end.

Definition map_index (c : cell) : result Z :=
  match c with
  | Some i => Ok i
  | None => Raise (ValueError "gather_map contains nulls")
  end.

(** Modelled from the spec: [plc.copying.gather(table, gather_map, policy)],
    every column gathered through the one map. *)
Definition gather (t : Table) (gather_map : list cell) (policy : OutOfBoundsPolicy)
  : result Table :=
  idx <- rmapM map_index gather_map ;;
  rmapM (fun col => rmapM (gather_cell col policy) idx) t.

(** The rows of a table, and the columns of a list of rows. *)
Definition row (t : Table) (i : nat) : list cell :=
  (fun col => default None (col !! i)) <$> t.

Definition rows (t : Table) : list (list cell) := row t <$> seq 0 (num_rows t).

Definition columns_of (width : nat) (rs : list (list cell)) : Table :=
  (fun j => (fun r => default None (r !! j)) <$> rs) <$> seq 0 width.

(** Modelled from the spec: the comparison behind the sorts and the merge.
    Two values are compared under a column order and a null precedence:
    the null precedence places nulls among ascending values, and a
    descending column compares the two values the other way round. *)
Definition compare_ascending (null_order : NullOrder) (a b : cell) : comparison :=
  match a, b with
  | None, None => Eq
  | None, Some _ => match null_order with BEFORE => Lt | AFTER => Gt end
  | Some _, None => match null_order with BEFORE => Gt | AFTER => Lt end
  | Some x, Some y => (x ?= y)%Z
  end.

Definition compare_cell (spec : Order * NullOrder) (a b : cell) : comparison :=
  match fst spec with
  | ASCENDING => compare_ascending (snd spec) a b
  | DESCENDING => compare_ascending (snd spec) b a
  end.

(** Lexicographic comparison of two key rows. *)
Fixpoint compare_rows (specs : list (Order * NullOrder)) (r1 r2 : list cell)
  : comparison :=
  match specs, r1, r2 with
  | spec :: specs', a :: r1', b :: r2' =>
    match compare_cell spec a b with
    | Eq => compare_rows specs' r1' r2'
    | c => c
    end
  | _, _, _ => Eq
  end.

Definition rows_leb (specs : list (Order * NullOrder)) (r1 r2 : list cell) : bool :=
  match compare_rows specs r1 r2 with
  | Gt => false
  | _ => true
  end.

(** Modelled from the spec: the "stable ... sort-by-key". A stable sort
    fixes its result: insertion from the right, every element placed before
    the first element that is not smaller. *)
Section StableSort.
Context {A : Type} (leb : A -> A -> bool).

Fixpoint insert_sorted (x : A) (l : list A) : list A :=
  match l with
  | [] => [x]
  | y :: l' => if leb x y then x :: y :: l' else y :: insert_sorted x l'
  end.

Fixpoint stable_sort (l : list A) : list A :=
  match l with
  | [] => []
  | x :: l' => insert_sorted x (stable_sort l')
  end.

(** Two elements that compare equal both ways. *)
Definition same_key (k x : A) : bool := leb k x && leb x k.

End StableSort.

(** Modelled from the spec:
    [plc.sorting.stable_sort_by_key(values, keys, column_order, null_precedence)],
    the rows of [values] in the stable order of the rows of [keys]. *)
Definition stable_sort_by_key (values keys : Table) (column_order : list Order)
  (null_precedence : list NullOrder) : result Table :=
  if negb (Nat.eqb (num_rows values) (num_rows keys)) then
    Raise (ValueError "Mismatch in number of rows for values and keys")
  else if negb (Nat.eqb (length column_order) (length keys))
          || negb (Nat.eqb (length null_precedence) (length keys)) then
    Raise (ValueError "Mismatch between number of columns and column order")
  else
    let specs := zip column_order null_precedence in
    let sorted :=
      stable_sort (fun p q => rows_leb specs (fst p) (fst q))
                  (zip (rows keys) (rows values)) in
    Ok (columns_of (length values) (snd <$> sorted)).

End Engine.

(** ** Data frames *)

Module Frames.
Import Columns.

(** Modelled from the spec: [cudf_polars.containers.DataFrame] is not among
    the sources; an Evaluated Table is "an ordered sequence of Evaluated
    Columns", which a name-indexed view ([column_map]) accompanies. *)
Record DataFrame : Type := mkDataFrame { columns : list Column }.

Definition column_names (df : DataFrame) : list string := name <$> columns df.

(** [column_map]: the dictionary from names to columns, filled in column
    order, so that a later column of the same name replaces an earlier one. *)
Definition column_map (df : DataFrame) : gmap string Column :=
  foldl (fun m c => <[name c := c]> m) ∅ (columns df).

(** [num_rows]: the row count of the table, zero when it has no column. *)
Definition num_rows (df : DataFrame) : nat :=
  match columns df with
  | [] => 0%nat
  | c :: _ => size c
  end.

(** [table]: the device table of the frame's columns. *)
Definition table (df : DataFrame) : list (list cell) := obj <$> columns df.

(** All columns of a frame share one row count. *)
Definition rectangular (df : DataFrame) : Prop :=
  Forall (fun c => size c = num_rows df) (columns df).

End Frames.

(** ** Expressions *)

Module Exprs.
Import Columns Frames.

(** [plc.TypeId], the ids the plan evaluation distinguishes. *)
Inductive DataType : Type :=
| INT8 | INT16 | INT32 | INT64
| UINT8 | UINT16 | UINT32 | UINT64
| FLOAT32 | FLOAT64
| BOOL8 | STRING | LIST.

#[global] Instance DataType_eq_dec : EqDecision DataType.
Proof. solve_decision. Defined.

(** Modelled from the spec: [plc.traits.is_integral] and
    [plc.traits.is_floating_point] are not among the sources; "an integral
    type narrower than the engine's default accumulator width" and
    "floating-point data" are the integer ids (the boolean id counts as
    integral in the storage engine) and the two float ids. *)
Definition is_integral (dt : DataType) : bool :=
  match dt with
  | INT8 | INT16 | INT32 | INT64 | UINT8 | UINT16 | UINT32 | UINT64 | BOOL8 => true
  | _ => false
  end.

Definition is_floating_point (dt : DataType) : bool :=
  match dt with
  | FLOAT32 | FLOAT64 => true
  | _ => false
  end.

(** The expression nodes [decompose_single_agg] tells apart, each with its
    [dtype] first; [Other] is any further expression class, with its
    [is_pointwise] attribute. *)
Inductive Expr : Type :=
| Col (dtype : DataType) (name : string)
| Len (dtype : DataType)
| Literal (dtype : DataType) (value : cell)
| LiteralColumn (dtype : DataType) (values : list cell)
| Agg (dtype : DataType) (name : string) (options : json) (children : list Expr)
| Ternary (dtype : DataType) (children : list Expr)
| UnaryFunction (dtype : DataType) (name : string) (options : json)
                (children : list Expr)
| Cast (dtype : DataType) (children : list Expr)
| Other (class : string) (dtype : DataType) (pointwise : bool)
        (children : list Expr).

Record NamedExpr : Type := mkNamedExpr { ne_name : string; value : Expr }.

Definition dtype (e : Expr) : DataType :=
  match e with
  | Col dt _ | Len dt | Literal dt _ | LiteralColumn dt _ | Agg dt _ _ _
  | Ternary dt _ | UnaryFunction dt _ _ _ | Cast dt _ | Other _ dt _ _ => dt
  end.

Definition children (e : Expr) : list Expr :=
  match e with
  | Col _ _ | Len _ | Literal _ _ | LiteralColumn _ _ => []
  | Agg _ _ _ cs | Ternary _ cs | UnaryFunction _ _ _ cs | Cast _ cs
  | Other _ _ _ cs => cs
  end.

(** Modelled from the spec: the expression classes are not among the
    sources; the evaluator exposes "is this expression a pointwise function
    of its children". A row count and an aggregation are not; of the unary
    functions, those whose result at a row depends on other rows are not:
    the cumulative scans, and [drop_nulls] and [unique], which change the
    number of rows. *)
Definition non_pointwise_unary : list string :=
  ["cum_min"; "cum_max"; "cum_prod"; "cum_sum"; "drop_nulls"; "unique"].

Definition is_pointwise (e : Expr) : bool :=
  match e with
  | Len _ | Agg _ _ _ _ => false
  | UnaryFunction _ name _ _ => negb (bool_decide (name ∈ non_pointwise_unary))
  | Other _ _ pointwise _ => pointwise
  | _ => true
  end.

(** [Expr.reconstruct]: the same node over new children. *)
Definition reconstruct (e : Expr) (cs : list Expr) : Expr :=
  match e with
  | Agg dt name options _ => Agg dt name options cs
  | Ternary dt _ => Ternary dt cs
  | UnaryFunction dt name options _ => UnaryFunction dt name options cs
  | Cast dt _ => Cast dt cs
  | Other class dt pointwise _ => Other class dt pointwise cs
  | leaf => leaf
  end.

(** [NamedExpr.reconstruct]: the same name over a new expression. *)
Definition ne_reconstruct (ne : NamedExpr) (e : Expr) : NamedExpr :=
  mkNamedExpr (ne_name ne) e.

(** Modelled from the spec: [Column.rename], the same column under another
    name. *)
Definition rename (c : Column) (name : string) : Column :=
  mkColumn (obj c) (is_sorted c) (order c) (null_order c) name.

(** Two's-complement width of an integer id. *)
Definition int_bounds (dt : DataType) : option (Z * Z) :=
  match dt with
  | INT8 => Some (-128, 256)
  | INT16 => Some (-32768, 65536)
  | INT32 => Some (-2147483648, 4294967296)
  | INT64 => Some (-9223372036854775808, 18446744073709551616)
  | UINT8 => Some (0, 256)
  | UINT16 => Some (0, 65536)
  | UINT32 => Some (0, 4294967296)
  | UINT64 => Some (0, 18446744073709551616)
  | _ => None
  end.

Definition cast_cell (dt : DataType) (v : cell) : cell :=
  match int_bounds dt with
  | Some (lo, modulus) => (fun x => lo + (x - lo) mod modulus) <$> v
  | None => v
  end.

(** [plc.replace.replace_nulls] with a scalar replacement. *)
Definition replace_nulls (l : list cell) (rep : cell) : list cell :=
  (fun v => match v with None => rep | Some _ => v end) <$> l.

(** Modelled from the spec: the Expression Evaluator is an external
    collaborator ("given a table and a named expression, produces one named
    column"). This evaluator covers the expressions the post-aggregation
    step is built from: a column reference looks the name up in the frame, a
    literal is a length-1 column, a cast converts each value, [fill_null]
    with a literal replaces the nulls; every other expression is refused. *)
Fixpoint Expr_evaluate (e : Expr) (df : DataFrame) : result Column :=
  match e with
  | Col _ name =>
    match column_map df !! name with
    | Some c => Ok c
    | None => Raise (KeyError name)
    end
  | Literal _ v => Ok (mkColumn [v] NO ASCENDING BEFORE EmptyString)
  | Cast dt [child] =>
    c <- Expr_evaluate child df ;;
    Ok (mkColumn (cast_cell dt <$> obj c) NO ASCENDING BEFORE EmptyString)
  | UnaryFunction _ "fill_null" _ [child; Literal _ rep] =>
    c <- Expr_evaluate child df ;;
    Ok (mkColumn (replace_nulls (obj c) rep) NO ASCENDING BEFORE EmptyString)
  | _ => Raise (NotImplementedError "expression outside the modelled evaluator")
  end.

(** [NamedExpr.evaluate]: the value's column under the expression's name. *)
Definition NamedExpr_evaluate (ne : NamedExpr) (df : DataFrame) : result Column :=
  c <- Expr_evaluate (value ne) df ;; Ok (rename c (ne_name ne)).

End Exprs.

(** ** Plan nodes, the evaluation driver and the CSE cache *)

Module CSE.
Import Columns Frames.

(** A plan node. [Node] stands for every node kind that uses the default
    recursion scheme of [IR.evaluate]: its [do_evaluate], already applied to
    the node's [_non_child_args], maps the evaluated children to a frame or
    raises. [Cache] overrides the scheme. A sub-plan referenced by several
    parents appears once under each of them. *)
Inductive IR : Type :=
| Node (kind : string) (do_evaluate : list DataFrame -> result DataFrame)
       (children : list IR)
| Cache (key : Z) (refcount : Z) (value : IR).

(** Observations on one evaluation: [Stored] is what [timer.store] records
    after a [do_evaluate] call; [Visit] and [EvalChild] mark an entry into
    [Cache.evaluate] and its recursion into the wrapped child. *)
Inductive event : Type :=
| Stored (kind : string)
| Visit (key : Z)
| EvalChild (key : Z).

(** The state one top-level evaluation threads through the plan: the
    [CSECache] dictionary and the observations so far, latest first. *)
Record State : Type := mkState {
  cache : gmap Z (DataFrame * Z);
  trace : list event
}.

Definition log (e : event) (s : State) : State :=
  mkState (cache s) (e :: trace s).

Definition set_cache (f : gmap Z (DataFrame * Z) -> gmap Z (DataFrame * Z))
  (s : State) : State :=
  mkState (f (cache s)) (trace s).

(** [IR.evaluate] and [Cache.evaluate]. *)
Fixpoint evaluate (n : IR) (s : State) : result DataFrame * State :=
  match n with
  | Node kind do_evaluate children =>
    let fix evaluate_children (cs : list IR) (s : State)
      : result (list DataFrame) * State :=
      match cs with
      | [] => (Ok [], s)
      | c :: cs' =>
        match evaluate c s with
        | (Raise e, s1) => (Raise e, s1)
        | (Ok df, s1) =>
          match evaluate_children cs' s1 with
          | (Raise e, s2) => (Raise e, s2)
          | (Ok dfs, s2) => (Ok (df :: dfs), s2)
          end
        end
      end in
    match evaluate_children children s with
    | (Raise e, s1) => (Raise e, s1)
    | (Ok dfs, s1) =>
      match do_evaluate dfs with
      | Raise e => (Raise e, s1)
      | Ok df => (Ok df, log (Stored kind) s1)
      end
    end
  | Cache key refcount value =>
    let s0 := log (Visit key) s in
    match cache s0 !! key with
    | None =>
      match evaluate value (log (EvalChild key) s0) with
      | (Raise e, s1) => (Raise e, s1)
      | (Ok df, s1) => (Ok df, set_cache (insert key (df, 0)) s1)
      end
    | Some (df, hits) =>
      let hits := hits + 1 in
      if decide (hits = refcount)
      then (Ok df, set_cache (delete key) s0)
      else (Ok df, set_cache (insert key (df, hits)) s0)
    end
  end.

(** The children of a [Node], evaluated left to right through one state. *)
Fixpoint evaluate_children (cs : list IR) (s : State)
  : result (list DataFrame) * State :=
  match cs with
  | [] => (Ok [], s)
  | c :: cs' =>
    match evaluate c s with
    | (Raise e, s1) => (Raise e, s1)
    | (Ok df, s1) =>
      match evaluate_children cs' s1 with
      | (Raise e, s2) => (Raise e, s2)
      | (Ok dfs, s2) => (Ok (df :: dfs), s2)
      end
    end
  end.

(** A top-level evaluation starts from an empty cache. *)
Definition initial : State := mkState ∅ [].

Definition evaluate_top (n : IR) : result DataFrame * State := evaluate n initial.

(** Counting the observations about one key. *)
Definition is_visit (K : Z) (e : event) : bool :=
  match e with Visit k => bool_decide (k = K) | _ => false end.
Definition is_eval_child (K : Z) (e : event) : bool :=
  match e with EvalChild k => bool_decide (k = K) | _ => false end.

Definition visits (K : Z) (s : State) : Z :=
  Z.of_nat (length (List.filter (is_visit K) (trace s))).
Definition child_evaluations (K : Z) (s : State) : Z :=
  Z.of_nat (length (List.filter (is_eval_child K) (trace s))).

(** [mentions K n]: some [Cache] node of [n] has key [K]. *)
Fixpoint mentions (K : Z) (n : IR) : bool :=
  match n with
  | Node _ _ children =>
    (fix any (cs : list IR) : bool :=
       match cs with
       | [] => false
       | c :: cs' => mentions K c || any cs'
       end) children
  | Cache key _ value => bool_decide (key = K) || mentions K value
  end.

(** [cache_nodes_ok K R n]: every [Cache] node of [n] with key [K] has
    refcount [R] and wraps a child that has no [Cache] node of key [K]. *)
Fixpoint cache_nodes_ok (K R : Z) (n : IR) : bool :=
  match n with
  | Node _ _ children =>
    (fix all (cs : list IR) : bool :=
       match cs with
       | [] => true
       | c :: cs' => cache_nodes_ok K R c && all cs'
       end) children
  | Cache key refcount value =>
    if bool_decide (key = K)
    then bool_decide (refcount = R) && negb (mentions K value)
    else cache_nodes_ok K R value
  end.

(** What a state says about key [K]. *)
Definition kview (K : Z) (s : State) : option (DataFrame * Z) * Z * Z :=
  (cache s !! K, visits K s, child_evaluations K s).

(** The invariant that links, for refcount [R], the entry of key [K] to the
    visits and child evaluations so far: without an entry the visits are a
    multiple of [R + 1]; with an entry of [hits] hits, [hits + 1] visits
    have happened since the last child evaluation. *)
Definition cache_inv (K R : Z) (s : State) : Prop :=
  match cache s !! K with
  | None => visits K s = child_evaluations K s * (R + 1)
  | Some (_, hits) =>
    0 <= hits < R /\ 1 <= child_evaluations K s /\
    visits K s = (child_evaluations K s - 1) * (R + 1) + hits + 1
  end.

(** Example plans: a leaf, and a union-like parent over several references
    to one cached sub-plan. *)
Definition frame_a : DataFrame := mkDataFrame [col_three].
Definition leaf : IR := Node "DataFrameScan" (fun _ => Ok frame_a) [].
Definition first_child (dfs : list DataFrame) : result DataFrame :=
  match dfs with
  | df :: _ => Ok df
  | [] => Raise (IndexError "tuple index out of range")
  end.
Definition shared (refcount : Z) : IR := Cache 0 refcount leaf.
Definition plan_refs (refcount : Z) (parents : nat) : IR :=
  Node "Union" first_child (replicate parents (shared refcount)).

End CSE.

(** ** Select *)

Module Select.
Import Columns Frames Exprs.

Section WithEvaluator.

(** The Expression Evaluator, an external collaborator of the plan
    evaluation. *)
Variable evaluate_named : NamedExpr -> DataFrame -> result Column.

(** [Select.do_evaluate]. *)
Definition do_evaluate (exprs : list NamedExpr) (should_broadcast : bool)
  (df : DataFrame) : result DataFrame :=
  columns <- rmapM (fun e => evaluate_named e df) exprs ;;
  columns <- (if should_broadcast then broadcast columns None else Ok columns) ;;
  Ok (mkDataFrame columns).

End WithEvaluator.

(** The named column references of all of a frame's own columns, each under
    the column's own name; [dtype_of] gives the type written in each
    reference. *)
Definition own_column_refs (dtype_of : Column -> DataType) (df : DataFrame)
  : list NamedExpr :=
  (fun c => mkNamedExpr (name c) (Col (dtype_of c) (name c))) <$> columns df.

(** What the round trip asks of the evaluator: a reference to a column the
    frame holds evaluates to that column, under the name the expression
    gives. *)
Definition evaluates_references
  (evaluate_named : NamedExpr -> DataFrame -> result Column) : Prop :=
  forall (out_name col_name : string) (dt : DataType) (df : DataFrame) (c : Column),
    column_map df !! col_name = Some c ->
    evaluate_named (mkNamedExpr out_name (Col dt col_name)) df = Ok (rename c out_name).

(** An example frame of two columns. *)
Definition frame_ab : DataFrame := mkDataFrame [col_scalar_x3; col_three].

End Select.

(** ** Decomposition of grouped aggregations *)

Module Aggregations.
Import Columns Frames Exprs.

Section WithNames.

(** The generator of unique temporary names: [fresh i] is the [i]-th name it
    yields, and the state of the generator is the number of names drawn. *)
Variable fresh : nat -> string.

Definition Decomposed : Type := list NamedExpr * NamedExpr * bool.

(** The post-aggregation reference to a sum: a narrower integral result is
    read back from the 64-bit accumulator through a cast. *)
Definition sum_col (dt : DataType) (name : string) : Expr :=
  if is_integral dt && negb (bool_decide (dt = INT64))
  then Cast dt [Col INT64 name]
  else Col dt name.

(** [decompose_single_agg], on the name and value of the named expression. *)
Fixpoint decompose_single_agg (name : string) (agg : Expr) (is_top : bool)
  (gen : nat) {struct agg} : result (Decomposed * nat) :=
  let named_expr := mkNamedExpr name agg in
  let pointwise (cs : list Expr) :=
    let fix decompose_children (cs : list Expr) (gen : nat)
      : result (list (list NamedExpr) * list NamedExpr * list bool * nat) :=
      match cs with
      | [] => Ok ([], [], [], gen)
      | child :: cs' =>
        r <- decompose_single_agg (fresh gen) child false (S gen) ;;
        let '(new_aggs, post, has_agg, gen1) := r in
        rs <- decompose_children cs' gen1 ;;
        let '(aggs_l, posts, has_aggs, gen2) := rs in
        Ok (new_aggs :: aggs_l, post :: posts, has_agg :: has_aggs, gen2)
      end in
    if is_pointwise agg then
      match cs with
      | [] => Raise (ValueError "not enough values to unpack (expected 3, got 0)")
      | _ =>
        rs <- decompose_children cs gen ;;
        let '(aggs_l, posts, has_aggs, gen1) := rs in
        if existsb id has_aggs
        then Ok (concat aggs_l,
                 ne_reconstruct named_expr (reconstruct agg (value <$> posts)),
                 true, gen1)
        else Ok ([named_expr],
                 ne_reconstruct named_expr (Col (dtype agg) name),
                 false, gen1)
      end
    else Raise (NotImplementedError "No support for this expression in groupby") in
  match agg with
  | Col _ _ => Ok ([named_expr], named_expr, false, gen)
  | Len dt => Ok ([named_expr], ne_reconstruct named_expr (Col dt name), true, gen)
  | Literal _ _ | LiteralColumn _ _ => Ok ([], named_expr, false, gen)
  | Agg dt agg_name options cs =>
    match cs with
    | [] =>
      if String.eqb agg_name "quantile"
      then Raise (IndexError "tuple index out of range")
      else Raise (ValueError "not enough values to unpack (expected 1, got 0)")
    | child :: rest =>
      if negb (String.eqb agg_name "quantile")
         && match rest with [] => false | _ => true end
      then Raise (ValueError "too many values to unpack (expected 1)")
      else
        let needs_masking :=
          bool_decide (agg_name ∈ ["min"; "max"]) && is_floating_point (dtype child) in
        if needs_masking && truthy options
        then Raise (NotImplementedError "Nan propagation in groupby for min/max")
        else
          r <- decompose_single_agg (fresh gen) child false (S gen) ;;
          let '(_, _, has_agg, gen1) := r in
          if (has_agg : bool)
          then Raise (NotImplementedError "Nested aggs in groupby not supported")
          else if needs_masking then
            let child := UnaryFunction (dtype child) "mask_nans" (JList []) [child] in
            Ok ([ne_reconstruct named_expr (reconstruct agg [child])],
                ne_reconstruct named_expr (Col dt name), true, gen1)
          else if String.eqb agg_name "sum" then
            let col := sum_col dt name in
            if is_top then
              let rep := Literal dt (Some 0) in
              Ok ([named_expr],
                  ne_reconstruct named_expr
                    (UnaryFunction dt "fill_null" (JList []) [col; rep]),
                  true, gen1)
            else Ok ([named_expr], mkNamedExpr name col, true, gen1)
          else Ok ([named_expr], ne_reconstruct named_expr (Col dt name), true, gen1)
    end
  | Ternary _ _ => Raise (NotImplementedError "Ternary inside groupby")
  | UnaryFunction _ _ _ cs => pointwise cs
  | Cast _ cs => pointwise cs
  | Other _ _ _ cs => pointwise cs
  end.

(** The children of a pointwise expression, each decomposed under a fresh
    name, and the two ways the pointwise expression is then handled. *)
Fixpoint decompose_children (cs : list Expr) (gen : nat)
  : result (list (list NamedExpr) * list NamedExpr * list bool * nat) :=
  match cs with
  | [] => Ok ([], [], [], gen)
  | child :: cs' =>
    r <- decompose_single_agg (fresh gen) child false (S gen) ;;
    let '(new_aggs, post, has_agg, gen1) := r in
    rs <- decompose_children cs' gen1 ;;
    let '(aggs_l, posts, has_aggs, gen2) := rs in
    Ok (new_aggs :: aggs_l, post :: posts, has_agg :: has_aggs, gen2)
  end.

Definition decompose_pointwise (name : string) (agg : Expr) (gen : nat)
  : result (Decomposed * nat) :=
  let named_expr := mkNamedExpr name agg in
  if is_pointwise agg then
    match children agg with
    | [] => Raise (ValueError "not enough values to unpack (expected 3, got 0)")
    | cs =>
      rs <- decompose_children cs gen ;;
      let '(aggs_l, posts, has_aggs, gen1) := rs in
      if existsb id has_aggs
      then Ok (concat aggs_l,
               ne_reconstruct named_expr (reconstruct agg (value <$> posts)),
               true, gen1)
      else Ok ([named_expr],
               ne_reconstruct named_expr (Col (dtype agg) name),
               false, gen1)
    end
  else Raise (NotImplementedError "No support for this expression in groupby").

(** [_decompose_aggs]: every aggregation decomposed in turn through the one
    generator, the three results transposed. *)
Fixpoint _decompose_aggs_list (aggs : list NamedExpr) (is_top : bool) (gen : nat)
  : result (list (list NamedExpr) * list NamedExpr * list bool * nat) :=
  match aggs with
  | [] => Ok ([], [], [], gen)
  | a :: aggs' =>
    r <- decompose_single_agg (ne_name a) (value a) is_top gen ;;
    let '(new_aggs, post, has_agg, gen1) := r in
    rs <- _decompose_aggs_list aggs' is_top gen1 ;;
    let '(aggs_l, posts, has_aggs, gen2) := rs in
    Ok (new_aggs :: aggs_l, post :: posts, has_agg :: has_aggs, gen2)
  end.

Definition _decompose_aggs (aggs : list NamedExpr) (is_top : bool) (gen : nat)
  : result (list NamedExpr * list NamedExpr * list bool * nat) :=
  match aggs with
  | [] => Raise (ValueError "not enough values to unpack (expected 3, got 0)")
  | _ =>
    rs <- _decompose_aggs_list aggs is_top gen ;;
    let '(aggs_l, posts, has_aggs, gen1) := rs in
    Ok (concat aggs_l, posts, has_aggs, gen1)
  end.

(** [decompose_aggs]. *)
Definition decompose_aggs (aggs : list NamedExpr) (gen : nat)
  : result (list NamedExpr * list NamedExpr * nat) :=
  rs <- _decompose_aggs aggs true gen ;;
  let '(new_aggs, post, _, gen1) := rs in
  Ok (new_aggs, post, gen1).

End WithNames.

(** [has_fill_null e]: some node of [e] is a [fill_null] call. *)
Fixpoint has_fill_null (e : Expr) : bool :=
  let any :=
    fix any (cs : list Expr) : bool :=
      match cs with
      | [] => false
      | c :: cs' => has_fill_null c || any cs'
      end in
  match e with
  | Col _ _ | Len _ | Literal _ _ | LiteralColumn _ _ => false
  | UnaryFunction _ name _ cs => String.eqb name "fill_null" || any cs
  | Agg _ _ _ cs | Ternary _ cs | Cast _ cs | Other _ _ _ cs => any cs
  end.

Definition is_sum (e : Expr) : bool :=
  match e with
  | Agg _ name _ _ => String.eqb name "sum"
  | _ => false
  end.

(** The post-aggregation expression of a sum: with the null-fill at the top
    of an aggregation, the bare reference below a pointwise expression. *)
Definition sum_post (dt : DataType) (name : string) (is_top : bool) : Expr :=
  if is_top
  then UnaryFunction dt "fill_null" (JList []) [sum_col dt name; Literal dt (Some 0)]
  else sum_col dt name.

(** Example: [sum(b)] alone, and inside [sum(b) + 1]; the grouped sums of
    two groups, the second of which summed no row. *)
Definition numbered (i : nat) : string := "__tmp" +:+ pretty i.
Definition sum_b : Expr := Agg INT64 "sum" JNull [Col INT64 "b"].
Definition sum_b_plus_one : Expr :=
  Other "BinOp" INT64 true [sum_b; Literal INT64 (Some 1)].
Definition grouped_sums : DataFrame :=
  mkDataFrame [mkColumn [Some 30; None] NO ASCENDING BEFORE "b"].

End Aggregations.

(** ** Source nodes: Scan and DataFrameScan *)

Module Sources.
Import Columns Frames Exprs.

(** A schema: the items of the dictionary from column names to types, in
    insertion order. *)
Definition Schema : Type := list (string * DataType).

(** [ConfigOptions], as far as the source nodes read it. *)
Record ConfigOptions : Type := mkConfigOptions {
  chunked : bool;
  chunk_read_limit : Z;
  pass_read_limit : Z
}.

(** The attributes of a [Scan] node. *)
Record Scan : Type := mkScan {
  schema : Schema;
  typ : string;
  reader_options : json;
  cloud_options : json;
  config_options : ConfigOptions;
  paths : list string;
  with_columns : option (list string);
  skip_rows : Z;
  n_rows : Z;
  row_index : option (string * Z);
  include_file_paths : option string;
  predicate : option NamedExpr
}.

Definition raise_if (b : bool) (msg : string) : result unit :=
  if b then Raise (NotImplementedError msg) else Ok tt.

(** [any(self.cloud_options.get(k) is not None for k in ("aws", "azure", "gcp"))],
    for cloud options that are not [None]. *)
Fixpoint any_cloud_key (cloud_options : json) (ks : list string) : result bool :=
  match ks with
  | [] => Ok false
  | k :: ks' =>
    v <- dict_get cloud_options k ;;
    if is_not_None v then Ok true else any_cloud_key cloud_options ks'
  end.

Section WithVersion.

(** [POLARS_VERSION_LT_128], a constant of [cudf_polars.utils.versions]. *)
Variable POLARS_VERSION_LT_128 : bool.

(** [Scan.__init__]: the attributes are stored, then the unsupported
    configurations are refused one after the other. *)
Definition Scan_init (schema : Schema) (typ : string) (reader_options : json)
  (cloud_options : json) (config_options : ConfigOptions) (paths : list string)
  (with_columns : option (list string)) (skip_rows n_rows : Z)
  (row_index : option (string * Z)) (include_file_paths : option string)
  (predicate : option NamedExpr) : result Scan :=
  let self := mkScan schema typ reader_options cloud_options config_options paths
                with_columns skip_rows n_rows row_index include_file_paths predicate in
  _ <- raise_if (negb (bool_decide (typ ∈ ["csv"; "parquet"; "ndjson"])))
         ("Unhandled scan type: " +:+ typ) ;;
  _ <- raise_if (String.eqb typ "ndjson"
                 && (negb (Z.eqb n_rows (-1)) || negb (Z.eqb skip_rows 0)))
         "row limit in scan for json reader" ;;
  _ <- raise_if (Z.ltb skip_rows 0) "slice pushdown for negative slices" ;;
  _ <- raise_if (POLARS_VERSION_LT_128 && String.eqb typ "csv"
                 && negb (Z.eqb skip_rows 0))
         "skipping rows in CSV reader" ;;
  cloud <- (if is_not_None cloud_options
            then any_cloud_key cloud_options ["aws"; "azure"; "gcp"]
            else Ok false) ;;
  _ <- raise_if cloud "Read from cloud storage" ;;
  _ <- raise_if (existsb (String.prefix "https:/") paths) "Read from https" ;;
  if String.eqb typ "csv" then
    skip_after <- getitem reader_options "skip_rows_after_header" ;;
    _ <- raise_if (ne_zero skip_after) "Skipping rows after header in CSV reader" ;;
    parse_options <- getitem reader_options "parse_options" ;;
    null_values <- getitem parse_options "null_values" ;;
    named <- (if is_not_None null_values
              then contains_str "Named" null_values else Ok false) ;;
    _ <- raise_if named
           "Per column null value specification not supported for CSV reader" ;;
    comment <- getitem parse_options "comment_prefix" ;;
    multi <- (if is_not_None comment then contains_str "Multi" comment else Ok false) ;;
    _ <- raise_if multi
           "Multi-character comment prefix not supported for CSV reader" ;;
    has_header <- getitem reader_options "has_header" ;;
    _ <- raise_if (negb (truthy has_header)) "Reading CSV without header" ;;
    Ok self
  else if String.eqb typ "ndjson" then
    ignore_errors <- getitem reader_options "ignore_errors" ;;
    _ <- raise_if (truthy ignore_errors)
           "ignore_errors is not supported in the JSON reader" ;;
    _ <- raise_if (bool_decide (is_Some include_file_paths))
           "Including file paths in a json scan." ;;
    Ok self
  else
    _ <- raise_if (String.eqb typ "parquet"
                   && bool_decide (is_Some row_index)
                   && match with_columns with
                      | Some cols => Nat.eqb (length cols) 0
                      | None => false
                      end)
           "Reading only parquet metadata to produce row index." ;;
    Ok self.

End WithVersion.

(** The attributes of a [DataFrameScan] node; [df] is the in-memory table
    and [_id_for_hash] the number drawn at construction. *)
Record DataFrameScan : Type := mkDataFrameScan {
  dfs_schema : Schema;
  df : DataFrame;
  projection : option (list string);
  dfs_config_options : ConfigOptions;
  _id_for_hash : Z
}.

(** [DataFrameScan.__init__]; [drawn] is the value [random.randint(0, 2**64 - 1)]
    returns. *)
Definition DataFrameScan_init (schema : Schema) (df : DataFrame)
  (projection : option (list string)) (config_options : ConfigOptions) (drawn : Z)
  : DataFrameScan :=
  mkDataFrameScan schema df projection config_options drawn.

(** The hashable representations: a tuple that starts with the class. *)
Inductive Hashable : Type :=
| HScan (schema_hash : list (string * DataType)) (typ : string)
        (reader_options cloud_options : string) (config_options : ConfigOptions)
        (paths : list string) (with_columns : option (list string))
        (skip_rows n_rows : Z) (row_index : option (string * Z))
        (include_file_paths : option string) (predicate : option NamedExpr)
| HDataFrameScan (schema_hash : list (string * DataType)) (id_for_hash : Z)
        (projection : option (list string)) (config_options : ConfigOptions).

(** [Scan.get_hashable]. *)
Definition Scan_get_hashable (self : Scan) : Hashable :=
  HScan (schema self) (typ self)
        (json_dumps (reader_options self)) (json_dumps (cloud_options self))
        (config_options self) (paths self) (with_columns self)
        (skip_rows self) (n_rows self) (row_index self)
        (include_file_paths self) (predicate self).

(** [DataFrameScan.get_hashable]. *)
Definition DataFrameScan_get_hashable (self : DataFrameScan) : Hashable :=
  HDataFrameScan (dfs_schema self) (_id_for_hash self) (projection self)
                 (dfs_config_options self).

(** Two [Scan] nodes with the same meaning: the same schema sequence and
    parameters, the option dictionaries compared as Python compares
    dictionaries (by content, whatever the insertion order). *)
Definition Scan_same_meaning (a b : Scan) : Prop :=
  schema a = schema b /\ typ a = typ b /\
  py_eq (reader_options a) (reader_options b) = true /\
  py_eq (cloud_options a) (cloud_options b) = true /\
  config_options a = config_options b /\ paths a = paths b /\
  with_columns a = with_columns b /\ skip_rows a = skip_rows b /\
  n_rows a = n_rows b /\ row_index a = row_index b /\
  include_file_paths a = include_file_paths b /\ predicate a = predicate b.

(** The configurations the constructor is to refuse. *)
Definition requests_cloud (cloud_options : json) : Prop :=
  exists items k v,
    cloud_options = JDict items /\ k ∈ ["aws"; "azure"; "gcp"] /\
    assoc_lookup k items = Some v /\ v <> JNull.

(** The CSV reader options in the shape the planner delivers them: the keys
    the constructor reads are present, and the null-value and comment
    specifications are [None] or a dictionary. *)
Definition is_None_or_dict (v : json) : Prop :=
  v = JNull \/ exists items, v = JDict items.

Record csv_shape (reader_options : json) (skip_after parse_options null_values
  comment has_header : json) : Prop := mk_csv_shape {
  shape_skip_after : getitem reader_options "skip_rows_after_header" = Ok skip_after;
  shape_parse : getitem reader_options "parse_options" = Ok parse_options;
  shape_nulls : getitem parse_options "null_values" = Ok null_values;
  shape_nulls_dict : is_None_or_dict null_values;
  shape_comment : getitem parse_options "comment_prefix" = Ok comment;
  shape_comment_dict : is_None_or_dict comment;
  shape_header : getitem reader_options "has_header" = Ok has_header
}.

Definition has_key (k : string) (v : json) : Prop :=
  exists items x, v = JDict items /\ assoc_lookup k items = Some x.

(** Two [DataFrameScan] nodes with the same representation of every
    parameter: the table itself is not among them. *)
Definition DataFrameScan_same_parameters (a b : DataFrameScan) : Prop :=
  dfs_schema a = dfs_schema b /\ _id_for_hash a = _id_for_hash b /\
  projection a = projection b /\ dfs_config_options a = dfs_config_options b.

(** The configurations the constructor is to refuse: cloud credentials, a
    CSV source without a header, with a per-column null-value
    specification or with a multi-character comment prefix, and the ndjson
    reader with a row limit or a row skip. *)
Definition unsupported_configuration (typ : string) (reader_options cloud_options : json)
  (skip_rows n_rows : Z) : Prop :=
  requests_cloud cloud_options \/
  (typ = "csv" /\ is_None_or_dict cloud_options /\
   exists skip_after parse_options null_values comment has_header,
     csv_shape reader_options skip_after parse_options null_values comment has_header /\
     (truthy has_header = false \/ has_key "Named" null_values \/
      has_key "Multi" comment)) \/
  (typ = "ndjson" /\ (n_rows <> -1 \/ skip_rows <> 0)).

(** Example nodes. *)
Definition default_config : ConfigOptions := mkConfigOptions false 0 17179869184.

Definition parquet_options_1 : json :=
  JDict [("low_memory", JBool false); ("parallel", JStr "Auto")].
Definition parquet_options_2 : json :=
  JDict [("parallel", JStr "Auto"); ("low_memory", JBool false)].

Definition scan_1 : Scan :=
  mkScan [("a", INT64)] "parquet" parquet_options_1 JNull default_config
         ["data.parquet"] None 0 (-1) None None None.
Definition scan_2 : Scan :=
  mkScan [("a", INT64)] "parquet" parquet_options_2 JNull default_config
         ["data.parquet"] None 0 (-1) None None None.

Definition csv_parse_options (null_values comment : json) : json :=
  JDict [("separator", JInt 44); ("quote_char", JInt 34); ("eol_char", JInt 10);
         ("null_values", null_values); ("comment_prefix", comment);
         ("decimal_comma", JBool false)].
Definition csv_options (has_header : bool) (null_values comment : json) : json :=
  JDict [("skip_rows", JInt 0); ("skip_rows_after_header", JInt 0);
         ("has_header", JBool has_header); ("schema", JNull);
         ("parse_options", csv_parse_options null_values comment)].

End Sources.

(** ** Join: the order of the gather maps *)

Module Joins.
Import Columns Frames Engine.

Inductive JoinType := Inner | Left | Right | Full | Semi | Anti | Cross.

(** [Join._reorder_maps]. *)
Definition _reorder_maps (left_rows : nat) (lg : list cell)
  (left_policy : OutOfBoundsPolicy) (right_rows : nat) (rg : list cell)
  (right_policy : OutOfBoundsPolicy) : result Table :=
  let init := 0 in
  let step := 1 in
  left_order <- gather [sequence left_rows init step] lg left_policy ;;
  right_order <- gather [sequence right_rows init step] rg right_policy ;;
  stable_sort_by_key [lg; rg] (left_order ++ right_order)
    [ASCENDING; ASCENDING] [AFTER; AFTER].

Section WithJoinPrimitives.

(** The equality joins of the storage engine: each returns two gather maps
    of matching rows, in no particular order. *)
Variables inner_join left_join full_join :
  Table -> Table -> NullEquality -> list cell * list cell.

(** [Join._joiners], for the joins that return two gather maps. *)
Definition _joiners (how : JoinType)
  : option ((Table -> Table -> NullEquality -> list cell * list cell)
            * OutOfBoundsPolicy * OutOfBoundsPolicy) :=
  match how with
  | Inner => Some (inner_join, DONT_CHECK, DONT_CHECK)
  | Left | Right => Some (left_join, DONT_CHECK, NULLIFY)
  | Full => Some (full_join, NULLIFY, NULLIFY)
  | Semi | Anti | Cross => None
  end.

Definition is_left_or_right (how : JoinType) : bool :=
  match how with Left | Right => true | _ => false end.

(** [Join.do_evaluate], the branch of the joins with two gather maps, from
    the operand swap of a Right join to the two gathered tables (key
    coalescing, which drops or replaces columns and leaves the rows alone,
    is off). The result holds the gathered probe-side and other-side tables
    and the gather maps they were gathered through. *)
Definition gathered_sides (how : JoinType) (nulls_equal : bool)
  (left_df right_df left_on right_on : DataFrame)
  : result (Table * Table * list cell * list cell) :=
  let null_equality := if nulls_equal then EQUAL else UNEQUAL in
  match _joiners how with
  | None => Raise (AssertionError "join without a right gather map")
  | Some (join_fn, left_policy, right_policy) =>
    let '(left_df, right_df, left_on, right_on) :=
      match how with
      | Right => (right_df, left_df, right_on, left_on)
      | _ => (left_df, right_df, left_on, right_on)
      end in
    let '(lg, rg) := join_fn (table left_on) (table right_on) null_equality in
    maps <- (if is_left_or_right how
             then
               maps <- _reorder_maps (Frames.num_rows left_df) lg left_policy
                         (Frames.num_rows right_df) rg right_policy ;;
               match maps with
               | [lg; rg] => Ok (lg, rg)
               | _ => Raise (ValueError "too many values to unpack (expected 2)")
               end
             else Ok (lg, rg)) ;;
    let '(lg, rg) := maps in
    left_table <- gather (table left_df) lg left_policy ;;
    right_table <- gather (table right_df) rg right_policy ;;
    Ok (left_table, right_table, lg, rg)
  end.

End WithJoinPrimitives.

(** The row a gather-map entry selects among [n] rows, null when it selects
    none: what gathering the sequence 0, ..., n-1 under [NULLIFY] gives. *)
Definition order_key (n : nat) (i : Z) : cell :=
  if (0 <=? i)%Z && (i <? Z.of_nat n)%Z then Some i
  else if (- Z.of_nat n <=? i)%Z && (i <? 0)%Z then Some (i + Z.of_nat n)
  else None.

(** Ascending with nulls last. *)
Definition key_le_nulls_last (a b : cell) : Prop :=
  match a, b with
  | Some x, Some y => (x <= y)%Z
  | Some _, None => True
  | None, Some _ => False
  | None, None => True
  end.

(** The sort [_reorder_maps] performs, on the pairs of map entries: a pair
    is compared through the rows its two entries select. *)
Definition ascending_nulls_last : list (Order * NullOrder) :=
  [(ASCENDING, AFTER); (ASCENDING, AFTER)].

Definition entry_key (n : nat) (c : cell) : cell := order_key n (default 0 c).

Definition pair_leb (left_rows right_rows : nat) (p q : cell * cell) : bool :=
  rows_leb ascending_nulls_last
    [entry_key left_rows (fst p); entry_key right_rows (snd p)]
    [entry_key left_rows (fst q); entry_key right_rows (snd q)].

Definition sorted_pairs (left_rows right_rows : nat) (lg rg : list cell)
  : list (cell * cell) :=
  stable_sort (pair_leb left_rows right_rows) (zip lg rg).

(** The contract of [plc.join.left_join]: two maps of one length, without
    nulls, the left one made of rows of the left table. *)
Definition left_join_contract
  (left_join : Table -> Table -> NullEquality -> list cell * list cell) : Prop :=
  forall l r ne,
    length (fst (left_join l r ne)) = length (snd (left_join l r ne)) /\
    Forall (fun c => exists i, c = Some i /\ (0 <= i < Z.of_nat (num_rows l))%Z)
           (fst (left_join l r ne)) /\
    Forall (fun c => exists j, c = Some j) (snd (left_join l r ne)).

(** The order the reordered maps are in: the left map ascends, and where it
    stays on one left row the rows the right map selects ascend, the
    entries that select no row last. *)
Definition maps_in_probe_order (right_rows : nat) (lg rg : list cell) : Prop :=
  forall (p q : nat) (a b c d : Z),
    (p < q)%nat ->
    lg !! p = Some (Some a) -> rg !! p = Some (Some b) ->
    lg !! q = Some (Some c) -> rg !! q = Some (Some d) ->
    (a <= c)%Z /\
    (a = c -> key_le_nulls_last (order_key right_rows b) (order_key right_rows d)).

(** An example: the left join of scenario B, keys 1, 2, 3 against 2, 2, 4,
    with the matches found out of order. *)
Definition frame_k123 : DataFrame :=
  mkDataFrame [mkColumn [Some 1; Some 2; Some 3] NO ASCENDING BEFORE "k"].
Definition frame_k224 : DataFrame :=
  mkDataFrame [mkColumn [Some 2; Some 2; Some 4] NO ASCENDING BEFORE "k"].
Definition no_match : Z := -2147483648.
Definition unordered_left_join (l r : Table) (ne : NullEquality)
  : list cell * list cell :=
  match num_rows l with
  | 3%nat => ([Some 2; Some 1; Some 0; Some 1],
              [Some no_match; Some 1; Some no_match; Some 0])
  | _ => ([], [])
  end.

End Joins.

(** ** GroupBy: the order of the groups *)

Module GroupBys.
Import Columns Frames Exprs Engine.

(** The rows of a list without the repeats, each kept where it first
    appears. *)
Fixpoint keep_first_from (seen l : list (list cell)) : list (list cell) :=
  match l with
  | [] => []
  | r :: l' =>
    if decide (r ∈ seen) then keep_first_from seen l'
    else r :: keep_first_from (r :: seen) l'
  end.

Definition keep_first (l : list (list cell)) : list (list cell) :=
  keep_first_from [] l.

(** Modelled from the spec: [plc.stream_compaction.stable_distinct] with
    every column a key, [KEEP_FIRST], nulls equal to each other: "the
    distinct ordering of keys as first-encountered". *)
Definition stable_distinct (t : Table) : Table :=
  columns_of (length t) (keep_first (rows t)).

(** [zip(..., strict=True)]. *)
Fixpoint zip_strict {A B} (l : list A) (k : list B) : result (list (A * B)) :=
  match l, k with
  | [], [] => Ok []
  | a :: l', b :: k' => r <- zip_strict l' k' ;; Ok ((a, b) :: r)
  | [], _ :: _ => Raise (ValueError "zip() argument 2 is longer than argument 1")
  | _ :: _, [] => Raise (ValueError "zip() argument 2 is shorter than argument 1")
  end.

Definition Zlice : Type := Z * option Z.

Section WithPrimitives.

(** The collaborators of the group-by: the Expression Evaluator, for named
    and for bare expressions; the grouping primitive, which takes the key
    table, its sortedness hints and the requests (a column and the
    aggregation to apply to it) and returns the keys of the groups and one
    table of results per request; the inner join; the unstable sort by key;
    and the frame's own slicing. *)
Variable evaluate_named : NamedExpr -> DataFrame -> result Column.
Variable evaluate_expr : Expr -> DataFrame -> result Column.
Variable aggregate :
  Table -> Columns.Sorted -> list Order -> list NullOrder ->
  list (list cell * Expr) -> Table * list Table.
Variable inner_join : Table -> Table -> NullEquality -> list cell * list cell.
Variable sort_by_key : Table -> Table -> list Order -> list NullOrder -> result Table.
Variable slice : DataFrame -> option Zlice -> DataFrame.

(** The column one aggregation request is computed over. *)
Definition request_column (keys : list Column) (df : DataFrame) (request : NamedExpr)
  : result (list cell * Expr) :=
  let value := value request in
  col <- match value with
         | Len _ =>
           match keys with
           | k :: _ => Ok (obj k)
           | [] => Raise (IndexError "list index out of range")
           end
         | Agg _ agg_name _ cs =>
           child <- match cs with
                    | [] =>
                      if String.eqb agg_name "quantile"
                      then Raise (IndexError "tuple index out of range")
                      else Raise (ValueError "not enough values to unpack (expected 1, got 0)")
                    | child :: rest =>
                      if negb (String.eqb agg_name "quantile")
                         && match rest with [] => false | _ => true end
                      then Raise (ValueError "too many values to unpack (expected 1)")
                      else Ok child
                    end ;;
           c <- evaluate_expr child df ;; Ok (obj c)
         | _ => c <- evaluate_expr value df ;; Ok (obj c)
         end ;;
  Ok (col, value).

Definition all_sorted (keys : list Column) : Columns.Sorted :=
  if forallb (fun k => match is_sorted k with YES => true | NO => false end) keys
  then YES else NO.

(** The reordering of the grouped columns into the order of first
    appearance: the body of [if maintain_order and not sorted]. *)
Definition restore_order (keys broadcasted : list Column) : result (list Column) :=
  let want := stable_distinct (obj <$> keys) in
  let have := obj <$> take (length keys) broadcasted in
  let '(left_order, right_order) := inner_join want have EQUAL in
  sorted_table <- sort_by_key [right_order] [left_order] [ASCENDING] [AFTER] ;;
  right_order <- match sorted_table with
                 | [c] => Ok c
                 | _ => Raise (ValueError "not enough values to unpack (expected 1)")
                 end ;;
  ordered_table <- gather (obj <$> broadcasted) right_order DONT_CHECK ;;
  pairs <- zip_strict ordered_table broadcasted ;;
  Ok ((fun p => plain_column (fst p) (name (snd p))) <$> pairs).

(** [GroupBy.do_evaluate]. *)
Definition do_evaluate (keys_in agg_requests : list NamedExpr) (maintain_order : bool)
  (zlice : option Zlice) (df : DataFrame) : result DataFrame :=
  key_columns <- rmapM (fun k => evaluate_named k df) keys_in ;;
  keys <- broadcast key_columns (Some (Frames.num_rows df)) ;;
  let sorted := all_sorted keys in
  requests <- rmapM (request_column keys df) agg_requests ;;
  let names := ne_name <$> agg_requests in
  let '(group_keys, raw_tables) :=
    aggregate (obj <$> keys) sorted (order <$> keys) (null_order <$> keys) requests in
  named_results <- zip_strict names (concat raw_tables) ;;
  let results := (fun p => plain_column (snd p) (fst p)) <$> named_results in
  keyed <- zip_strict keys group_keys ;;
  let result_keys := (fun p => plain_column (snd p) (name (fst p))) <$> keyed in
  broadcasted <- broadcast (result_keys ++ results) None ;;
  broadcasted <- (if maintain_order && match sorted with NO => true | YES => false end
                  then restore_order keys broadcasted
                  else Ok broadcasted) ;;
  Ok (slice (mkDataFrame broadcasted) zlice).

End WithPrimitives.

(** The contracts of the collaborators. The grouping primitive returns,
    in any order, one row of keys per distinct key combination, and result
    columns of that many rows, one per request. *)
Definition aggregate_contract
  (aggregate : Table -> Columns.Sorted -> list Order -> list NullOrder ->
               list (list cell * Expr) -> Table * list Table) : Prop :=
  forall keys sorted orders null_orders requests,
    let group_keys := fst (aggregate keys sorted orders null_orders requests) in
    let raw_tables := snd (aggregate keys sorted orders null_orders requests) in
    length group_keys = length keys /\
    length (concat raw_tables) = length requests /\
    Forall (fun c => length c = num_rows group_keys) (group_keys ++ concat raw_tables) /\
    Permutation (rows group_keys) (keep_first (rows keys)).

(** The pairs of matching rows of two tables, as row indices. *)
Definition index_cell (i : nat) : cell := Some (Z.of_nat i).

Definition matches_of (l r : Table) (i : nat) : list nat :=
  filter (fun j => row l i = row r j) (seq 0 (num_rows r)).

Definition matching_pairs (l r : Table) : list (cell * cell) :=
  i ← seq 0 (num_rows l);
  (fun j => (index_cell i, index_cell j)) <$> matches_of l r i.

(** The inner join with nulls equal returns every pair of matching rows
    once, in any order. *)
Definition inner_join_contract
  (inner_join : Table -> Table -> NullEquality -> list cell * list cell) : Prop :=
  forall l r,
    length (fst (inner_join l r EQUAL)) = length (snd (inner_join l r EQUAL)) /\
    Permutation (zip (fst (inner_join l r EQUAL)) (snd (inner_join l r EQUAL)))
                (matching_pairs l r).

(** The unstable sort of one column of values by one column of keys of the
    same length returns the values rearranged as some rearrangement of the
    pairs that puts the keys in order. *)
Definition sort_by_key_contract
  (sort_by_key : Table -> Table -> list Order -> list NullOrder -> result Table) : Prop :=
  forall (values keys : list cell) (order : Order) (null_order : NullOrder),
    length values = length keys ->
    exists pairs : list (cell * cell),
      sort_by_key [values] [keys] [order] [null_order] = Ok [pairs.*2] /\
      Permutation pairs (zip keys values) /\
      StronglySorted
        (fun p q => rows_leb [(order, null_order)] [fst p] [fst q] = true) pairs.

(** Example collaborators: a grouping primitive that sums and returns the
    groups last-seen first, an inner join that returns its pairs backwards,
    and a slicing that has nothing to cut. *)
Definition sum_cells (l : list cell) : cell :=
  foldr (fun c acc =>
           match c, acc with
           | Some x, Some y => Some (x + y)
           | Some x, None => Some x
           | None, _ => acc
           end) None l.

Definition reversed_groupby (keys : Table) (sorted : Columns.Sorted)
  (orders : list Order) (null_orders : list NullOrder)
  (requests : list (list cell * Expr)) : Table * list Table :=
  let groups := reverse (keep_first (rows keys)) in
  (columns_of (length keys) groups,
   (fun req =>
      [(fun g => sum_cells (snd <$> filter (fun p => fst p = g)
                                      (zip (rows keys) (fst req)))) <$> groups])
     <$> requests).

Definition reversed_inner_join (l r : Table) (ne : NullEquality)
  : list cell * list cell :=
  let m := reverse (matching_pairs l r) in (m.*1, m.*2).

Definition no_slice (df : DataFrame) (zlice : option Zlice) : DataFrame := df.

(** Scenario A: the table a = 1, 1, 2 and b = 10, 20, 30, grouped by a with
    the sum of b. *)
Definition frame_scenario_A : DataFrame :=
  mkDataFrame [mkColumn [Some 1; Some 1; Some 2] NO ASCENDING BEFORE "a";
               mkColumn [Some 10; Some 20; Some 30] NO ASCENDING BEFORE "b"].
Definition key_a : NamedExpr := mkNamedExpr "a" (Col INT64 "a").
Definition sum_of_b : NamedExpr :=
  mkNamedExpr "b" (Agg INT64 "sum" JNull [Col INT64 "b"]).

End GroupBys.

(** ** MergeSorted *)

Module MergeSorted.
Import Columns Frames Engine.

(** Modelled from the spec: the frame methods [column_names_set],
    [discard_columns], [select_columns] and [from_table] belong to
    [cudf_polars.containers.DataFrame], which is not among the sources;
    they select, drop and name the columns of an Evaluated Table ("an
    ordered sequence of Evaluated Columns"). [from_table] builds every
    column with the constructor, without metadata. *)
Definition column_names_set (df : DataFrame) : gset string :=
  list_to_set (column_names df).

Definition discard_columns (df : DataFrame) (names : gset string) : DataFrame :=
  mkDataFrame (filter (fun c => name c ∉ names) (columns df)).

Definition select_columns (df : DataFrame) (names : gset string) : list Column :=
  filter (fun c => name c ∈ names) (columns df).

Definition from_table (t : Table) (names : list string) : result DataFrame :=
  if negb (Nat.eqb (length t) (length names))
  then Raise (ValueError "Mismatching name and table length.")
  else Ok (mkDataFrame ((fun p => plain_column (fst p) (snd p)) <$> zip t names)).

(** [names.index(key)]. *)
Fixpoint index_of (key : string) (names : list string) : option nat :=
  match names with
  | [] => None
  | n :: names' => if String.eqb n key then Some 0%nat else S <$> index_of key names'
  end.

Definition list_index (names : list string) (key : string) : result nat :=
  match index_of key names with
  | Some i => Ok i
  | None => Raise (ValueError "key is not in list")
  end.

Definition first_column (cols : list Column) : result Column :=
  match cols with
  | c :: _ => Ok c
  | [] => Raise (IndexError "list index out of range")
  end.

(** The key of a row: its values in the key columns. *)
Definition key_of_row (key_cols : list nat) (r : list cell) : list cell :=
  (fun k => default None (r !! k)) <$> key_cols.

Definition key_le (key_cols : list nat) (specs : list (Order * NullOrder))
  (r1 r2 : list cell) : Prop :=
  rows_leb specs (key_of_row key_cols r1) (key_of_row key_cols r2) = true.

#[global] Instance key_le_dec key_cols specs r1 r2 :
  Decision (key_le key_cols specs r1 r2).
Proof. unfold key_le. apply _. Defined.

(** Modelled from the spec: [plc.merge.merge] is not among the sources; it
    "merges two tables that are each individually known-sorted ... on one
    shared key column". The tables must agree in their number of columns
    and the key columns must exist; the rows are merged two lists at a
    time, a row of the earlier table first when the keys tie. *)
Definition merge (tables : list Table) (key_cols : list nat)
  (column_order : list Order) (null_precedence : list NullOrder) : result Table :=
  match tables with
  | [] => Ok []
  | t0 :: _ =>
    if negb (forallb (fun t => Nat.eqb (length t) (length t0)) tables) then
      Raise (ValueError "Mismatched number of columns")
    else if negb (forallb (fun k => Nat.ltb k (length t0)) key_cols) then
      Raise (ValueError "Key column indices out of bounds")
    else if negb (Nat.eqb (length column_order) (length key_cols))
            || negb (Nat.eqb (length null_precedence) (length key_cols)) then
      Raise (ValueError "Mismatched size between key_cols and column_order")
    else
      let specs := zip column_order null_precedence in
      Ok (columns_of (length t0)
            (foldr (list_merge (key_le key_cols specs)) [] (rows <$> tables)))
  end.

(** A child of the node, as far as the constructor looks at it: a [Sort]
    node with the order of its keys, or a node of another kind; either with
    the column names of its schema. *)
Inductive ChildNode : Type :=
| SortNode (order : list Order) (schema_names : list string)
| OtherNode (kind : string) (schema_names : list string).

#[global] Instance Order_eq_dec : EqDecision Order.
Proof. solve_decision. Defined.

(** [MergeSorted.__init__]: the four assertions, then the attributes. *)
Definition MergeSorted_init (key : string) (left_node right_node : ChildNode)
  : result (string * ChildNode * ChildNode) :=
  match left_node with
  | OtherNode _ _ => Raise (AssertionError "isinstance(left, Sort)")
  | SortNode left_order left_names =>
    match right_node with
    | OtherNode _ _ => Raise (AssertionError "isinstance(right, Sort)")
    | SortNode right_order right_names =>
      if negb (bool_decide (left_order = right_order))
      then Raise (AssertionError "left.order == right.order")
      else if negb (Nat.leb (length left_names) (length right_names))
      then Raise (AssertionError "len(left.schema.keys()) <= len(right.schema.keys())")
      else Ok (key, left_node, right_node)
    end
  end.

(** The minor side as it is passed to the merge: the right frame without
    the columns whose names the left frame does not have. *)
Definition minor_side (left_df right_df : DataFrame) : DataFrame :=
  discard_columns right_df (column_names_set right_df ∖ column_names_set left_df).

(** [MergeSorted.do_evaluate]. *)
Definition do_evaluate (key : string) (dfs : list DataFrame) : result DataFrame :=
  match dfs with
  | [left_df; right_df] =>
    let right_df := minor_side left_df right_df in
    on_col_left <- first_column (select_columns left_df {[ key ]}) ;;
    on_col_right <- first_column (select_columns right_df {[ key ]}) ;;
    left_index <- list_index (column_names left_df) key ;;
    right_index <- list_index (column_names right_df) key ;;
    merged <- merge [table right_df; table left_df] [left_index; right_index]
                [order on_col_left; order on_col_right]
                [null_order on_col_left; null_order on_col_right] ;;
    from_table merged (column_names left_df)
  | _ :: _ :: _ :: _ => Raise (ValueError "too many values to unpack (expected 2)")
  | _ => Raise (ValueError "not enough values to unpack (expected 2)")
  end.

(** The minor side as the sentence "drops duplicate key columns from the
    minor side" has it: the right frame without the columns whose names the
    left frame has too. *)
Definition minor_side_without_duplicates (left_df right_df : DataFrame) : DataFrame :=
  discard_columns right_df (column_names_set right_df ∩ column_names_set left_df).

(** The order of the merged rows: the key column of the left frame, under
    the order and null placement that column carries. *)
Definition shared_key_le (i : nat) (on_col : Column) (r1 r2 : list cell) : Prop :=
  key_le [i] [(order on_col, null_order on_col)] r1 r2.

(** Example frames: keys 1, 3 on the left; key 2 and one more column on the
    right. *)
Definition merge_left : DataFrame :=
  mkDataFrame [mkColumn [Some 1; Some 3] YES ASCENDING AFTER "k";
               mkColumn [Some 10; Some 30] NO ASCENDING BEFORE "v"].
Definition merge_right : DataFrame :=
  mkDataFrame [mkColumn [Some 2] YES ASCENDING AFTER "k";
               mkColumn [Some 20] NO ASCENDING BEFORE "v";
               mkColumn [Some 9] NO ASCENDING BEFORE "extra"].

End MergeSorted.

(** ** The evaluation driver: traversal order *)

Module Driver.
Import Columns Frames CSE.

(** [cache_free n]: the plan [n] has no [Cache] node. *)
Fixpoint cache_free (n : IR) : bool :=
  match n with
  | Node _ _ children =>
    (fix all (cs : list IR) : bool :=
       match cs with
       | [] => true
       | c :: cs' => cache_free c && all cs'
       end) children
  | Cache _ _ _ => false
  end.

(** The node kinds of a plan in post-order: the children from left to
    right, then the node itself. *)
Fixpoint postorder (n : IR) : list string :=
  match n with
  | Node kind _ children =>
    (fix go (cs : list IR) : list string :=
       match cs with
       | [] => []
       | c :: cs' => postorder c ++ go cs'
       end) children ++ [kind]
  | Cache _ _ value => postorder value
  end.

(** What the timer has stored, earliest first. *)
Definition stored (s : State) : list string :=
  reverse (omap (fun e => match e with Stored kind => Some kind | _ => None end)
             (trace s)).

(** Example plans: a parent over two leaves, and a parent whose second
    child fails. *)
Definition failing (kind : string) : IR :=
  Node kind (fun _ => Raise (NotImplementedError "unsupported")) [].
Definition plan_two_leaves : IR :=
  Node "HConcat" first_child [Node "Scan" (fun _ => Ok frame_a) []; leaf].
Definition plan_failing_child : IR :=
  Node "HConcat" first_child [leaf; failing "Filter"; leaf].

End Driver.

(** ** Reduce *)

Module Reduce.
Import Columns Frames Exprs.

Section WithEvaluator.

(** The Expression Evaluator. *)
Variable evaluate_named : NamedExpr -> DataFrame -> result Column.

(** [Reduce.do_evaluate]. *)
Definition do_evaluate (exprs : list NamedExpr) (df : DataFrame) : result DataFrame :=
  evaluated <- rmapM (fun e => evaluate_named e df) exprs ;;
  columns <- broadcast evaluated None ;;
  if forallb (fun column => Nat.eqb (size column) 1) columns
  then Ok (mkDataFrame columns)
  else Raise (AssertionError "all(column.size == 1 for column in columns)").

End WithEvaluator.

(** Example: an evaluator that returns the first column of the frame under
    the expression's name, and one that returns a single value. *)
Definition first_column_as (e : NamedExpr) (df : DataFrame) : result Column :=
  match columns df with
  | c :: _ => Ok (rename c (ne_name e))
  | [] => Raise (KeyError (ne_name e))
  end.
Definition constant_one (e : NamedExpr) (df : DataFrame) : result Column :=
  Ok (mkColumn [Some 1] NO ASCENDING BEFORE (ne_name e)).

End Reduce.

(** ** HStack *)

Module HStack.
Import Columns Frames Exprs.

Definition num_columns (df : DataFrame) : nat := length (columns df).

Section WithCollaborators.

(** The Expression Evaluator, and [DataFrame.with_columns], a method of the
    frame container. *)
Variable evaluate_named : NamedExpr -> DataFrame -> result Column.
Variable with_columns : DataFrame -> list Column -> DataFrame.

(** [HStack.do_evaluate]. *)
Definition do_evaluate (exprs : list NamedExpr) (should_broadcast : bool)
  (df : DataFrame) : result DataFrame :=
  columns <- rmapM (fun c => evaluate_named c df) exprs ;;
  columns <- (if should_broadcast
              then broadcast columns
                     (if negb (Nat.eqb (num_columns df) 0)
                      then Some (num_rows df) else None)
              else if forallb (fun e => String.prefix "__POLARS_CSER_0x" (ne_name e)) exprs
                   then Ok columns
                   else Raise (AssertionError
                                 "all(e.name.startswith('__POLARS_CSER_0x') for e in exprs)")) ;;
  Ok (with_columns df columns).

End WithCollaborators.

(** Example: columns appended after the frame's own. *)
Definition append_columns (df : DataFrame) (cols : list Column) : DataFrame :=
  mkDataFrame (columns df ++ cols).

End HStack.

(** ** Filter *)

Module Filter.
Import Columns Frames Exprs.

Section WithCollaborators.

(** The Expression Evaluator, and [DataFrame.filter], a method of the frame
    container. *)
Variable evaluate_named : NamedExpr -> DataFrame -> result Column.
Variable DataFrame_filter : DataFrame -> Column -> result DataFrame.

(** [Filter.do_evaluate]. *)
Definition do_evaluate (mask_expr : NamedExpr) (df : DataFrame) : result DataFrame :=
  evaluated <- evaluate_named mask_expr df ;;
  masks <- broadcast [evaluated] (Some (num_rows df)) ;;
  match masks with
  | [mask] => DataFrame_filter df mask
  | [] => Raise (ValueError "not enough values to unpack (expected 1, got 0)")
  | _ => Raise (ValueError "too many values to unpack (expected 1)")
  end.

End WithCollaborators.

(** Example: a filter that keeps the rows whose mask value is not zero. *)
Definition keep_nonzero (df : DataFrame) (mask : Column) : result DataFrame :=
  Ok (mkDataFrame
        ((fun c => mkColumn
                     (fst <$> List.filter
                                (fun p => match snd p with
                                          | Some z => negb (Z.eqb z 0)
                                          | None => false
                                          end) (zip (obj c) (obj mask)))
                     (is_sorted c) (order c) (null_order c) (name c))
           <$> columns df)).

End Filter.

(** ** Projection *)

Module Projection.
Import Columns Frames Exprs Sources.

(** [df.column_map[name]]. *)
Definition column_map_getitem (df : DataFrame) (name : string) : result Column :=
  match column_map df !! name with
  | Some c => Ok c
  | None => Raise (KeyError name)
  end.

(** [Projection.do_evaluate]; iterating over the schema yields its names. *)
Definition do_evaluate (schema : Schema) (df : DataFrame) : result DataFrame :=
  selected <- rmapM (column_map_getitem df) (schema.*1) ;;
  columns <- broadcast selected (Some (num_rows df)) ;;
  Ok (mkDataFrame columns).

(** The column a length-1 column is replaced by when it is broadcast to one
    row: the same value and name under the tags [broadcast] writes. *)
Definition retagged (c : Column) : Column :=
  mkColumn (obj c) YES ASCENDING BEFORE (name c).

(** What [broadcast] makes of a column that already has the target length
    [n]: it is replaced when that length is 1 and kept otherwise. *)
Definition fitted (n : nat) (c : Column) : Column :=
  if decide (n = 1%nat) then retagged c else c.

(** Example schemas over the frame with columns a and b. *)
Definition schema_ba : Schema := [("b", INT64); ("a", INT64)].
Definition schema_b : Schema := [("b", INT64)].

End Projection.

(** ** MapFunction: rename and row_index *)

Module MapFunction.
Import Columns Frames Exprs Engine Sources.

(** The [rename] branch of [MapFunction.__init__]: the options are the old
    names, the new names and a flag; [child_schema] is the schema of the
    child node. *)
Definition init_rename (child_schema : Schema) (old new : list string) (strict : bool)
  : result (list string * list string * bool) :=
  let new_names : gset string := list_to_set new in
  if negb (Nat.eqb (length new) (base.size new_names))
     || negb (bool_decide
                (new_names ∩ (list_to_set (child_schema.*1) ∖ list_to_set old)
                 = (∅ : gset string)))
  then Raise (NotImplementedError "Duplicate new names in rename.")
  else Ok (old, new, strict).

(** [dict(zip(old, new, strict=True))]: a later pair replaces an earlier one
    with the same key. *)
Definition rename_mapping (old new : list string) : result (gmap string string) :=
  pairs <- GroupBys.zip_strict old new ;;
  Ok (foldl (fun m p => <[fst p := snd p]> m) ∅ pairs).

(** Modelled from the spec: [DataFrame.rename_columns] belongs to the frame
    container, which is not among the sources; it is the "name
    substitution" of the rename transform: every column whose name is a key
    of the mapping gets the mapped name, the others keep theirs. *)
Definition rename_columns (df : DataFrame) (mapping : gmap string string) : DataFrame :=
  mkDataFrame ((fun c => rename c (default (name c) (mapping !! name c))) <$> columns df).

(** The [rename] branch of [MapFunction.do_evaluate]. *)
Definition do_evaluate_rename (old new : list string) (df : DataFrame)
  : result DataFrame :=
  mapping <- rename_mapping old new ;;
  Ok (rename_columns df mapping).

(** [schema[name]]. *)
Fixpoint schema_getitem (schema : Schema) (name : string) : result DataType :=
  match schema with
  | [] => Raise (KeyError name)
  | (k, dtype) :: schema' =>
    if String.eqb k name then Ok dtype else schema_getitem schema' name
  end.

Section WithScalars.

(** The storage engine's scalars: [plc.Scalar.from_py(value, dtype)] builds
    a scalar of the type [dtype], and [plc.filling.sequence(size, init,
    step)] a column of that type from two scalars. *)
Variable Scalar : Type.
Variable Scalar_from_py : Z -> DataType -> result Scalar.
Variable filling_sequence : nat -> Scalar -> Scalar -> result (list cell).

(** The [row_index] branch of [MapFunction.do_evaluate]. *)
Definition do_evaluate_row_index (schema : Schema) (col_name : string) (offset : Z)
  (df : DataFrame) : result DataFrame :=
  dtype <- schema_getitem schema col_name ;;
  step <- Scalar_from_py 1 dtype ;;
  init <- Scalar_from_py offset dtype ;;
  values <- filling_sequence (Frames.num_rows df) init step ;;
  let index_col := mkColumn values YES ASCENDING AFTER col_name in
  Ok (mkDataFrame (index_col :: columns df)).

End WithScalars.
Arguments do_evaluate_row_index {Scalar} _ _ _ _ _ _.

(** An integer that the integer type [dt] can hold. *)
Definition fits (dt : DataType) (z : Z) : Prop :=
  match int_bounds dt with
  | Some (lo, modulus) => (lo <= z < lo + modulus)%Z
  | None => False
  end.

(** What is taken for granted of the scalars: an integer that fits its
    type can be made a scalar of it, and a sequence all of whose values fit
    the type of its scalars holds exactly these values (the storage
    engine's "integer sequence generation"). Nothing is said of integers
    that do not fit. *)
Definition exact_when_fitting {Scalar : Type}
  (Scalar_from_py : Z -> DataType -> result Scalar)
  (filling_sequence : nat -> Scalar -> Scalar -> result (list cell)) : Prop :=
  (forall dt z, fits dt z -> exists s, Scalar_from_py z dt = Ok s) /\
  (forall dt init step n s_init s_step,
     Scalar_from_py init dt = Ok s_init ->
     Scalar_from_py step dt = Ok s_step ->
     (forall k : nat, (k < n)%nat -> fits dt (init + Z.of_nat k * step)) ->
     filling_sequence n s_init s_step = Ok (sequence n init step)).

(** Example scalars: an integer with its type, any integer accepted, and
    sequences that wrap around at the width of the type. *)
Definition wrapping_from_py (z : Z) (dt : DataType) : result (Z * DataType) :=
  Ok (z, dt).
Definition wrapping_sequence (n : nat) (init step : Z * DataType) : result (list cell) :=
  Ok (cast_cell (snd init) <$> sequence n (fst init) (fst step)).

(** Strictly ascending values, none of them null. *)
Definition cell_lt (a b : cell) : Prop :=
  match a, b with
  | Some x, Some y => (x < y)%Z
  | _, _ => False
  end.

End MapFunction.

(** ** Vertical concatenation *)

Module Concatenate.
Import Columns Engine.

(** Modelled from the spec: [plc.concatenate.concatenate] on tables, the
    storage engine's "vertical ... concatenation". The tables must agree in
    their number of columns; column [j] of the result is column [j] of every
    table, one after the other. An empty list of tables is refused. *)
Definition concatenate (tables : list Table) : result Table :=
  match tables with
  | [] => Raise (ValueError "input list may not be empty")
  | t0 :: _ =>
    if forallb (fun t => Nat.eqb (length t) (length t0)) tables
    then Ok ((fun j => concat ((fun t => default [] (t !! j)) <$> tables))
               <$> seq 0 (length t0))
    else Raise (ValueError "All tables must have the same number of columns")
  end.

(** Modelled from the spec: [plc.Column.all_null_like(column, nrows)], a
    column of [nrows] nulls of the type of [column] (the "null-padding"). *)
Definition all_null_like (column : list cell) (nrows : nat) : list cell :=
  replicate nrows None.

End Concatenate.

(** ** Union *)

Module Union.
Import Columns Frames Engine Concatenate.

Section WithSlice.

(** [DataFrame.slice], a method of the frame container. *)
Variable slice : DataFrame -> option GroupBys.Zlice -> DataFrame.

(** [Union.do_evaluate]. *)
Definition do_evaluate (zlice : option GroupBys.Zlice) (dfs : list DataFrame)
  : result DataFrame :=
  t <- concatenate (table <$> dfs) ;;
  names <- match dfs with
           | df0 :: _ => Ok (column_names df0)
           | [] => Raise (IndexError "tuple index out of range")
           end ;;
  out <- MergeSorted.from_table t names ;;
  Ok (slice out zlice).

End WithSlice.

(** Example frames: two rows under the names x, y and one row under other
    names. *)
Definition frame_xy : DataFrame :=
  mkDataFrame [mkColumn [Some 1; Some 2] YES ASCENDING AFTER "x";
               mkColumn [Some 10; Some 20] NO ASCENDING BEFORE "y"].
Definition frame_uv : DataFrame :=
  mkDataFrame [mkColumn [Some 3] NO ASCENDING BEFORE "u";
               mkColumn [None] NO ASCENDING BEFORE "v"].

End Union.

(** ** HConcat *)

Module HConcat.
Import Columns Frames Engine Concatenate.

(** [HConcat._extend_with_nulls]. *)
Definition _extend_with_nulls (table : Table) (nrows : nat) : result Table :=
  concatenate [table; (fun column => all_null_like column nrows) <$> table].

(** [max(df.num_rows for df in dfs)]. *)
Definition max_num_rows (dfs : list DataFrame) : result nat :=
  match dfs with
  | [] => Raise (ValueError "max() arg is an empty sequence")
  | df :: dfs' => Ok (foldl Nat.max (Frames.num_rows df) (Frames.num_rows <$> dfs'))
  end.

(** [HConcat.do_evaluate]. *)
Definition do_evaluate (should_broadcast : bool) (dfs : list DataFrame)
  : result DataFrame :=
  if should_broadcast then
    columns <- broadcast (concat (columns <$> dfs)) None ;;
    Ok (mkDataFrame columns)
  else
    max_rows <- max_num_rows dfs ;;
    extended <- rmapM (fun df =>
                         if Nat.eqb (Frames.num_rows df) max_rows then Ok df
                         else
                           t <- _extend_with_nulls (table df) (max_rows - Frames.num_rows df) ;;
                           MergeSorted.from_table t (column_names df)) dfs ;;
    Ok (mkDataFrame (concat (columns <$> extended))).

(** The columns of a frame as they leave the node when [max_rows] is the
    largest row count: a frame of that many rows keeps its columns; for a
    shorter frame every column is built anew, by the constructor and
    without metadata, from the column's values extended with nulls. *)
Definition padded (max_rows : nat) (df : DataFrame) : list Column :=
  if Nat.eqb (Frames.num_rows df) max_rows then columns df
  else (fun c => plain_column (obj c ++ replicate (max_rows - Frames.num_rows df) None)
                   (name c)) <$> columns df.

End HConcat.

(** ** Scan: skipping rows while reading parquet in chunks *)

Module ScanChunks.
Import Columns Frames Engine.

(** Modelled from the spec: [plc.copying.slice(tbl, [lo, hi])] with one
    pair of bounds, the rows from [lo] up to [hi] of every column (the
    storage engine's "slice"). *)
Definition slice_rows (tbl : Table) (lo hi : nat) : Table :=
  (fun column => take (hi - lo) (drop lo column)) <$> tbl.

(** The local function [slice_skip] of [Scan.do_evaluate], with the
    variable [rows_left_to_skip] it updates passed in and out. *)
Definition slice_skip (tbl : Table) (rows_left_to_skip : Z) : Table * Z :=
  if (0 <? rows_left_to_skip)%Z then
    let table_rows := Z.of_nat (Engine.num_rows tbl) in
    let chunk_skip := Z.min rows_left_to_skip table_rows in
    (slice_rows tbl (Z.to_nat chunk_skip) (Z.to_nat table_rows),
     (rows_left_to_skip - chunk_skip)%Z)
  else (tbl, rows_left_to_skip).

(** [concatenated_columns[i] = concatenate([concatenated_columns[i],
    tbl._columns[i]])] for the [i] in [range(tbl.num_columns())]. *)
Definition append_columns (concatenated_columns : list (list cell)) (tbl : Table)
  : result (list (list cell)) :=
  foldl (fun acc i =>
           cols <- acc ;;
           match cols !! i, tbl !! i with
           | Some column, Some new => Ok (<[i := column ++ new]> cols)
           | _, _ => Raise (IndexError "list index out of range")
           end)
        (Ok concatenated_columns) (seq 0 (length tbl)).

(** The loop [while reader.has_next()], over the chunks still to come. *)
Fixpoint read_remaining (concatenated_columns : list (list cell)) (chunks : list Table)
  (rows_left_to_skip : Z) : result (list (list cell)) :=
  match chunks with
  | [] => Ok concatenated_columns
  | chunk :: chunks' =>
    let '(tbl, rows_left_to_skip) := slice_skip chunk rows_left_to_skip in
    concatenated_columns <- append_columns concatenated_columns tbl ;;
    read_remaining concatenated_columns chunks' rows_left_to_skip
  end.

(** The chunked branch of the parquet reader in [Scan.do_evaluate], from the
    first chunk to the table of concatenated columns; the reader delivers
    [first_chunk] and then [chunks]. *)
Definition read_chunked (first_chunk : Table) (chunks : list Table) (skip_rows : Z)
  : result Table :=
  let rows_left_to_skip := skip_rows in
  let '(tbl, rows_left_to_skip) := slice_skip first_chunk rows_left_to_skip in
  let concatenated_columns := tbl in
  read_remaining concatenated_columns chunks rows_left_to_skip.

(** A table whose columns share one length. *)
Definition table_rectangular (t : Table) : Prop :=
  Forall (fun column => length column = Engine.num_rows t) t.

(** Column [j] of every chunk, one after the other. *)
Definition whole_column (chunks : list Table) (j : nat) : list cell :=
  concat ((fun t => default [] (t !! j)) <$> chunks).

End ScanChunks.

(** ** Decomposition of grouped aggregations: the shape of the requests *)

Module AggregationShapes.
Import Columns Frames Exprs.

(** [has_aggregation e]: some node of [e] is an aggregation or a row
    count. *)
Fixpoint has_aggregation (e : Expr) : bool :=
  let any :=
    fix any (cs : list Expr) : bool :=
      match cs with
      | [] => false
      | c :: cs' => has_aggregation c || any cs'
      end in
  match e with
  | Col _ _ | Literal _ _ | LiteralColumn _ _ => false
  | Len _ | Agg _ _ _ _ => true
  | Ternary _ cs | UnaryFunction _ _ _ cs | Cast _ cs | Other _ _ _ cs => any cs
  end.

(** What the grouping primitive can be asked for: a row count, an
    aggregation of an expression free of aggregations, or an expression
    free of aggregations (to be evaluated before grouping). *)
Definition is_request (e : Expr) : bool :=
  match e with
  | Len _ => true
  | Agg _ _ _ (child :: _) => negb (has_aggregation child)
  | Agg _ _ _ [] => false
  | _ => negb (has_aggregation e)
  end.

(** What one call of [decompose_single_agg] on [name], [agg] with the name
    generator at [gen] guarantees about its result: the flag tells whether
    [agg] has an aggregation, the post-aggregation expression keeps the
    name, the generator has only moved forward, and every request is one
    the grouping primitive can be asked for, named [name] or by a name
    drawn during the call. *)
Definition well_decomposed (fresh : nat -> string) (name : string) (agg : Expr)
  (gen : nat) (r : Aggregations.Decomposed * nat) : Prop :=
  snd (fst r) = has_aggregation agg /\
  ne_name (snd (fst (fst r))) = name /\
  (gen <= snd r)%nat /\
  Forall (fun a => is_request (value a) = true /\
                   (ne_name a = name \/
                    exists i, (gen <= i < snd r)%nat /\ ne_name a = fresh i))
         (fst (fst (fst r))).

(** Example: the mean of [a] over the sum of [b], and the sum of a sum. *)
Definition mean_a : Expr := Agg INT64 "mean" JNull [Col INT64 "a"].
Definition mean_over_sum : Expr :=
  Other "BinOp" INT64 true [mean_a; Aggregations.sum_b].
Definition sum_of_sum : Expr := Agg INT64 "sum" JNull [Aggregations.sum_b].

End AggregationShapes.

(** ** Scan: the configurations the constructor accepts *)

Module ScanAccepts.
Import Columns Frames Exprs Sources.

(** Cloud options that ask for no cloud storage: [None], or a dictionary in
    which none of the keys aws, azure, gcp has a value other than [None]. *)
Definition cloud_free (cloud_options : json) : Prop :=
  cloud_options = JNull \/
  exists items, cloud_options = JDict items /\
    Forall (fun k => default JNull (assoc_lookup k items) = JNull)
           ["aws"; "azure"; "gcp"].

(** No path is read over https. *)
Definition local_paths (paths : list string) : Prop :=
  Forall (fun p => String.prefix "https:/" p = false) paths.

(** A parquet scan that is to produce a row index from the metadata
    alone: a row index is asked for and the list of columns is empty. *)
Definition metadata_only (row_index : option (string * Z))
  (with_columns : option (list string)) : Prop :=
  is_Some row_index /\ with_columns = Some [].

End ScanAccepts.

(** ** Scan: reading several CSV files under one row limit *)

Module ScanCsv.
Import Columns Frames Engine Concatenate.

(** The variables the loop over the paths updates. *)
Record LoopState : Type := mkLoopState {
  pieces : list (Table * list string);
  seen_paths : list string;
  n_rows : Z;
  column_names : option (list string)
}.

Section WithReader.

(** The collaborators of the CSV branch of [Scan.do_evaluate]:
    [read_csv path nrows skiprows names] is what [plc.io.csv.read_csv]
    returns (the table and its column names) for the one file [path] under
    the options built in the loop, of which only the row limit [nrows]
    (-1 for no limit), the rows to skip and the column names ([None]: taken
    from the file) change from file to file; [blank_lines path] is the
    number of empty lines at the start of the file, and [read_csv_header]
    the local function of that name. *)
Variable read_csv : string -> Z -> Z -> option (list string) -> Table * list string.
Variable blank_lines : string -> Z.
Variable read_csv_header : string -> list string.

(** [POLARS_VERSION_LT_128], the [skip_rows] entry of the reader options,
    and the node's [skip_rows] and [include_file_paths]. *)
Variable POLARS_VERSION_LT_128 : bool.
Variable reader_skip_rows : Z.
Variable skip_rows : Z.
Variable include_file_paths : option string.

(** The loop [for p in paths], with its [break]. *)
Fixpoint read_paths (read_partial : bool) (paths : list string) (st : LoopState)
  : LoopState :=
  match paths with
  | [] => st
  | p :: paths' =>
    let header := 0 in
    let skiprows := reader_skip_rows + blank_lines p in
    let skiprows := if POLARS_VERSION_LT_128 then skiprows else skiprows + skip_rows in
    let column_names :=
      match column_names st with
      | Some names => Some names
      | None =>
        if negb POLARS_VERSION_LT_128 && Z.ltb header skip_rows
        then Some (read_csv_header p) else None
      end in
    let tbl_w_meta := read_csv p (n_rows st) skiprows column_names in
    let pieces := pieces st ++ [tbl_w_meta] in
    let seen_paths :=
      match include_file_paths with
      | Some _ => seen_paths st ++ [p]
      | None => seen_paths st
      end in
    if read_partial then
      let n_rows := n_rows st - Z.of_nat (num_rows (fst tbl_w_meta)) in
      if Z.leb n_rows 0
      then mkLoopState pieces seen_paths n_rows column_names
      else read_paths read_partial paths'
             (mkLoopState pieces seen_paths n_rows column_names)
    else read_paths read_partial paths'
           (mkLoopState pieces seen_paths (n_rows st) column_names)
  end.

(** The CSV branch of [Scan.do_evaluate] from the loop to the frame of the
    concatenated pieces, together with the two lists that
    [Scan.add_file_paths] is then called with: the paths seen and the rows
    read from each table. [column_names] are the names the reader schema
    provides, if any. *)
Definition read_csv_files (column_names : option (list string)) (paths : list string)
  (n_rows : Z) : result (DataFrame * list string * list nat) :=
  let read_partial := negb (Z.eqb n_rows (-1)) in
  let st := read_paths read_partial paths (mkLoopState [] [] n_rows column_names) in
  match pieces st with
  | [] => Raise (ValueError "not enough values to unpack (expected 2, got 0)")
  | (_, colnames0) :: _ =>
    let tables := fst <$> pieces st in
    t <- concatenate tables ;;
    df <- MergeSorted.from_table t colnames0 ;;
    Ok (df, seen_paths st, num_rows <$> tables)
  end.

End WithReader.

(** A reader that honours the row limit: told to read at most [nrows >= 0]
    rows, it returns a table of at most that many rows. *)
Definition honours_row_limit
  (read_csv : string -> Z -> Z -> option (list string) -> Table * list string) : Prop :=
  forall path nrows skiprows names,
    0 <= nrows ->
    Z.of_nat (num_rows (fst (read_csv path nrows skiprows names))) <= nrows.

(** Example: every file holds the one column 1, 2, 3 under the name a. *)
Definition three_rows (path : string) (nrows skiprows : Z)
  (names : option (list string)) : Table * list string :=
  ([take (if Z.ltb nrows 0 then 3%nat else Z.to_nat nrows) [Some 1; Some 2; Some 3]],
   ["a"]).

End ScanCsv.
(** * Part II: theorems *)

(** ** Facts about [broadcast] *)

Module BroadcastFacts.
Import Columns.

Lemma broadcast_column_rel nrows c :
  exists o, broadcast_column nrows c = Ok o /\ broadcast_rel nrows c o.
Proof.
  unfold broadcast_column, broadcast_rel, obj_scalar, size, from_scalar.
  destruct (decide (length (obj c) = 1%nat)) as [H1|H1].
  - destruct (obj c) as [|v [|w l]] eqn:E; simpl in H1; try lia.
    eexists; split; [reflexivity|]. right. eauto.
  - eexists; split; [reflexivity|]. left. auto.
Qed.

Lemma rmapM_broadcast_column nrows columns :
  exists out, rmapM (broadcast_column nrows) columns = Ok out /\
              Forall2 (broadcast_rel nrows) columns out.
Proof.
  induction columns as [|c cs (out & Hout & Hrel)]; simpl.
  - exists []. split; [reflexivity | constructor].
  - destruct (broadcast_column_rel nrows c) as (o & Ho & Hr).
    rewrite Ho, Hout. simpl. exists (o :: out). split; [reflexivity|].
    constructor; assumption.
Qed.

Lemma broadcast_rel_size nrows c o :
  broadcast_rel nrows c o -> size c = 1%nat \/ size c = nrows -> size o = nrows.
Proof.
  intros [[Hne ->]|(v & Hv & ->)] Hs.
  - destruct Hs; [contradiction | assumption].
  - unfold size. simpl. apply length_replicate.
Qed.

Lemma lengths_all_one (columns : list Column) :
  columns <> [] ->
  (list_to_set (size <$> columns) : gset nat) = {[ 1%nat ]} <->
  Forall (fun c => size c = 1%nat) columns.
Proof.
  intros Hne. split.
  - intros Hset. apply Forall_forall. intros c Hc.
    assert (Hin : size c ∈ (list_to_set (size <$> columns) : gset nat)).
    { apply elem_of_list_to_set, list_elem_of_fmap. eauto. }
    rewrite Hset in Hin. set_solver.
  - intros Hall. apply set_eq. intros n.
    rewrite elem_of_list_to_set, list_elem_of_fmap, elem_of_singleton.
    split.
    + intros (c & -> & Hc). rewrite Forall_forall in Hall. auto.
    + intros ->. destruct columns as [|c cs]; [congruence|].
      exists c. split; [|left]. symmetry. by inversion Hall.
Qed.

Lemma lengths_one_other (columns : list Column) (n : nat) :
  n <> 1%nat ->
  Forall (fun c => size c = 1%nat \/ size c = n) columns ->
  Exists (fun c => size c = n) columns ->
  elements ((list_to_set (size <$> columns) : gset nat) ∖ {[ 1%nat ]}) = [n].
Proof.
  intros Hn Hall Hex.
  assert (Heq : (list_to_set (size <$> columns) : gset nat) ∖ {[ 1%nat ]} = {[ n ]}).
  { apply set_eq. intros m.
    rewrite elem_of_difference, elem_of_list_to_set, list_elem_of_fmap,
      !elem_of_singleton.
    split.
    - intros [(c & -> & Hc) Hm1]. rewrite Forall_forall in Hall.
      destruct (Hall c Hc); [contradiction | assumption].
    - intros ->. split; [|assumption].
      apply Exists_exists in Hex as (c & Hc & Hsz). eauto. }
  rewrite Heq. apply elements_singleton.
Qed.

Lemma lengths_two_others (columns : list Column) (c1 c2 : Column) :
  c1 ∈ columns -> c2 ∈ columns ->
  size c1 <> 1%nat -> size c2 <> 1%nat -> size c1 <> size c2 ->
  forall n, elements ((list_to_set (size <$> columns) : gset nat) ∖ {[ 1%nat ]}) <> [n].
Proof.
  intros H1 H2 Hn1 Hn2 Hne n Hel.
  assert (Hin : forall c, c ∈ columns -> size c <> 1%nat -> size c = n).
  { intros c Hc Hs.
    assert (Hm : size c ∈ elements ((list_to_set (size <$> columns) : gset nat) ∖ {[ 1%nat ]})).
    { apply elem_of_elements, elem_of_difference. split.
      - apply elem_of_list_to_set, list_elem_of_fmap. eauto.
      - rewrite elem_of_singleton. assumption. }
    rewrite Hel in Hm. by apply list_elem_of_singleton in Hm. }
  apply Hne. rewrite (Hin c1), (Hin c2); auto.
Qed.

Lemma broadcast_nonunit (columns : list Column) (target_length : option nat) (n : nat) :
  columns <> [] -> n <> 1%nat ->
  Forall (fun c => size c = 1%nat \/ size c = n) columns ->
  Exists (fun c => size c = n) columns ->
  broadcast columns target_length =
    match target_length with
    | Some t => if decide (n = t) then rmapM (broadcast_column n) columns
                else Raise (RuntimeError (mismatch_msg n t))
    | None => rmapM (broadcast_column n) columns
    end.
Proof.
  intros Hne Hn Hall Hex. unfold broadcast.
  destruct columns as [|c cs]; [congruence|].
  destruct (decide _) as [Hone|Hone].
  - apply lengths_all_one in Hone; [|assumption].
    apply Exists_exists in Hex as (c' & Hc' & Hsz).
    rewrite Forall_forall in Hone.
    specialize (Hone c' Hc'). congruence.
  - rewrite (lengths_one_other (c :: cs) n Hn Hall Hex). reflexivity.
Qed.

Lemma Forall2_broadcast_rel_sizes nrows columns out :
  Forall2 (broadcast_rel nrows) columns out ->
  Forall (fun c => size c = 1%nat \/ size c = nrows) columns ->
  Forall (fun c => size c = nrows) out.
Proof.
  induction 1 as [|c o cs os Hr _ IH]; intros Hall; constructor.
  - inversion Hall; subst. eapply broadcast_rel_size; eauto.
  - inversion Hall; subst. auto.
Qed.

(** C4. For a non-empty list of columns: when every length is 1 or [n]
    ([n <> 1] occurring) and the target is absent or [n], [broadcast] returns
    columns all of length [n]; when every length is 1 it returns the inputs
    unchanged without a target and columns all of the target length with
    one; it raises [RuntimeError] when two distinct lengths both differ
    from 1, and when a target is given that differs from the non-unit
    length [n]. *)
Theorem broadcast_spec (columns : list Column) (target_length : option nat) :
  columns <> [] ->
  (forall n, n <> 1%nat ->
     Forall (fun c => size c = 1%nat \/ size c = n) columns ->
     Exists (fun c => size c = n) columns ->
     target_length = None \/ target_length = Some n ->
     exists out, broadcast columns target_length = Ok out /\
                 length out = length columns /\
                 Forall (fun c => size c = n) out) /\
  (Forall (fun c => size c = 1%nat) columns -> target_length = None ->
     broadcast columns target_length = Ok columns) /\
  (forall t, Forall (fun c => size c = 1%nat) columns -> target_length = Some t ->
     exists out, broadcast columns target_length = Ok out /\
                 length out = length columns /\
                 Forall (fun c => size c = t) out) /\
  (forall c1 c2, c1 ∈ columns -> c2 ∈ columns ->
     size c1 <> 1%nat -> size c2 <> 1%nat -> size c1 <> size c2 ->
     broadcast columns target_length = Raise (RuntimeError "Mismatching column lengths")) /\
  (forall n t, n <> 1%nat ->
     Forall (fun c => size c = 1%nat \/ size c = n) columns ->
     Exists (fun c => size c = n) columns ->
     target_length = Some t -> t <> n ->
     broadcast columns target_length = Raise (RuntimeError (mismatch_msg n t))).
Proof.
  intros Hne. repeat split.
  - intros n Hn Hall Hex Ht.
    rewrite (broadcast_nonunit columns target_length n Hne Hn Hall Hex).
    destruct (rmapM_broadcast_column n columns) as (out & Hout & Hrel).
    exists out. repeat split.
    + destruct Ht as [-> | ->]; [assumption|].
      destruct (decide (n = n)); [assumption | congruence].
    + symmetry. eapply Forall2_length; eassumption.
    + eapply Forall2_broadcast_rel_sizes; eassumption.
  - intros Hall ->. unfold broadcast.
    destruct columns as [|c cs]; [congruence|].
    apply lengths_all_one in Hall; [|assumption].
    destruct (decide _); [reflexivity | contradiction].
  - intros t Hall ->. unfold broadcast.
    destruct columns as [|c cs]; [congruence|].
    pose proof (proj2 (lengths_all_one (c :: cs) Hne) Hall) as Hset.
    destruct (decide _); [|contradiction].
    destruct (rmapM_broadcast_column t (c :: cs)) as (out & Hout & Hrel).
    exists out. repeat split; [assumption | |].
    + symmetry. eapply Forall2_length; eassumption.
    + eapply Forall2_broadcast_rel_sizes; [eassumption|].
      eapply Forall_impl; [exact Hall|]. simpl. auto.
  - intros c1 c2 H1 H2 Hs1 Hs2 Hdiff. unfold broadcast.
    destruct columns as [|c cs]; [congruence|].
    destruct (decide _) as [Hone|Hone].
    + apply lengths_all_one in Hone; [|assumption].
      rewrite Forall_forall in Hone.
      specialize (Hone c1 H1). contradiction.
    + pose proof (lengths_two_others (c :: cs) c1 c2 H1 H2 Hs1 Hs2 Hdiff) as Hel.
      destruct (elements _) as [|a [|b l]]; try reflexivity.
      exfalso. by apply (Hel a).
  - intros n t Hn Hall Hex -> Hdiff.
    rewrite (broadcast_nonunit columns (Some t) n Hne Hn Hall Hex).
    destruct (decide (n = t)); [congruence | reflexivity].
Qed.

Lemma broadcast_spec_witness :
  exists out, broadcast [col_scalar; col_three] None = Ok out /\
              length out = 2%nat /\
              Forall (fun c => size c = 3%nat) out.
Proof.
  assert (Hne : [col_scalar; col_three] <> []) by discriminate.
  destruct (broadcast_spec [col_scalar; col_three] None Hne) as (Ha & _).
  apply (Ha 3%nat).
  - lia.
  - constructor; [left; reflexivity|].
    constructor; [right; reflexivity|]. constructor.
  - apply Exists_cons_tl, Exists_cons_hd. reflexivity.
  - left. reflexivity.
Defined.

Lemma replicate_ascending (v : cell) (n : nat) :
  ascending_nulls_before (replicate n v).
Proof.
  unfold ascending_nulls_before.
  induction n as [|n IH]; simpl; constructor; [assumption|].
  apply Forall_forall. intros x Hx.
  apply elem_of_replicate in Hx as [-> _].
  destruct v; simpl; [lia | exact I].
Qed.

(** C10. In the columns [broadcast] returns, every input column whose
    length is not 1 comes back as the same column, metadata included; every
    length-1 column that comes back with more than one row holds that many
    copies of its single value, carries the tags is_sorted=YES,
    order=ASCENDING, null_order=BEFORE and its own name, and its values are
    indeed ascending with nulls first. *)
Theorem broadcast_metadata (columns out : list Column) (target_length : option nat) :
  broadcast columns target_length = Ok out ->
  length out = length columns /\
  forall (i : nat) (c o : Column),
    columns !! i = Some c -> out !! i = Some o ->
    (size c <> 1%nat -> o = c) /\
    (size c = 1%nat -> (1 < size o)%nat ->
       exists v, obj c = [v] /\ obj o = replicate (size o) v /\
                 is_sorted o = YES /\ order o = ASCENDING /\
                 null_order o = BEFORE /\ name o = name c /\
                 ascending_nulls_before (obj o)).
Proof.
  intros Hb.
  assert (Hcases : out = columns \/
                   exists nrows, Forall2 (broadcast_rel nrows) columns out).
  { unfold broadcast in Hb. destruct columns as [|c cs].
    - left. congruence.
    - destruct (decide _).
      + destruct target_length as [t|].
        * right. exists t.
          destruct (rmapM_broadcast_column t (c :: cs)) as (o & Ho & Hr).
          congruence.
        * left. congruence.
      + destruct (elements _) as [|k [|m l]]; try discriminate.
        right. exists k.
        destruct (rmapM_broadcast_column k (c :: cs)) as (o & Ho & Hr).
        destruct target_length as [t|].
        * destruct (decide (k = t)); [congruence | discriminate].
        * congruence. }
  destruct Hcases as [-> | (nrows & Hrel)].
  - split; [reflexivity|]. intros i c o Hc Ho.
    assert (o = c) as -> by congruence.
    split; [reflexivity|]. intros H1 Hlt. lia.
  - split; [symmetry; eapply Forall2_length; eassumption|].
    intros i c o Hc Ho.
    pose proof (Forall2_lookup_lr _ _ _ _ _ _ Hrel Hc Ho) as [[Hs ->]|(v & Hv & ->)].
    + split; [reflexivity | intros; contradiction].
    + split.
      * intros Hs. exfalso. apply Hs. unfold size. by rewrite Hv.
      * intros _ _. exists v. unfold size. simpl.
        rewrite length_replicate. repeat split; try reflexivity; try assumption.
        apply replicate_ascending.
Qed.

Lemma broadcast_metadata_witness :
  exists v, obj col_scalar = [v] /\ obj col_scalar_x3 = replicate 3 v.
Proof.
  assert (Hb : broadcast [col_scalar; col_three] None =
               Ok [col_scalar_x3; col_three]) by (vm_compute; reflexivity).
  destruct (broadcast_metadata _ _ _ Hb) as (_ & Hcols).
  destruct (Hcols 0%nat col_scalar col_scalar_x3 eq_refl eq_refl) as (_ & Hexp).
  assert (H1 : size col_scalar = 1%nat) by reflexivity.
  assert (H3 : (1 < size col_scalar_x3)%nat) by (vm_compute; lia).
  destruct (Hexp H1 H3) as (v & Hv & Ho & _).
  exists v. split; assumption.
Defined.

End BroadcastFacts.

(** ** Facts about the storage engine's primitives *)

Module EngineFacts.
Import Columns Engine.

Section StableSortFacts.
Context {A : Type} (leb : A -> A -> bool).

Lemma insert_sorted_Permutation (x : A) (l : list A) :
  Permutation (insert_sorted leb x l) (x :: l).
Proof.
  induction l as [|y l IH]; simpl; [reflexivity|].
  destruct (leb x y); [reflexivity|].
  rewrite IH. apply perm_swap.
Qed.

Lemma stable_sort_Permutation (l : list A) : Permutation (stable_sort leb l) l.
Proof.
  induction l as [|x l IH]; simpl; [reflexivity|].
  rewrite insert_sorted_Permutation. by constructor.
Qed.

Lemma stable_sort_length (l : list A) : length (stable_sort leb l) = length l.
Proof. apply Permutation_length, stable_sort_Permutation. Qed.

(** Sortedness, for a comparison that is total and transitive on a domain
    that holds the elements of the list. *)
Variable dom : A -> Prop.
Hypothesis leb_total : forall x y, leb x y = true \/ leb y x = true.
Hypothesis leb_trans :
  forall x y z, dom x -> dom y -> dom z ->
    leb x y = true -> leb y z = true -> leb x z = true.

Lemma insert_sorted_StronglySorted (x : A) (l : list A) :
  dom x -> Forall dom l ->
  StronglySorted (fun a b => leb a b = true) l ->
  StronglySorted (fun a b => leb a b = true) (insert_sorted leb x l).
Proof.
  intros Hx Hdom Hs. induction Hs as [|y l Hs IH Hy]; simpl.
  - repeat constructor.
  - inversion Hdom as [|? ? Hdy Hdl]; subst.
    destruct (leb x y) eqn:E.
    + constructor; [by constructor|].
      constructor; [assumption|].
      rewrite Forall_forall in Hy, Hdl. apply Forall_forall. intros z Hz.
      apply (leb_trans x y z); auto.
    + constructor; [by apply IH|].
      assert (Hyx : leb y x = true) by (destruct (leb_total x y); congruence).
      rewrite (insert_sorted_Permutation x l). by constructor.
Qed.

Lemma stable_sort_StronglySorted (l : list A) :
  Forall dom l -> StronglySorted (fun a b => leb a b = true) (stable_sort leb l).
Proof.
  induction 1 as [|x l Hx Hl IH]; simpl; [constructor|].
  apply insert_sorted_StronglySorted; [assumption | | assumption].
  by rewrite stable_sort_Permutation.
Qed.

(** Stability: the elements that compare equal to [k] keep their order. *)
Lemma insert_sorted_filter (k x : A) (l : list A) :
  dom k -> dom x -> Forall dom l ->
  List.filter (same_key leb k) (insert_sorted leb x l) =
  List.filter (same_key leb k) (x :: l).
Proof.
  intros Hk Hx Hl. induction Hl as [|y l Hy Hl IH]; [reflexivity|].
  cbn [insert_sorted]. destruct (leb x y) eqn:E; [reflexivity|].
  cbn [List.filter] in *. rewrite IH.
  destruct (same_key leb k x) eqn:Ekx; [|reflexivity].
  destruct (same_key leb k y) eqn:Eky; [|reflexivity].
  exfalso. unfold same_key in *.
  apply andb_prop in Ekx as [Hkx Hxk]. apply andb_prop in Eky as [Hky Hyk].
  rewrite (leb_trans x k y) in E; auto. discriminate.
Qed.

Lemma stable_sort_stable (k : A) (l : list A) :
  dom k -> Forall dom l ->
  List.filter (same_key leb k) (stable_sort leb l) = List.filter (same_key leb k) l.
Proof.
  intros Hk. induction 1 as [|x l Hx Hl IH]; [reflexivity|].
  cbn [stable_sort]. rewrite insert_sorted_filter; auto.
  - cbn [List.filter]. by rewrite IH.
  - by rewrite stable_sort_Permutation.
Qed.

End StableSortFacts.

(** The comparison of key rows. *)
Lemma compare_ascending_Eq no a b : compare_ascending no a b = Eq <-> a = b.
Proof.
  destruct a as [x|], b as [y|], no; simpl; split; intros H;
    try discriminate; try reflexivity.
  all: try (apply Z.compare_eq in H; by subst).
  all: injection H as ->; apply Z.compare_refl.
Qed.

Lemma compare_ascending_antisym no a b :
  compare_ascending no b a = CompOpp (compare_ascending no a b).
Proof.
  destruct a as [x|], b as [y|], no; simpl; try reflexivity.
  all: apply Z.compare_antisym.
Qed.

Lemma compare_ascending_trans no a b c :
  compare_ascending no a b = Lt -> compare_ascending no b c = Lt ->
  compare_ascending no a c = Lt.
Proof.
  destruct a as [x|], b as [y|], c as [z|], no; simpl; try discriminate; auto.
  all: rewrite !Z.compare_lt_iff; lia.
Qed.

Lemma compare_cell_Eq spec a b : compare_cell spec a b = Eq <-> a = b.
Proof.
  unfold compare_cell. destruct (fst spec); rewrite compare_ascending_Eq; naive_solver.
Qed.

Lemma compare_cell_antisym spec a b :
  compare_cell spec b a = CompOpp (compare_cell spec a b).
Proof. unfold compare_cell. destruct (fst spec); apply compare_ascending_antisym. Qed.

Lemma compare_cell_trans spec a b c :
  compare_cell spec a b = Lt -> compare_cell spec b c = Lt ->
  compare_cell spec a c = Lt.
Proof.
  unfold compare_cell. destruct (fst spec).
  - apply compare_ascending_trans.
  - intros H1 H2. eapply compare_ascending_trans; eauto.
Qed.

Lemma compare_rows_antisym specs r1 r2 :
  compare_rows specs r2 r1 = CompOpp (compare_rows specs r1 r2).
Proof.
  revert r1 r2. induction specs as [|s specs IH]; intros [|a r1] [|b r2];
    simpl; try reflexivity.
  rewrite (compare_cell_antisym s a b).
  destruct (compare_cell s a b); simpl; auto.
Qed.

Lemma rows_leb_total specs r1 r2 :
  rows_leb specs r1 r2 = true \/ rows_leb specs r2 r1 = true.
Proof.
  unfold rows_leb. rewrite (compare_rows_antisym specs r1 r2).
  destruct (compare_rows specs r1 r2); simpl; auto.
Qed.

(** Transitivity, for rows as wide as the list of key columns. *)
Lemma rows_leb_trans specs r1 r2 r3 :
  length r1 = length specs -> length r2 = length specs -> length r3 = length specs ->
  rows_leb specs r1 r2 = true -> rows_leb specs r2 r3 = true ->
  rows_leb specs r1 r3 = true.
Proof.
  unfold rows_leb. revert r1 r2 r3.
  induction specs as [|s specs IH]; intros [|a r1] [|b r2] [|c r3];
    simpl; try discriminate; auto.
  intros L1 L2 L3 H12 H23.
  injection L1 as L1. injection L2 as L2. injection L3 as L3.
  destruct (compare_cell s a b) eqn:Eab.
  - apply compare_cell_Eq in Eab as ->.
    destruct (compare_cell s b c) eqn:Ebc;
      [exact (IH r1 r2 r3 L1 L2 L3 H12 H23) | reflexivity | discriminate].
  - destruct (compare_cell s b c) eqn:Ebc; try discriminate.
    + apply compare_cell_Eq in Ebc as <-. by rewrite Eab.
    + by rewrite (compare_cell_trans s a b c Eab Ebc).
  - discriminate.
Qed.

Lemma insert_sorted_fmap {A B} (f : A -> B) (leb : B -> B -> bool) (x : A) (l : list A) :
  insert_sorted leb (f x) (f <$> l) =
  f <$> insert_sorted (fun a b => leb (f a) (f b)) x l.
Proof.
  induction l as [|y l IH]; [reflexivity|].
  rewrite fmap_cons. cbn [insert_sorted]. destruct (leb (f x) (f y)).
  - reflexivity.
  - rewrite IH. reflexivity.
Qed.

Lemma stable_sort_fmap {A B} (f : A -> B) (leb : B -> B -> bool) (l : list A) :
  stable_sort leb (f <$> l) = f <$> stable_sort (fun a b => leb (f a) (f b)) l.
Proof.
  induction l as [|x l IH]; [reflexivity|].
  rewrite fmap_cons. cbn [stable_sort]. rewrite IH. apply insert_sorted_fmap.
Qed.

Lemma StronglySorted_lookup_lt {A} (R : A -> A -> Prop) (l : list A) (p q : nat) (x y : A) :
  StronglySorted R l -> (p < q)%nat ->
  l !! p = Some x -> l !! q = Some y -> R x y.
Proof.
  intros Hs. revert p q. induction Hs as [|z l Hs IH Hz]; intros p q Hpq Hp Hq.
  - by rewrite lookup_nil in Hp.
  - destruct q as [|q]; [lia|]. destruct p as [|p]; simpl in *.
    + injection Hp as ->. rewrite Forall_forall in Hz. apply Hz.
      by eapply list_elem_of_lookup_2.
    + apply (IH p q); [lia | assumption..].
Qed.

(** The rows of a table of two columns of one length. *)
Lemma rows_two_columns (a b : list cell) :
  length a = length b ->
  rows [a; b] = (fun p => [fst p; snd p]) <$> zip a b.
Proof.
  intros Hlen. unfold rows, row. cbn [num_rows].
  apply list_eq. intros i. rewrite !list_lookup_fmap, lookup_zip_with.
  destruct (decide (i < length a)%nat) as [Hi|Hi].
  - rewrite lookup_seq_lt by assumption.
    destruct (lookup_lt_is_Some_2 a i Hi) as [x Hx].
    destruct (lookup_lt_is_Some_2 b i ltac:(lia)) as [y Hy].
    rewrite Hx, Hy. cbn. rewrite Hx, Hy. reflexivity.
  - rewrite lookup_seq_ge by lia.
    rewrite (lookup_ge_None_2 a i) by lia. reflexivity.
Qed.

Lemma columns_of_two (rs : list (list cell)) :
  columns_of 2 rs =
  [(fun r => default None (r !! 0%nat)) <$> rs;
   (fun r => default None (r !! 1%nat)) <$> rs].
Proof. reflexivity. Qed.

(** Gathering. *)
Lemma sequence_length n init step : length (sequence n init step) = n.
Proof. unfold sequence. by rewrite length_fmap, length_seq. Qed.

Lemma sequence_lookup (n k : nat) :
  (k < n)%nat -> sequence n 0 1 !! k = Some (Some (Z.of_nat k)).
Proof.
  intros Hk. unfold sequence. rewrite list_lookup_fmap, lookup_seq_lt by assumption.
  simpl. do 2 f_equal. lia.
Qed.

Lemma rmapM_Ok {A B} (f : A -> result B) (g : A -> B) (l : list A) :
  Forall (fun a => f a = Ok (g a)) l -> rmapM f l = Ok (g <$> l).
Proof.
  induction 1 as [|a l Ha _ IH]; [reflexivity|].
  simpl. rewrite Ha, IH. reflexivity.
Qed.

Lemma gather_Ok (t : Table) (gather_map : list cell) (policy : OutOfBoundsPolicy)
  (pick : list cell -> Z -> cell) :
  Forall (fun c => exists i, c = Some i /\
            Forall (fun col => gather_cell col policy i = Ok (pick col i)) t) gather_map ->
  gather t gather_map policy =
  Ok ((fun col => (fun c => pick col (default 0 c)) <$> gather_map) <$> t).
Proof.
  intros Hall. unfold gather.
  rewrite (rmapM_Ok map_index (default 0)).
  - cbn [rbind]. apply rmapM_Ok. apply Forall_forall. intros col Hcol.
    rewrite (rmapM_Ok (gather_cell col policy) (pick col)).
    + by rewrite <- list_fmap_compose.
    + apply Forall_fmap. eapply Forall_impl; [exact Hall|].
      intros c (i & -> & Hi). simpl. rewrite Forall_forall in Hi. by apply Hi.
  - eapply Forall_impl; [exact Hall|]. intros c (i & -> & _). reflexivity.
Qed.

Lemma gather_cell_in_bounds col policy i :
  (0 <= i < Z.of_nat (length col))%Z ->
  gather_cell col policy i = Ok (default None (col !! Z.to_nat i)).
Proof.
  intros Hi. unfold gather_cell.
  replace ((0 <=? i) && (i <? Z.of_nat (length col)))%Z with true; [reflexivity|].
  symmetry. apply andb_true_intro. split; [apply Z.leb_le | apply Z.ltb_lt]; lia.
Qed.

Lemma gather_cell_nullify col i :
  exists v, gather_cell col NULLIFY i = Ok v.
Proof.
  unfold gather_cell. destruct (_ && _); [eauto|]. destruct (_ && _); eauto.
Qed.

(** Rows and columns. *)
Lemma rows_length (t : Table) : length (rows t) = num_rows t.
Proof. unfold rows. by rewrite length_fmap, length_seq. Qed.

Lemma rows_lookup (t : Table) (i : nat) :
  (i < num_rows t)%nat -> rows t !! i = Some (row t i).
Proof.
  intros Hi. unfold rows. by rewrite list_lookup_fmap, lookup_seq_lt.
Qed.

Lemma row_length (t : Table) (i : nat) : length (row t i) = length t.
Proof. unfold row. apply length_fmap. Qed.

Lemma rows_Forall_width (t : Table) : Forall (fun r => length r = length t) (rows t).
Proof.
  unfold rows. apply Forall_fmap, Forall_forall. intros i _. apply row_length.
Qed.

Lemma row_of_lookups (r : list cell) :
  (fun j => default None (r !! j)) <$> seq 0 (length r) = r.
Proof.
  apply list_eq. intros i. rewrite list_lookup_fmap.
  destruct (decide (i < length r)%nat) as [Hi|Hi].
  - rewrite lookup_seq_lt by assumption. simpl.
    destruct (lookup_lt_is_Some_2 r i Hi) as [x Hx]. by rewrite Hx.
  - rewrite lookup_seq_ge by lia. by rewrite lookup_ge_None_2 by lia.
Qed.

Lemma rows_columns_of (w : nat) (rs : list (list cell)) :
  (0 < w)%nat -> Forall (fun r => length r = w) rs ->
  rows (columns_of w rs) = rs.
Proof.
  intros Hw Hrs.
  assert (Hn : num_rows (columns_of w rs) = length rs).
  { unfold columns_of. destruct w as [|w]; [lia|]. simpl. by rewrite length_fmap. }
  apply list_eq. intros i.
  destruct (decide (i < length rs)%nat) as [Hi|Hi].
  - rewrite rows_lookup by lia.
    destruct (lookup_lt_is_Some_2 rs i Hi) as [r Hr]. rewrite Hr. f_equal.
    assert (Hlen : length r = w).
    { rewrite Forall_forall in Hrs. apply Hrs. by eapply list_elem_of_lookup_2. }
    etrans; [|apply (row_of_lookups r)]. rewrite Hlen.
    unfold row, columns_of. rewrite <- list_fmap_compose.
    apply list_fmap_ext. intros _ j _. simpl.
    by rewrite list_lookup_fmap, Hr.
  - rewrite (lookup_ge_None_2 rs) by lia.
    apply lookup_ge_None_2. rewrite rows_length. lia.
Qed.

Lemma columns_of_length (w : nat) (rs : list (list cell)) :
  length (columns_of w rs) = w.
Proof. unfold columns_of. by rewrite length_fmap, length_seq. Qed.

End EngineFacts.

(** ** Facts about the CSE cache *)

Module CacheFacts.
Import Columns Frames CSE.

Lemma evaluate_Node kind f cs s :
  evaluate (Node kind f cs) s =
  match evaluate_children cs s with
  | (Raise e, s1) => (Raise e, s1)
  | (Ok dfs, s1) =>
    match f dfs with
    | Raise e => (Raise e, s1)
    | Ok df => (Ok df, log (Stored kind) s1)
    end
  end.
Proof. reflexivity. Qed.

Lemma mentions_Node K kind f cs :
  mentions K (Node kind f cs) = existsb (mentions K) cs.
Proof. simpl. induction cs as [|c cs IH]; [reflexivity|]. simpl. by rewrite IH. Qed.

Lemma cache_nodes_ok_Node K R kind f cs :
  cache_nodes_ok K R (Node kind f cs) = forallb (cache_nodes_ok K R) cs.
Proof. simpl. induction cs as [|c cs IH]; [reflexivity|]. simpl. by rewrite IH. Qed.

(** Induction over plans, with the hypothesis available for every child. *)
Lemma IR_ind_children (P : IR -> Prop) :
  (forall kind f cs, Forall P cs -> P (Node kind f cs)) ->
  (forall key refcount value, P value -> P (Cache key refcount value)) ->
  forall n, P n.
Proof.
  intros HNode HCache. fix IH 1. intros [kind f cs | key refcount value].
  - apply HNode. induction cs as [|c cs IHcs]; constructor; [apply IH | exact IHcs].
  - apply HCache, IH.
Qed.

Lemma kview_log_Stored K kind s : kview K (log (Stored kind) s) = kview K s.
Proof. reflexivity. Qed.

Lemma kview_log_Visit_ne K k s : k <> K -> kview K (log (Visit k) s) = kview K s.
Proof.
  intros Hne. unfold kview, visits, child_evaluations. simpl.
  rewrite bool_decide_eq_false_2 by assumption. reflexivity.
Qed.

Lemma kview_log_EvalChild_ne K k s :
  k <> K -> kview K (log (EvalChild k) s) = kview K s.
Proof.
  intros Hne. unfold kview, visits, child_evaluations. simpl.
  rewrite bool_decide_eq_false_2 by assumption. reflexivity.
Qed.

Lemma kview_insert_ne K k x s :
  k <> K -> kview K (set_cache (insert k x) s) = kview K s.
Proof.
  intros Hne. unfold kview, visits, child_evaluations. simpl.
  by rewrite lookup_insert_ne.
Qed.

Lemma kview_delete_ne K k s :
  k <> K -> kview K (set_cache (delete k) s) = kview K s.
Proof.
  intros Hne. unfold kview, visits, child_evaluations. simpl.
  by rewrite lookup_delete_ne.
Qed.

(** Evaluating a plan that has no [Cache] node of key [K] leaves the entry
    of [K] and the observations about [K] as they were. *)
Lemma evaluate_frame K n :
  mentions K n = false ->
  forall s r s', evaluate n s = (r, s') -> kview K s' = kview K s.
Proof.
  induction n as [kind f cs IH | key refcount value IH] using IR_ind_children;
    intros Hm s r s' Hev.
  - rewrite mentions_Node in Hm. rewrite evaluate_Node in Hev.
    assert (Hcs : forall s0 r0 s1, evaluate_children cs s0 = (r0, s1) ->
                                   kview K s1 = kview K s0).
    { clear Hev. induction cs as [|c cs IHcs]; intros s0 r0 s1 Hc; simpl in Hc.
      - congruence.
      - simpl in Hm. apply orb_false_elim in Hm as [Hmc Hmcs].
        inversion IH as [|? ? IHc IHrest]; subst.
        destruct (evaluate c s0) as [[df|e] s2] eqn:Ec.
        + pose proof (IHc Hmc _ _ _ Ec) as Hk2.
          destruct (evaluate_children cs s2) as [[dfs|e] s3] eqn:Ecs.
          * rewrite <- Hk2. injection Hc as _ <-. eapply IHcs; eauto.
          * rewrite <- Hk2. injection Hc as _ <-. eapply IHcs; eauto.
        + injection Hc as _ <-. eapply IHc; eauto. }
    destruct (evaluate_children cs s) as [[dfs|e] s1] eqn:Ecs.
    + pose proof (Hcs _ _ _ Ecs) as Hk. destruct (f dfs).
      * injection Hev as _ <-. by rewrite kview_log_Stored.
      * by injection Hev as _ <-.
    + injection Hev as _ <-. eapply Hcs; eauto.
  - simpl in Hm. apply orb_false_elim in Hm as [Hkey Hmv].
    apply bool_decide_eq_false in Hkey.
    simpl in Hev.
    destruct (cache s !! key) as [[df hits]|] eqn:Elook.
    + destruct (decide (hits + 1 = refcount)); injection Hev as _ <-.
      * rewrite kview_delete_ne by assumption. by apply kview_log_Visit_ne.
      * rewrite kview_insert_ne by assumption. by apply kview_log_Visit_ne.
    + destruct (evaluate value _) as [[df|e] s1] eqn:Ev; injection Hev as _ <-.
      * rewrite kview_insert_ne by assumption.
        rewrite (IH Hmv _ _ _ Ev).
        rewrite kview_log_EvalChild_ne by assumption.
        by apply kview_log_Visit_ne.
      * rewrite (IH Hmv _ _ _ Ev).
        rewrite kview_log_EvalChild_ne by assumption.
        by apply kview_log_Visit_ne.
Qed.


Lemma visits_nonneg K s : 0 <= visits K s.
Proof. unfold visits. lia. Qed.

Lemma child_evaluations_nonneg K s : 0 <= child_evaluations K s.
Proof. unfold child_evaluations. lia. Qed.

Lemma cache_inv_kview K R s s' : kview K s = kview K s' -> cache_inv K R s -> cache_inv K R s'.
Proof.
  unfold kview, cache_inv. intros Hk. injection Hk as -> -> ->. auto.
Qed.

(** One miss: the child is evaluated and its result stored with no hit. *)
Lemma Cache_evaluate_miss key refcount value s df s1 :
  cache s !! key = None ->
  evaluate value (log (EvalChild key) (log (Visit key) s)) = (Ok df, s1) ->
  evaluate (Cache key refcount value) s =
    (Ok df, set_cache (insert key (df, 0)) s1).
Proof. intros Hl Hv. simpl. rewrite Hl, Hv. reflexivity. Qed.

(** One hit: the stored frame is returned, the child is not evaluated, and
    the entry is dropped when the incremented hit count equals the refcount
    and kept with that count otherwise. *)
Lemma Cache_evaluate_hit key refcount value s df hits :
  cache s !! key = Some (df, hits) ->
  exists s',
    evaluate (Cache key refcount value) s = (Ok df, s') /\
    child_evaluations key s' = child_evaluations key s /\
    cache s' = (if decide (hits + 1 = refcount) then delete key (cache s)
                else <[key := (df, hits + 1)]> (cache s)).
Proof.
  intros Hl. simpl. rewrite Hl.
  destruct (decide (hits + 1 = refcount)); eexists; repeat split; reflexivity.
Qed.

(** The invariant is kept by every evaluation that returns. *)
Lemma evaluate_cache_inv K R n :
  0 < R -> cache_nodes_ok K R n = true ->
  forall s df s', evaluate n s = (Ok df, s') -> cache_inv K R s -> cache_inv K R s'.
Proof.
  intros HR.
  induction n as [kind f cs IH | key refcount value IH] using IR_ind_children;
    intros Hok s df s' Hev Hinv.
  - rewrite cache_nodes_ok_Node in Hok. rewrite evaluate_Node in Hev.
    assert (Hcs : forall s0 dfs s1, evaluate_children cs s0 = (Ok dfs, s1) ->
                                    cache_inv K R s0 -> cache_inv K R s1).
    { clear Hev Hinv. induction cs as [|c cs IHcs]; intros s0 dfs s1 Hc Hi; simpl in Hc.
      - congruence.
      - simpl in Hok. apply andb_prop in Hok as [Hokc Hokcs].
        inversion IH as [|? ? IHc IHrest]; subst.
        destruct (evaluate c s0) as [[d|e] s2] eqn:Ec; [|discriminate].
        destruct (evaluate_children cs s2) as [[ds|e] s3] eqn:Ecs; [|discriminate].
        injection Hc as _ <-.
        eapply IHcs; eauto. }
    destruct (evaluate_children cs s) as [[dfs|e] s1] eqn:Ecs; [|discriminate].
    destruct (f dfs); [|discriminate]. injection Hev as _ <-.
    eapply cache_inv_kview; [symmetry; apply kview_log_Stored|]. eauto.
  - simpl in Hok. destruct (decide (key = K)) as [->|Hne].
    + rewrite bool_decide_eq_true_2 in Hok by reflexivity.
      apply andb_prop in Hok as [Hrc Hfree].
      apply bool_decide_eq_true in Hrc. subst refcount.
      apply negb_true_iff in Hfree.
      simpl in Hev. unfold cache_inv in Hinv.
      destruct (cache s !! K) as [[d hits]|] eqn:Elook.
      * destruct Hinv as (Hh & Hm & Hv).
        destruct (decide (hits + 1 = R)) as [Heq|Hneq]; injection Hev as _ <-;
          unfold cache_inv, visits, child_evaluations in *; simpl;
          rewrite bool_decide_eq_true_2 by reflexivity; simpl.
        -- rewrite lookup_delete_eq. nia.
        -- rewrite lookup_insert_eq. repeat split; try lia.
      * destruct (evaluate value _) as [[d|e] s1] eqn:Ev; [|discriminate].
        injection Hev as _ <-.
        pose proof (evaluate_frame K value Hfree _ _ _ Ev) as Hk.
        unfold kview in Hk. injection Hk as Hc Hv Hm.
        unfold cache_inv, visits, child_evaluations in *. simpl in *.
        rewrite bool_decide_eq_true_2 in Hv, Hm by reflexivity. simpl in *.
        rewrite lookup_insert_eq. repeat split; try lia.
    + rewrite bool_decide_eq_false_2 in Hok by assumption.
      simpl in Hev.
      destruct (cache s !! key) as [[d hits]|] eqn:Elook.
      * eapply cache_inv_kview; [|exact Hinv].
        destruct (decide (hits + 1 = refcount)); injection Hev as _ <-.
        -- rewrite kview_delete_ne by assumption. symmetry. by apply kview_log_Visit_ne.
        -- rewrite kview_insert_ne by assumption. symmetry. by apply kview_log_Visit_ne.
      * destruct (evaluate value _) as [[d|e] s1] eqn:Ev; [|discriminate].
        injection Hev as _ <-.
        eapply cache_inv_kview; [symmetry; by apply kview_insert_ne|].
        eapply IH; eauto.
        eapply cache_inv_kview; [|exact Hinv].
        rewrite kview_log_EvalChild_ne by assumption.
        symmetry. by apply kview_log_Visit_ne.
Qed.

Lemma cache_inv_initial K R : cache_inv K R initial.
Proof. unfold cache_inv, initial, visits, child_evaluations. simpl. rewrite lookup_empty. lia. Qed.

(** With at most [R + 1] visits the child is evaluated once; the entry
    lives from the first visit to the [R + 1]-th. *)
Lemma cache_entry_lifetime (K R : Z) (n : IR) (df : DataFrame) (s' : State) :
  0 < R ->
  cache_nodes_ok K R n = true ->
  evaluate_top n = (Ok df, s') ->
  (1 <= visits K s' <= R + 1 -> child_evaluations K s' = 1) /\
  (1 <= visits K s' <= R ->
     exists stored, cache s' !! K = Some (stored, visits K s' - 1)) /\
  (visits K s' = R + 1 -> cache s' !! K = None).
Proof.
  intros HR Hok Hev.
  pose proof (evaluate_cache_inv K R n HR Hok _ _ _ Hev (cache_inv_initial K R)) as Hinv.
  pose proof (child_evaluations_nonneg K s') as Hm0.
  unfold cache_inv in Hinv.
  set (v := visits K s') in *. set (m := child_evaluations K s') in *.
  destruct (cache s' !! K) as [[stored hits]|].
  - destruct Hinv as (Hh & Hm & Hv).
    assert (Hbig : 2 <= m -> R + 1 <= (m - 1) * (R + 1)).
    { intros H2. replace (R + 1) with (1 * (R + 1)) at 1 by lia.
      apply Z.mul_le_mono_nonneg_r; lia. }
    repeat split.
    + intros Hb. destruct (Z_lt_le_dec m 2); lia.
    + intros Hb. exists stored. f_equal. f_equal.
      destruct (Z_lt_le_dec m 2); [|lia].
      assert (m = 1) as Hm1 by lia. rewrite Hm1 in Hv. lia.
    + intros Hb. exfalso.
      destruct (Z_lt_le_dec m 2); [|lia].
      assert (m = 1) as Hm1 by lia. rewrite Hm1 in Hv. lia.
  - assert (Hbig : 2 <= m -> 2 * (R + 1) <= m * (R + 1)).
    { intros H2. apply Z.mul_le_mono_nonneg_r; lia. }
    repeat split.
    + intros Hb. destruct (Z_lt_le_dec m 2); [|lia].
      destruct (Z.eq_dec m 0) as [H0|H0]; [rewrite H0 in Hinv; lia | lia].
    + intros Hb. exfalso.
      destruct (Z_lt_le_dec m 2); [|lia].
      destruct (Z.eq_dec m 0) as [H0|H0]; [rewrite H0 in Hinv; lia |].
      assert (m = 1) as Hm1 by lia. rewrite Hm1 in Hinv. lia.
Qed.


(** The number of child evaluations after any number of visits. *)
Lemma cache_child_evaluation_count (K R : Z) (n : IR) (df : DataFrame) (s' : State) :
  0 < R ->
  cache_nodes_ok K R n = true ->
  evaluate_top n = (Ok df, s') ->
  child_evaluations K s' = (visits K s' + R) / (R + 1).
Proof.
  intros HR Hok Hev.
  pose proof (evaluate_cache_inv K R n HR Hok _ _ _ Hev (cache_inv_initial K R)) as Hinv.
  unfold cache_inv in Hinv.
  destruct (cache s' !! K) as [[stored hits]|].
  - destruct Hinv as (Hh & Hm & Hv).
    apply Z.div_unique with (r := hits); [left; lia | lia].
  - apply Z.div_unique with (r := R); [left; lia | lia].
Qed.

(** C1 (as amended). For Cache nodes of key [K] with refcount [R >= 1]:
    a visit that finds no entry evaluates the wrapped child and stores its
    result with 0 hits; a visit that finds an entry returns the stored
    result without evaluating the child, and removes the entry when the
    incremented hit count equals [R], keeping it with that count otherwise.
    Hence in a plan whose Cache nodes of key [K] have refcount [R] and wrap
    a child free of key [K], a top-level evaluation that returns after [v]
    visits of key [K] has evaluated the child [(v + R) / (R + 1)] times:
    exactly once when [1 <= v <= R + 1]; the entry is still stored, with
    [v - 1] hits, when [v <= R], and is gone when [v = R + 1]. *)
Theorem cache_child_evaluated_once (K R : Z) :
  0 < R ->
  (forall (n : IR) (df : DataFrame) (s' : State),
     cache_nodes_ok K R n = true ->
     evaluate_top n = (Ok df, s') ->
     child_evaluations K s' = (visits K s' + R) / (R + 1) /\
     (1 <= visits K s' <= R + 1 -> child_evaluations K s' = 1) /\
     (1 <= visits K s' <= R ->
        exists stored, cache s' !! K = Some (stored, visits K s' - 1)) /\
     (visits K s' = R + 1 -> cache s' !! K = None)) /\
  (forall (value : IR) (s : State) (df : DataFrame) (s1 : State),
     cache s !! K = None ->
     evaluate value (log (EvalChild K) (log (Visit K) s)) = (Ok df, s1) ->
     evaluate (Cache K R value) s = (Ok df, set_cache (insert K (df, 0)) s1)) /\
  (forall (value : IR) (s : State) (df : DataFrame) (hits : Z),
     cache s !! K = Some (df, hits) ->
     exists s',
       evaluate (Cache K R value) s = (Ok df, s') /\
       child_evaluations K s' = child_evaluations K s /\
       cache s' = (if decide (hits + 1 = R) then delete K (cache s)
                   else <[K := (df, hits + 1)]> (cache s))).
Proof.
  intros HR. split; [|split].
  - intros n df s' Hok Hev. split.
    + by eapply cache_child_evaluation_count.
    + by eapply cache_entry_lifetime.
  - intros value s df s1. apply Cache_evaluate_miss.
  - intros value s df hits. apply Cache_evaluate_hit.
Qed.

Lemma cache_child_evaluated_once_witness :
  child_evaluations 0 (snd (evaluate_top (plan_refs 2 3))) = 1 /\
  cache (snd (evaluate_top (plan_refs 2 3))) !! 0 = None.
Proof.
  assert (HR : 0 < 2) by lia.
  assert (Hok : cache_nodes_ok 0 2 (plan_refs 2 3) = true) by reflexivity.
  assert (Hev : evaluate_top (plan_refs 2 3) =
                (Ok frame_a, snd (evaluate_top (plan_refs 2 3))))
    by (vm_compute; reflexivity).
  destruct (cache_child_evaluated_once 0 2 HR) as (Hplan & _ & _).
  destruct (Hplan (plan_refs 2 3) frame_a _ Hok Hev) as (_ & Hone & _ & Hgone).
  split.
  - apply Hone. vm_compute. split; discriminate.
  - apply Hgone. vm_compute. reflexivity.
Defined.

(** C1 (as stated) fails: with refcount 1 and three parents the wrapped
    child is evaluated twice. *)
Lemma cache_three_parents_refcount_one :
  cache_nodes_ok 0 1 (plan_refs 1 3) = true /\
  fst (evaluate_top (plan_refs 1 3)) = Ok frame_a /\
  visits 0 (snd (evaluate_top (plan_refs 1 3))) = 3 /\
  child_evaluations 0 (snd (evaluate_top (plan_refs 1 3))) = 2 /\
  child_evaluations 0 (snd (evaluate_top (plan_refs 1 3))) <> 1.
Proof. vm_compute. repeat split; discriminate. Qed.

(** With as many parents as the refcount, the hit count stops one short of
    the refcount and the entry is still stored when the evaluation ends. *)
Lemma cache_entry_kept_with_refcount_parents :
  cache (snd (evaluate_top (plan_refs 3 3))) !! 0 = Some (frame_a, 2).
Proof. vm_compute. reflexivity. Qed.

End CacheFacts.

(** ** Facts about Select *)

Module SelectFacts.
Import Columns Frames Exprs Select.

Lemma rename_own_name (c : Column) : rename c (name c) = c.
Proof. destruct c. reflexivity. Qed.

Lemma foldl_insert_not_in (cols : list Column) (m : gmap string Column) (nm : string) :
  nm ∉ name <$> cols ->
  foldl (fun m c => <[name c := c]> m) m cols !! nm = m !! nm.
Proof.
  revert m. induction cols as [|c cols IH]; intros m Hnot; simpl; [reflexivity|].
  rewrite fmap_cons in Hnot. apply not_elem_of_cons in Hnot as [Hne Hrest].
  rewrite IH by assumption. by rewrite lookup_insert_ne.
Qed.

Lemma foldl_insert_lookup (cols : list Column) (m : gmap string Column) (c : Column) :
  NoDup (name <$> cols) -> c ∈ cols ->
  foldl (fun m c => <[name c := c]> m) m cols !! name c = Some c.
Proof.
  revert m. induction cols as [|c0 cols IH]; intros m Hnd Hin.
  - by apply elem_of_nil in Hin.
  - rewrite fmap_cons in Hnd. apply NoDup_cons in Hnd as [Hnot Hnd].
    simpl. apply elem_of_cons in Hin as [-> | Hin].
    + rewrite foldl_insert_not_in by assumption. apply lookup_insert_eq.
    + by apply IH.
Qed.

Lemma column_map_lookup (df : DataFrame) (c : Column) :
  NoDup (column_names df) -> c ∈ columns df ->
  column_map df !! name c = Some c.
Proof. intros Hnd Hin. unfold column_map. by apply foldl_insert_lookup. Qed.

Lemma NamedExpr_evaluate_references : evaluates_references NamedExpr_evaluate.
Proof.
  intros out_name col_name dt df c Hc. unfold NamedExpr_evaluate. simpl.
  rewrite Hc. reflexivity.
Qed.

(** C8. With an Expression Evaluator that evaluates a column reference to
    the referenced column, for every frame [df] (whose column names are
    distinct) a Select over the references to all of [df]'s own columns,
    without broadcasting, returns [df]: the same columns in the same order,
    with the same names and values. *)
Theorem select_own_columns_roundtrip
  (evaluate_named : NamedExpr -> DataFrame -> result Column)
  (dtype_of : Column -> DataType) (df : DataFrame) :
  evaluates_references evaluate_named ->
  NoDup (column_names df) ->
  do_evaluate evaluate_named (own_column_refs dtype_of df) false df = Ok df.
Proof.
  intros Hev Hnd. unfold do_evaluate, own_column_refs.
  assert (Hall : forall cols, cols ⊆ columns df ->
            rmapM (fun e => evaluate_named e df)
              ((fun c => mkNamedExpr (name c) (Col (dtype_of c) (name c))) <$> cols)
            = Ok cols).
  { induction cols as [|c cols IH]; intros Hsub; [reflexivity|].
    rewrite fmap_cons. simpl.
    rewrite (Hev (name c) (name c) (dtype_of c) df c).
    - rewrite rename_own_name. simpl. rewrite IH; [reflexivity|].
      intros x Hx. apply Hsub. by right.
    - apply column_map_lookup; [assumption|]. apply Hsub. by left. }
  rewrite Hall by reflexivity. simpl. destruct df. reflexivity.
Qed.

Lemma select_own_columns_roundtrip_witness :
  do_evaluate NamedExpr_evaluate (own_column_refs (fun _ => INT64) frame_ab) false frame_ab
  = Ok frame_ab.
Proof.
  apply select_own_columns_roundtrip.
  - exact NamedExpr_evaluate_references.
  - apply (bool_decide_unpack _). vm_compute. exact I.
Defined.

End SelectFacts.

(** ** Facts about the aggregation decomposer *)

Module AggregationFacts.
Import Columns Frames Exprs Aggregations.

Lemma Expr_ind_children (P : Expr -> Prop) :
  (forall dt name, P (Col dt name)) ->
  (forall dt, P (Len dt)) ->
  (forall dt v, P (Literal dt v)) ->
  (forall dt vs, P (LiteralColumn dt vs)) ->
  (forall dt name options cs, Forall P cs -> P (Agg dt name options cs)) ->
  (forall dt cs, Forall P cs -> P (Ternary dt cs)) ->
  (forall dt name options cs, Forall P cs -> P (UnaryFunction dt name options cs)) ->
  (forall dt cs, Forall P cs -> P (Cast dt cs)) ->
  (forall class dt pw cs, Forall P cs -> P (Other class dt pw cs)) ->
  forall e, P e.
Proof.
  intros HCol HLen HLit HLitC HAgg HTern HUn HCast HOther.
  fix IH 1. intros [dt nm|dt|dt v|dt vs|dt nm o cs|dt cs|dt nm o cs|dt cs|cl dt pw cs].
  - apply HCol.
  - apply HLen.
  - apply HLit.
  - apply HLitC.
  - apply HAgg. induction cs as [|c cs IHcs]; constructor; [apply IH | exact IHcs].
  - apply HTern. induction cs as [|c cs IHcs]; constructor; [apply IH | exact IHcs].
  - apply HUn. induction cs as [|c cs IHcs]; constructor; [apply IH | exact IHcs].
  - apply HCast. induction cs as [|c cs IHcs]; constructor; [apply IH | exact IHcs].
  - apply HOther. induction cs as [|c cs IHcs]; constructor; [apply IH | exact IHcs].
Qed.

Lemma has_fill_null_any (cs : list Expr) :
  (fix any (cs : list Expr) : bool :=
     match cs with
     | [] => false
     | c :: cs' => has_fill_null c || any cs'
     end) cs = existsb has_fill_null cs.
Proof. induction cs as [|c cs IH]; [reflexivity|]. simpl. by rewrite IH. Qed.

Lemma has_fill_null_reconstruct (e : Expr) (cs : list Expr) :
  children e <> [] ->
  has_fill_null e = false ->
  existsb has_fill_null cs = false ->
  has_fill_null (reconstruct e cs) = false.
Proof.
  intros Hne He Hcs.
  destruct e; simpl in *; try congruence;
    rewrite ?has_fill_null_any in *; try assumption.
  apply orb_false_elim in He as [-> _]. assumption.
Qed.

Lemma has_fill_null_sum_col dt name : has_fill_null (sum_col dt name) = false.
Proof. unfold sum_col. destruct (_ && _); reflexivity. Qed.

Lemma has_fill_null_sum_post dt name is_top :
  has_fill_null (sum_post dt name is_top) = is_top.
Proof.
  unfold sum_post. destruct is_top; [reflexivity | apply has_fill_null_sum_col].
Qed.

Section WithNames.
Variable fresh : nat -> string.

Lemma decompose_UnaryFunction name dt fn options cs is_top gen :
  decompose_single_agg fresh name (UnaryFunction dt fn options cs) is_top gen =
  decompose_pointwise fresh name (UnaryFunction dt fn options cs) gen.
Proof. destruct cs; reflexivity. Qed.

Lemma decompose_Cast name dt cs is_top gen :
  decompose_single_agg fresh name (Cast dt cs) is_top gen =
  decompose_pointwise fresh name (Cast dt cs) gen.
Proof. destruct cs; reflexivity. Qed.

Lemma decompose_Other name class dt pw cs is_top gen :
  decompose_single_agg fresh name (Other class dt pw cs) is_top gen =
  decompose_pointwise fresh name (Other class dt pw cs) gen.
Proof. destruct cs; reflexivity. Qed.

(** A sum is decomposed by decomposing its child below the top: the sum is
    itself the one aggregation request, and the post-aggregation expression
    is [sum_post]. *)
Lemma decompose_sum name dt options child is_top gen :
  decompose_single_agg fresh name (Agg dt "sum" options [child]) is_top gen =
  match decompose_single_agg fresh (fresh gen) child false (S gen) with
  | Ok (_, _, false, gen1) =>
    Ok ([mkNamedExpr name (Agg dt "sum" options [child])],
        mkNamedExpr name (sum_post dt name is_top), true, gen1)
  | Ok (_, _, true, _) =>
    Raise (NotImplementedError "Nested aggs in groupby not supported")
  | Raise e => Raise e
  end.
Proof.
  destruct (decompose_single_agg fresh (fresh gen) child false (S gen))
    as [[[[aggs post] [|]] gen1]|e] eqn:E;
    simpl; rewrite E; simpl; try reflexivity.
  unfold sum_post. destruct is_top; reflexivity.
Qed.

(** The children of a pointwise expression never get a null-fill. *)
Lemma decompose_children_no_fill_null (cs : list Expr) :
  Forall (fun agg => has_fill_null agg = false ->
            forall name is_top gen aggs post flag gen',
              decompose_single_agg fresh name agg is_top gen = Ok (aggs, post, flag, gen') ->
              has_fill_null (value post) = is_top && is_sum agg) cs ->
  existsb has_fill_null cs = false ->
  forall gen aggs_l posts has_aggs gen',
    decompose_children fresh cs gen = Ok (aggs_l, posts, has_aggs, gen') ->
    existsb has_fill_null (value <$> posts) = false.
Proof.
  induction 1 as [|c cs Hc _ IH]; intros Hany gen aggs_l posts has_aggs gen' Hd;
    simpl in Hd.
  - injection Hd as _ <- _ _. reflexivity.
  - simpl in Hany. apply orb_false_elim in Hany as [Hfc Hfcs].
    destruct (decompose_single_agg fresh (fresh gen) c false (S gen))
      as [[[[a p] f] g1]|e] eqn:Ec; [|discriminate].
    simpl in Hd.
    destruct (decompose_children fresh cs g1) as [[[[al ps] fs] g2]|e] eqn:Ecs;
      [|discriminate].
    simpl in Hd. injection Hd as _ <- _ _.
    rewrite fmap_cons. simpl.
    rewrite (Hc Hfc _ _ _ _ _ _ _ Ec). simpl.
    eapply IH; eauto.
Qed.

Lemma decompose_pointwise_no_fill_null (agg : Expr) :
  is_sum agg = false ->
  Forall (fun agg => has_fill_null agg = false ->
            forall name is_top gen aggs post flag gen',
              decompose_single_agg fresh name agg is_top gen = Ok (aggs, post, flag, gen') ->
              has_fill_null (value post) = is_top && is_sum agg) (children agg) ->
  has_fill_null agg = false ->
  existsb has_fill_null (children agg) = false ->
  forall name (is_top : bool) gen aggs post flag gen',
    decompose_pointwise fresh name agg gen = Ok (aggs, post, flag, gen') ->
    has_fill_null (value post) = is_top && is_sum agg.
Proof.
  intros Hsum Hcs Hf Hfcs name is_top gen aggs post flag gen' Hd.
  rewrite Hsum, andb_false_r.
  unfold decompose_pointwise in Hd.
  destruct (is_pointwise agg); [|discriminate].
  destruct (children agg) as [|c cs] eqn:Echildren; [discriminate|].
  destruct (decompose_children fresh (c :: cs) gen) as [[[[al ps] fs] g1]|e] eqn:Ecs;
    [|discriminate].
  simpl in Hd.
  pose proof (decompose_children_no_fill_null _ Hcs Hfcs _ _ _ _ _ Ecs) as Hposts.
  destruct (existsb id fs); injection Hd as _ <- _ _; simpl.
  - apply has_fill_null_reconstruct; [congruence | assumption | assumption].
  - reflexivity.
Qed.

(** The post-aggregation expression holds a null-fill the input did not
    already hold exactly when the input is a sum at the top. *)
Lemma decompose_fill_null (agg : Expr) :
  has_fill_null agg = false ->
  forall name is_top gen aggs post flag gen',
    decompose_single_agg fresh name agg is_top gen = Ok (aggs, post, flag, gen') ->
    has_fill_null (value post) = is_top && is_sum agg.
Proof.
  induction agg as [dt nm|dt|dt v|dt vs|dt nm o cs IH|dt cs IH|dt nm o cs IH
                   |dt cs IH|cl dt pw cs IH] using Expr_ind_children;
    intros Hf name is_top gen aggs post flag gen' Hd.
  - simpl in Hd. injection Hd as _ <- _ _. simpl. by rewrite andb_false_r.
  - simpl in Hd. injection Hd as _ <- _ _. simpl. by rewrite andb_false_r.
  - simpl in Hd. injection Hd as _ <- _ _. simpl. by rewrite andb_false_r.
  - simpl in Hd. injection Hd as _ <- _ _. simpl. by rewrite andb_false_r.
  - simpl in Hd. destruct cs as [|child rest].
    { destruct (String.eqb nm "quantile"); discriminate. }
    destruct (negb (String.eqb nm "quantile") && _); [discriminate|].
    destruct (bool_decide (nm ∈ ["min"; "max"]) && is_floating_point (dtype child))
      eqn:Emask.
    + destruct (truthy o); simpl in Hd; [discriminate|].
      destruct (decompose_single_agg fresh (fresh gen) child false (S gen))
        as [[[[a p] [|]] g1]|e]; simpl in Hd; try discriminate.
      injection Hd as _ <- _ _. simpl.
      apply andb_prop in Emask as [Hin _]. apply bool_decide_eq_true in Hin.
      assert (String.eqb nm "sum" = false) as ->.
      { rewrite !elem_of_cons in Hin.
        destruct Hin as [-> | [-> | Hnil]]; [reflexivity | reflexivity |].
        by apply elem_of_nil in Hnil. }
      by rewrite andb_false_r.
    + simpl in Hd.
      destruct (decompose_single_agg fresh (fresh gen) child false (S gen))
        as [[[[a p] [|]] g1]|e]; simpl in Hd; try discriminate.
      destruct (String.eqb nm "sum") eqn:Esum.
      * destruct is_top; injection Hd as _ <- _ _;
          cbn [value is_sum andb ne_reconstruct]; rewrite ?Esum.
        -- reflexivity.
        -- apply has_fill_null_sum_col.
      * injection Hd as _ <- _ _. simpl. rewrite Esum. by rewrite andb_false_r.
  - simpl in Hd. discriminate.
  - rewrite decompose_UnaryFunction in Hd.
    pose proof Hf as Hf'. simpl in Hf'. rewrite has_fill_null_any in Hf'.
    apply orb_false_elim in Hf' as [_ Hcs].
    eapply decompose_pointwise_no_fill_null;
      [reflexivity | exact IH | exact Hf | exact Hcs | exact Hd].
  - rewrite decompose_Cast in Hd.
    pose proof Hf as Hcs. simpl in Hcs. rewrite has_fill_null_any in Hcs.
    eapply decompose_pointwise_no_fill_null;
      [reflexivity | exact IH | exact Hf | exact Hcs | exact Hd].
  - rewrite decompose_Other in Hd.
    pose proof Hf as Hcs. simpl in Hcs. rewrite has_fill_null_any in Hcs.
    eapply decompose_pointwise_no_fill_null;
      [reflexivity | exact IH | exact Hf | exact Hcs | exact Hd].
Qed.

End WithNames.

(** Evaluating the post-aggregation expression of a sum on the frame of
    grouped results: a null sum becomes 0 at the top and stays null below. *)
Lemma sum_post_evaluate dt name is_top (df : DataFrame) (c : Column) :
  column_map df !! name = Some c ->
  exists out,
    NamedExpr_evaluate (mkNamedExpr name (sum_post dt name is_top)) df = Ok out /\
    Columns.name out = name /\
    length (obj out) = length (obj c) /\
    forall i : nat, obj c !! i = Some None ->
      obj out !! i = Some (if is_top then Some 0 else None).
Proof.
  intros Hc. unfold NamedExpr_evaluate, sum_post, sum_col.
  destruct is_top, (is_integral dt && negb (bool_decide (dt = INT64)));
    cbn -[cast_cell]; rewrite Hc; cbn -[cast_cell];
    eexists; (split; [reflexivity|]); (split; [reflexivity|]);
    cbn -[cast_cell]; unfold replace_nulls;
    rewrite ?length_fmap; (split; [reflexivity|]);
    intros i Hi; rewrite ?list_lookup_fmap, Hi; cbn -[cast_cell int_bounds];
    try reflexivity.
  - unfold cast_cell. destruct (int_bounds dt) as [[lo m]|]; reflexivity.
  - unfold cast_cell. destruct (int_bounds dt) as [[lo m]|]; reflexivity.
Qed.

(** C5. A sum is decomposed into itself as the one aggregation request and,
    when it is the top of the aggregation expression, a post-aggregation
    expression that fills the nulls of the summed column with 0, so that a
    null sum evaluates to 0; below the top (as a child of a pointwise
    expression) the post-aggregation expression is the bare reference and a
    null sum stays null. The sum is decomposed whenever its child is
    decomposed without an aggregation. And in general the post-aggregation
    expression of an expression free of null-fills holds a null-fill exactly
    when that expression is a sum at the top. *)
Theorem sum_null_fill_only_at_top (fresh : nat -> string) :
  (forall name dt options child is_top gen aggs post flag gen',
     decompose_single_agg fresh name (Agg dt "sum" options [child]) is_top gen
       = Ok (aggs, post, flag, gen') ->
     aggs = [mkNamedExpr name (Agg dt "sum" options [child])] /\
     flag = true /\
     post = mkNamedExpr name (sum_post dt name is_top) /\
     forall (df : DataFrame) (c : Column),
       column_map df !! name = Some c ->
       exists out,
         NamedExpr_evaluate post df = Ok out /\
         Columns.name out = name /\
         length (obj out) = length (obj c) /\
         forall i : nat, obj c !! i = Some None ->
           obj out !! i = Some (if is_top then Some 0 else None)) /\
  (forall name dt options child is_top gen a p gen1,
     decompose_single_agg fresh (fresh gen) child false (S gen) = Ok (a, p, false, gen1) ->
     decompose_single_agg fresh name (Agg dt "sum" options [child]) is_top gen
       = Ok ([mkNamedExpr name (Agg dt "sum" options [child])],
             mkNamedExpr name (sum_post dt name is_top), true, gen1)) /\
  (forall agg name is_top gen aggs post flag gen',
     has_fill_null agg = false ->
     decompose_single_agg fresh name agg is_top gen = Ok (aggs, post, flag, gen') ->
     has_fill_null (value post) = is_top && is_sum agg).
Proof.
  repeat split.
  - rewrite decompose_sum in H.
    destruct (decompose_single_agg fresh (fresh gen) child false (S gen))
      as [[[[a p] [|]] g1]|e]; congruence.
  - rewrite decompose_sum in H.
    destruct (decompose_single_agg fresh (fresh gen) child false (S gen))
      as [[[[a p] [|]] g1]|e]; congruence.
  - rewrite decompose_sum in H.
    destruct (decompose_single_agg fresh (fresh gen) child false (S gen))
      as [[[[a p] [|]] g1]|e]; congruence.
  - intros df c Hc. rewrite decompose_sum in H.
    destruct (decompose_single_agg fresh (fresh gen) child false (S gen))
      as [[[[a p] [|]] g1]|e]; try discriminate.
    injection H as _ <- _ _. by apply sum_post_evaluate.
  - intros name dt options child is_top gen a p gen1 Hchild.
    rewrite decompose_sum, Hchild. reflexivity.
  - intros agg name is_top gen aggs post flag gen' Hf Hd.
    eapply decompose_fill_null; eauto.
Qed.

Lemma sum_null_fill_only_at_top_witness :
  exists out,
    NamedExpr_evaluate (mkNamedExpr "b" (sum_post INT64 "b" true)) grouped_sums = Ok out /\
    obj out !! 1%nat = Some (Some 0).
Proof.
  destruct (sum_null_fill_only_at_top numbered) as (Htop & _ & _).
  assert (Hd : decompose_single_agg numbered "b" sum_b true 0 =
               Ok ([mkNamedExpr "b" sum_b],
                   mkNamedExpr "b" (sum_post INT64 "b" true), true, 1%nat))
    by (vm_compute; reflexivity).
  destruct (Htop _ _ _ _ _ _ _ _ _ _ Hd) as (_ & _ & _ & Hev).
  destruct (Hev grouped_sums (mkColumn [Some 30; None] NO ASCENDING BEFORE "b"))
    as (out & Hout & _ & _ & Hnull).
  { vm_compute. reflexivity. }
  exists out. split; [exact Hout|]. apply Hnull. reflexivity.
Defined.

(** [sum(b) + 1]: the sum is requested under a temporary name and the
    addition reads it back without a null-fill. *)
Lemma decompose_sum_b_plus_one :
  decompose_single_agg numbered "c" sum_b_plus_one true 0 =
  Ok ([mkNamedExpr "__tmp0" sum_b],
      mkNamedExpr "c"
        (Other "BinOp" INT64 true [Col INT64 "__tmp0"; Literal INT64 (Some 1)]),
      true, 3%nat).
Proof. vm_compute. reflexivity. Qed.

End AggregationFacts.
(** ** [json.dumps] is one-to-one *)

Module JsonFacts.

Lemma app_cons_string (x : ascii) (a b : string) :
  String x a +:+ b = String x (a +:+ b).
Proof. reflexivity. Qed.

Lemma app_nil_l_string (b : string) : "" +:+ b = b.
Proof. reflexivity. Qed.

Lemma app_assoc_string (a b c : string) : (a +:+ b) +:+ c = a +:+ (b +:+ c).
Proof.
  induction a as [|x a IH]; [reflexivity|]. by rewrite !app_cons_string, IH.
Qed.

Lemma app_nil_r_string (a : string) : a +:+ "" = a.
Proof.
  induction a as [|x a IH]; [reflexivity|]. by rewrite app_cons_string, IH.
Qed.

(** Numbers. *)
Lemma pretty_N_go_app (x : N) (s : string) :
  pretty_N_go x s = pretty_N_go x "" +:+ s.
Proof.
  revert s. induction (N.lt_wf_0 x) as [x _ IH]; intros s.
  assert (x = 0 \/ 0 < x)%N as [-> | Hx] by lia.
  - by rewrite !pretty_N_go_0.
  - rewrite (pretty_N_go_step x s), (pretty_N_go_step x "") by done.
    assert (Hlt : (x `div` 10 < x)%N) by (by apply N.div_lt).
    rewrite (IH _ Hlt (String _ s)), (IH _ Hlt (String _ "")).
    by rewrite app_assoc_string.
Qed.

Lemma all_digits_app (a b : string) :
  all_digits a -> all_digits b -> all_digits (a +:+ b).
Proof. induction a as [|x a IH]; [done|]. simpl. intros [? ?] ?. auto. Qed.

Lemma pretty_N_char_digit (x : N) : Ascii.is_nat (pretty_N_char x) <> None.
Proof. unfold pretty_N_char. by repeat case_match. Qed.

Lemma pretty_N_go_digits (x : N) : all_digits (pretty_N_go x "").
Proof.
  induction (N.lt_wf_0 x) as [x _ IH].
  assert (x = 0 \/ 0 < x)%N as [-> | Hx] by lia; [done|].
  rewrite pretty_N_go_step, pretty_N_go_app by done.
  apply all_digits_app; [by apply IH, N.div_lt|].
  split; [apply pretty_N_char_digit|done].
Qed.

Lemma pretty_N_digits (x : N) : all_digits (pretty x) /\ pretty x <> "".
Proof.
  unfold pretty, pretty_N. case_decide as Hx; [by repeat split|].
  split; [apply pretty_N_go_digits|].
  rewrite pretty_N_go_step, pretty_N_go_app by lia.
  by destruct (pretty_N_go _ "").
Qed.

Lemma digits_unique (u1 u2 r1 r2 : string) :
  all_digits u1 -> all_digits u2 -> no_digit_ahead r1 -> no_digit_ahead r2 ->
  u1 +:+ r1 = u2 +:+ r2 -> u1 = u2 /\ r1 = r2.
Proof.
  revert u2. induction u1 as [|c u1 IH]; intros [|d u2];
    rewrite ?app_cons_string, ?app_nil_l_string; cbn [all_digits].
  - auto.
  - intros _ [Hd _] H1 _ E. subst r1. by destruct Hd.
  - intros [Hc _] _ _ H2 E. subst r2. by destruct Hc.
  - intros [_ H1] [_ H2] Hr1 Hr2 [= -> H].
    destruct (IH u2 H1 H2 Hr1 Hr2 H) as [-> ->]. done.
Qed.

Lemma pretty_Z_unique (z1 z2 : Z) (r1 r2 : string) :
  no_digit_ahead r1 -> no_digit_ahead r2 ->
  pretty z1 +:+ r1 = pretty z2 +:+ r2 -> z1 = z2 /\ r1 = r2.
Proof.
  intros Hr1 Hr2 H.
  assert (Hshape : forall z : Z,
            (exists u, pretty z = u /\ all_digits u /\ u <> "" /\ (0 <= z)%Z) \/
            (exists u, pretty z = "-" +:+ u /\ all_digits u /\ (z < 0)%Z)).
  { intros [|p|p].
    - left. exists "0". by repeat split.
    - left. exists (pretty (N.pos p)). destruct (pretty_N_digits (N.pos p)).
      repeat split; auto; lia.
    - right. exists (pretty (N.pos p)). destruct (pretty_N_digits (N.pos p)).
      repeat split; auto; lia. }
  destruct (Hshape z1) as [(u1 & E1 & D1 & N1 & S1) | (u1 & E1 & D1 & S1)];
    destruct (Hshape z2) as [(u2 & E2 & D2 & N2 & S2) | (u2 & E2 & D2 & S2)].
  - rewrite E1, E2 in H. destruct (digits_unique _ _ _ _ D1 D2 Hr1 Hr2 H) as [Hu ->].
    split; [|done]. apply (inj pretty). congruence.
  - rewrite E1, E2 in H. destruct u1 as [|c u1]; [done|].
    simpl in H. injection H as -> _. destruct D1 as [D1 _]. by destruct D1.
  - rewrite E1, E2 in H. destruct u2 as [|c u2]; [done|].
    simpl in H. injection H as <- _. destruct D2 as [D2 _]. by destruct D2.
  - rewrite E1, E2 in H. simpl in H. injection H as H.
    destruct (digits_unique _ _ _ _ D1 D2 Hr1 Hr2 H) as [Hu ->].
    split; [|done]. apply (inj pretty). congruence.
Qed.

Lemma pretty_Z_first (z : Z) :
  exists c rest, pretty z = String c rest /\
                 (Ascii.is_nat c <> None \/ c = "-"%char).
Proof.
  destruct z as [|p|p].
  - exists "0"%char, "". split; [done|by left].
  - destruct (pretty_N_digits (N.pos p)) as [D N].
    change (pretty (Z.pos p)) with (pretty (N.pos p)).
    destruct (pretty (N.pos p)) as [|c rest]; [done|].
    exists c, rest. split; [done|]. left. by destruct D.
  - eexists _, _. split; [reflexivity|by right].
Qed.

(** Strings. *)
Lemma every_ascii (c : ascii) : c ∈ ascii_of_nat <$> seq 0 256.
Proof.
  rewrite <- (ascii_nat_embedding c). apply list_elem_of_fmap_2.
  apply elem_of_seq. pose proof (nat_ascii_bounded c). lia.
Qed.

Lemma prefix_of_app (u1 u2 x y : string) :
  u1 +:+ x = u2 +:+ y -> String.prefix u1 u2 = true \/ String.prefix u2 u1 = true.
Proof.
  revert u2. induction u1 as [|c u1 IH]; intros [|d u2]; simpl; auto.
  intros [= -> H]. destruct (IH _ H) as [Hp | Hp].
  - left. destruct (ascii_dec d d); [done|congruence].
  - right. destruct (ascii_dec d d); [done|congruence].
Qed.

Lemma escape_char_unambiguous (c1 c2 : ascii) (x y : string) :
  escape_char c1 +:+ x = escape_char c2 +:+ y -> c1 = c2 /\ x = y.
Proof.
  intros H.
  assert (Hall : forallb (fun a => forallb (fun b =>
                    Ascii.eqb a b || negb (String.prefix (escape_char a) (escape_char b)))
                    (ascii_of_nat <$> seq 0 256)) (ascii_of_nat <$> seq 0 256) = true)
    by (vm_compute; reflexivity).
  assert (Hpair : forall a b, Ascii.eqb a b
                    || negb (String.prefix (escape_char a) (escape_char b)) = true).
  { intros a b. rewrite forallb_forall in Hall.
    specialize (Hall a (proj1 (list_elem_of_In _ _) (every_ascii a))).
    rewrite forallb_forall in Hall.
    exact (Hall b (proj1 (list_elem_of_In _ _) (every_ascii b))). }
  assert (Heq : c1 = c2).
  { destruct (prefix_of_app _ _ _ _ H) as [Hp | Hp].
    - specialize (Hpair c1 c2). rewrite Hp in Hpair. simpl in Hpair.
      rewrite orb_false_r in Hpair. by apply Ascii.eqb_eq.
    - specialize (Hpair c2 c1). rewrite Hp in Hpair. simpl in Hpair.
      rewrite orb_false_r in Hpair. symmetry. by apply Ascii.eqb_eq. }
  subst c2. split; [done|]. by apply (inj (String.append _)) in H.
Qed.

Lemma escape_char_first (c : ascii) :
  exists d rest, escape_char c = String d rest /\ d <> quote_char.
Proof.
  assert (Hall : forallb (fun a => match escape_char a with
                                   | String d _ => negb (Ascii.eqb d quote_char)
                                   | EmptyString => false
                                   end) (ascii_of_nat <$> seq 0 256) = true)
    by (vm_compute; reflexivity).
  rewrite forallb_forall in Hall.
  specialize (Hall c (proj1 (list_elem_of_In _ _) (every_ascii c))).
  destruct (escape_char c) as [|d rest]; [discriminate|].
  exists d, rest. split; [done|]. intros ->. by rewrite Ascii.eqb_refl in Hall.
Qed.

Lemma escape_unique (s1 s2 r1 r2 : string) :
  escape s1 +:+ String quote_char r1 = escape s2 +:+ String quote_char r2 ->
  s1 = s2 /\ r1 = r2.
Proof.
  revert s2. induction s1 as [|c s1 IH]; intros [|d s2]; cbn [escape].
  - simpl. intros [= ->]. done.
  - rewrite app_assoc_string. destruct (escape_char_first d) as (x & rest & -> & Hx).
    simpl. intros [= Hq _]. by destruct Hx.
  - rewrite app_assoc_string. destruct (escape_char_first c) as (x & rest & -> & Hx).
    simpl. intros [= Hq _]. by destruct Hx.
  - rewrite !app_assoc_string. intros H.
    apply escape_char_unambiguous in H as [-> H].
    destruct (IH _ H) as [-> ->]. done.
Qed.

Lemma quoted_unique (s1 s2 r1 r2 : string) :
  quoted s1 +:+ r1 = quoted s2 +:+ r2 -> s1 = s2 /\ r1 = r2.
Proof.
  unfold quoted.
  rewrite !app_cons_string, !app_assoc_string, !app_cons_string, !app_nil_l_string.
  intros [= H]. by apply escape_unique.
Qed.

(** Values. *)
Lemma json_ind_nested (P : json -> Prop) :
  P JNull -> (forall b, P (JBool b)) -> (forall z, P (JInt z)) ->
  (forall s, P (JStr s)) ->
  (forall l, Forall P l -> P (JList l)) ->
  (forall items, Forall (fun kv => P (snd kv)) items -> P (JDict items)) ->
  forall v, P v.
Proof.
  intros HN HB HI HS HL HD. fix IH 1. intros [| b | z | s | l | items].
  - exact HN.
  - apply HB.
  - apply HI.
  - apply HS.
  - apply HL. induction l as [|x l IHl]; constructor; [apply IH|exact IHl].
  - apply HD. induction items as [|[k x] items IHi]; constructor;
      [apply IH|exact IHi].
Qed.

Lemma json_dumps_JList (l : list json) :
  json_dumps (JList l) = "[" +:+ dumps_elems l +:+ "]".
Proof.
  cbn [json_dumps]. do 2 f_equal.
  induction l as [|x l IH]; [reflexivity|].
  destruct l as [|y l].
  - cbn [dumps_elems]. by rewrite app_nil_r_string.
  - rewrite IH. reflexivity.
Qed.

Lemma json_dumps_JDict (items : list (string * json)) :
  json_dumps (JDict items) = "{" +:+ dumps_entries items +:+ "}".
Proof.
  cbn [json_dumps]. do 2 f_equal.
  induction items as [|[k x] items IH]; [reflexivity|].
  destruct items as [|[k' y] items].
  - cbn [dumps_entries]. by rewrite app_nil_r_string.
  - rewrite IH. reflexivity.
Qed.

(** The character a serialised value starts with tells its kind. *)
Lemma json_dumps_head (v : json) :
  exists c rest,
    json_dumps v = String c rest /\
    match v with
    | JNull => c = "n"%char
    | JBool true => c = "t"%char
    | JBool false => c = "f"%char
    | JInt _ => Ascii.is_nat c <> None \/ c = "-"%char
    | JStr _ => c = quote_char
    | JList _ => c = "["%char
    | JDict _ => c = "{"%char
    end.
Proof.
  destruct v as [| [|] | z | s | l | items].
  - by eexists _, _.
  - by eexists _, _.
  - by eexists _, _.
  - destruct (pretty_Z_first z) as (c & rest & E & Hc). by exists c, rest.
  - by eexists _, _.
  - rewrite json_dumps_JList. by eexists _, _.
  - rewrite json_dumps_JDict. by eexists _, _.
Qed.

Lemma json_dumps_head_not (v : json) (c : ascii) (rest r : string) :
  c = "]"%char \/ c = "}"%char \/ c = ","%char ->
  json_dumps v +:+ r <> String c rest.
Proof.
  intros Hc H. destruct (json_dumps_head v) as (d & t & E & Hd).
  rewrite E, app_cons_string in H. injection H as -> _.
  destruct v as [| [|] | z | s | l | items];
    destruct Hc as [-> | [-> | ->]]; try discriminate;
    destruct Hd as [Hd | Hd]; try discriminate; by destruct Hd.
Qed.

Lemma json_dumps_same_kind (a b : json) (r1 r2 : string) :
  json_dumps a +:+ r1 = json_dumps b +:+ r2 ->
  match a, b with
  | JNull, JNull | JBool true, JBool true | JBool false, JBool false
  | JInt _, JInt _ | JStr _, JStr _ | JList _, JList _ | JDict _, JDict _ => True
  | _, _ => False
  end.
Proof.
  intros H.
  destruct (json_dumps_head a) as (c1 & t1 & E1 & H1).
  destruct (json_dumps_head b) as (c2 & t2 & E2 & H2).
  rewrite E1, E2, !app_cons_string in H. injection H as Hc _. subst c2.
  destruct a as [| [|] | ? | ? | ? | ?], b as [| [|] | ? | ? | ? | ?];
    try exact I;
    repeat match goal with
           | H : _ \/ _ |- _ => destruct H
           end;
    subst; try discriminate;
    match goal with
    | H : Ascii.is_nat _ <> None |- _ => by destruct H
    end.
Qed.

Lemma dumps_elems_unique (l : list json) :
  Forall (fun a => forall b r1 r2,
            no_digit_ahead r1 -> no_digit_ahead r2 ->
            json_dumps a +:+ r1 = json_dumps b +:+ r2 -> a = b /\ r1 = r2) l ->
  forall l' r1 r2,
    dumps_elems l +:+ String "]" r1 = dumps_elems l' +:+ String "]" r2 ->
    l = l' /\ r1 = r2.
Proof.
  induction 1 as [|x l Hx Hl IH]; intros [|y l'] r1 r2 H.
  - rewrite !app_nil_l_string in H. by injection H as ->.
  - cbn [dumps_elems] in H. rewrite app_nil_l_string, app_assoc_string in H.
    symmetry in H. apply json_dumps_head_not in H; [done|by left].
  - cbn [dumps_elems] in H. rewrite app_nil_l_string, app_assoc_string in H.
    apply json_dumps_head_not in H; [done|by left].
  - cbn [dumps_elems] in H. rewrite !app_assoc_string in H.
    apply Hx in H as [-> H]; [|by destruct l|by destruct l'].
    destruct l as [|x' l], l' as [|y' l'];
      rewrite ?app_assoc_string, ?app_cons_string, ?app_nil_l_string in H.
    + by injection H as ->.
    + discriminate.
    + discriminate.
    + injection H as H. destruct (IH (y' :: l') r1 r2 H) as [E ->]. by rewrite E.
Qed.

Lemma dumps_entries_unique (items : list (string * json)) :
  Forall (fun kv => forall b r1 r2,
            no_digit_ahead r1 -> no_digit_ahead r2 ->
            json_dumps (snd kv) +:+ r1 = json_dumps b +:+ r2 ->
            snd kv = b /\ r1 = r2) items ->
  forall items' r1 r2,
    dumps_entries items +:+ String "}" r1 = dumps_entries items' +:+ String "}" r2 ->
    items = items' /\ r1 = r2.
Proof.
  induction 1 as [|[k x] items Hx Hl IH]; intros [|[k' y] items'] r1 r2 H.
  - rewrite !app_nil_l_string in H. by injection H as ->.
  - cbn [dumps_entries] in H. unfold quoted in H.
    rewrite app_nil_l_string, !app_cons_string in H. discriminate.
  - cbn [dumps_entries] in H. unfold quoted in H.
    rewrite app_nil_l_string, !app_cons_string in H. discriminate.
  - cbn [dumps_entries] in H. rewrite !app_assoc_string in H.
    apply quoted_unique in H as [-> H].
    rewrite !app_cons_string, !app_nil_l_string in H. injection H as H.
    simpl in Hx. apply Hx in H as [-> H]; [|by destruct items|by destruct items'].
    destruct items as [|kx items], items' as [|ky items'];
      rewrite ?app_assoc_string, ?app_cons_string, ?app_nil_l_string in H.
    + by injection H as ->.
    + discriminate.
    + discriminate.
    + injection H as H. destruct (IH (ky :: items') r1 r2 H) as [E ->].
      by rewrite E.
Qed.

Lemma json_dumps_unique (a : json) :
  forall b r1 r2,
    no_digit_ahead r1 -> no_digit_ahead r2 ->
    json_dumps a +:+ r1 = json_dumps b +:+ r2 -> a = b /\ r1 = r2.
Proof.
  induction a as [| x | z | s | l IH | items IH] using json_ind_nested;
    intros b r1 r2 Hr1 Hr2 H;
    pose proof (json_dumps_same_kind _ _ _ _ H) as K.
  - destruct b as [| [|] | ? | ? | ? | ?]; try done.
    by apply (inj (String.append _)) in H as ->.
  - destruct x, b as [| [|] | ? | ? | ? | ?]; try done;
      by apply (inj (String.append _)) in H as ->.
  - destruct b as [| [|] | z' | ? | ? | ?]; try done.
    cbn [json_dumps] in H.
    by destruct (pretty_Z_unique _ _ _ _ Hr1 Hr2 H) as [-> ->].
  - destruct b as [| [|] | ? | s' | ? | ?]; try done.
    cbn [json_dumps] in H. by destruct (quoted_unique _ _ _ _ H) as [-> ->].
  - destruct b as [| [|] | ? | ? | l' | ?]; try done.
    rewrite !json_dumps_JList, !app_cons_string, !app_nil_l_string,
      !app_assoc_string, !app_cons_string, !app_nil_l_string in H.
    injection H as H. by destruct (dumps_elems_unique l IH _ _ _ H) as [-> ->].
  - destruct b as [| [|] | ? | ? | ? | items']; try done.
    rewrite !json_dumps_JDict, !app_cons_string, !app_nil_l_string,
      !app_assoc_string, !app_cons_string, !app_nil_l_string in H.
    injection H as H. by destruct (dumps_entries_unique items IH _ _ _ H) as [-> ->].
Qed.

Lemma json_dumps_inj (a b : json) : json_dumps a = json_dumps b -> a = b.
Proof.
  intros H. apply (json_dumps_unique a b "" ""); [exact I|exact I|].
  by rewrite !app_nil_r_string.
Qed.

End JsonFacts.


(** ** Facts about the source nodes *)

Module SourceFacts.
Import Columns Frames Exprs Sources.

Lemma any_cloud_key_dict (items : list (string * json)) (ks : list string) :
  any_cloud_key (JDict items) ks =
  Ok (existsb (fun k => is_not_None (default JNull (assoc_lookup k items))) ks).
Proof.
  induction ks as [|k ks IH]; [reflexivity|]. simpl.
  destruct (is_not_None (default JNull (assoc_lookup k items))); [reflexivity|].
  exact IH.
Qed.

Lemma any_cloud_key_requested (cloud_options : json) :
  requests_cloud cloud_options ->
  is_not_None cloud_options = true /\
  any_cloud_key cloud_options ["aws"; "azure"; "gcp"] = Ok true.
Proof.
  intros (items & k & v & -> & Hk & Hlook & Hv). split; [reflexivity|].
  rewrite any_cloud_key_dict. f_equal. apply existsb_exists.
  exists k. split; [by apply list_elem_of_In|].
  rewrite Hlook. destruct v; [contradiction | reflexivity..].
Qed.

Lemma cloud_check_total (cloud_options : json) :
  is_None_or_dict cloud_options ->
  exists b, (if is_not_None cloud_options
             then any_cloud_key cloud_options ["aws"; "azure"; "gcp"]
             else Ok false) = Ok b.
Proof.
  intros [-> | (items & ->)]; simpl.
  - eauto.
  - change (exists b, any_cloud_key (JDict items) ["aws"; "azure"; "gcp"] = Ok b).
    rewrite any_cloud_key_dict. eauto.
Qed.

Lemma contains_checked (k : string) (v : json) :
  is_None_or_dict v ->
  exists b, (if is_not_None v then contains_str k v else Ok false) = Ok b /\
            (has_key k v -> b = true).
Proof.
  intros [-> | (items & ->)]; simpl.
  - exists false. split; [reflexivity|]. intros (items & x & Heq & _). discriminate.
  - eexists. split; [reflexivity|]. intros (items' & x & Heq & Hlook).
    injection Heq as <-. apply bool_decide_eq_true. rewrite Hlook. eauto.
Qed.

(** One refusal after the other: either this one raises, or the next runs. *)
Ltac refusal :=
  match goal with
  | |- exists msg, rbind (raise_if ?b _) _ = Raise (NotImplementedError msg) =>
    let E := fresh "E" in
    destruct b eqn:E; [eexists; reflexivity | cbn [raise_if rbind]]
  end.

(** C6. Constructing a Scan node raises [NotImplementedError], so that no
    node exists to evaluate, whenever the configuration asks for cloud
    credentials (aws, azure or gcp), for a CSV source without a header, with
    a per-column ("Named") null-value specification or with a
    multi-character comment prefix, or for the ndjson reader together with a
    row limit or a row skip. *)
Theorem Scan_init_refuses_unsupported (POLARS_VERSION_LT_128 : bool)
  (schema : Schema) (typ : string) (reader_options cloud_options : json)
  (config_options : ConfigOptions) (paths : list string)
  (with_columns : option (list string)) (skip_rows n_rows : Z)
  (row_index : option (string * Z)) (include_file_paths : option string)
  (predicate : option NamedExpr) :
  unsupported_configuration typ reader_options cloud_options skip_rows n_rows ->
  exists msg,
    Scan_init POLARS_VERSION_LT_128 schema typ reader_options cloud_options
      config_options paths with_columns skip_rows n_rows row_index
      include_file_paths predicate = Raise (NotImplementedError msg).
Proof.
  intros [Hcloud | [(Htyp & Hco & sa & po & nv & cm & hh & Hshape & Hcase)
                   | (Htyp & Hlimit)]]; unfold Scan_init.
  - refusal. refusal. refusal. refusal.
    destruct (any_cloud_key_requested _ Hcloud) as [-> ->].
    cbn [rbind raise_if]. eexists; reflexivity.
  - subst typ. refusal. refusal. refusal. refusal.
    destruct (cloud_check_total _ Hco) as (b & ->). cbn [rbind].
    refusal. refusal.
    destruct Hshape as [Hsa Hpo Hnv Hnvd Hcm Hcmd Hhh].
    change (String.eqb "csv" "csv") with true. cbn iota.
    rewrite Hsa. cbn [rbind]. refusal.
    rewrite Hpo. cbn [rbind]. rewrite Hnv. cbn [rbind].
    destruct (contains_checked "Named" nv Hnvd) as (named & -> & Hnamed).
    cbn [rbind]. refusal.
    rewrite Hcm. cbn [rbind].
    destruct (contains_checked "Multi" cm Hcmd) as (multi & -> & Hmulti).
    cbn [rbind]. refusal.
    rewrite Hhh. cbn [rbind].
    destruct Hcase as [Hheader | [Hn | Hm]].
    + rewrite Hheader. eexists; reflexivity.
    + specialize (Hnamed Hn). congruence.
    + specialize (Hmulti Hm). congruence.
  - subst typ. refusal.
    assert (Hb : Z.eqb n_rows (-1) = false \/ Z.eqb skip_rows 0 = false).
    { destruct Hlimit as [H | H]; [left | right]; by apply Z.eqb_neq. }
    assert (String.eqb "ndjson" "ndjson"
            && (negb (Z.eqb n_rows (-1)) || negb (Z.eqb skip_rows 0)) = true) as ->.
    { destruct Hb as [-> | ->]; simpl; [reflexivity | apply orb_true_r]. }
    eexists; reflexivity.
Qed.

Lemma Scan_init_refuses_unsupported_witness :
  exists msg,
    Scan_init false [("a", INT64)] "csv" (csv_options false JNull JNull) JNull
      default_config ["data.csv"] None 0 (-1) None None None
    = Raise (NotImplementedError msg).
Proof.
  apply Scan_init_refuses_unsupported.
  right. left. split; [reflexivity|]. split; [left; reflexivity|].
  exists (JInt 0), (csv_parse_options JNull JNull), JNull, JNull, (JBool false).
  split.
  - constructor; try reflexivity; left; reflexivity.
  - left. reflexivity.
Defined.

(** The refusals one by one, on example configurations. *)
Lemma Scan_init_examples :
  Scan_init false [("a", INT64)] "csv" (csv_options false JNull JNull) JNull
    default_config ["data.csv"] None 0 (-1) None None None
    = Raise (NotImplementedError "Reading CSV without header") /\
  Scan_init false [("a", INT64)] "csv"
    (csv_options true (JDict [("Named", JList [])]) JNull) JNull
    default_config ["data.csv"] None 0 (-1) None None None
    = Raise (NotImplementedError
               "Per column null value specification not supported for CSV reader") /\
  Scan_init false [("a", INT64)] "csv"
    (csv_options true JNull (JDict [("Multi", JStr "//")])) JNull
    default_config ["data.csv"] None 0 (-1) None None None
    = Raise (NotImplementedError
               "Multi-character comment prefix not supported for CSV reader") /\
  Scan_init false [("a", INT64)] "ndjson" (JDict [("ignore_errors", JBool false)]) JNull
    default_config ["data.jsonl"] None 0 10 None None None
    = Raise (NotImplementedError "row limit in scan for json reader") /\
  Scan_init false [("a", INT64)] "parquet" parquet_options_1
    (JDict [("aws", JDict [("region", JStr "eu")])])
    default_config ["s3://bucket/data.parquet"] None 0 (-1) None None None
    = Raise (NotImplementedError "Read from cloud storage") /\
  Scan_init false [("a", INT64)] "csv" (csv_options true JNull JNull) JNull
    default_config ["data.csv"] None 0 (-1) None None None
    = Ok (mkScan [("a", INT64)] "csv" (csv_options true JNull JNull) JNull
            default_config ["data.csv"] None 0 (-1) None None None).
Proof. vm_compute. repeat split; reflexivity. Qed.

(** C7 (as amended). Two Scan nodes have the same hashable representation
    exactly when they agree on the schema as a sequence of (name, type)
    pairs and on every parameter, the option dictionaries with the
    insertion order of their keys: [json.dumps] is deterministic and
    one-to-one on option values, and it keeps the insertion order, so that
    any difference between the option values of two nodes, a different
    order of the same items included, gives different representations. Two
    DataFrameScan nodes have the same representation exactly when they agree
    on the schema sequence, the identifier drawn at construction, the
    projection and the config options; the table's contents play no part. *)
Theorem hashable_determined_by_parameters :
  (forall a b : Scan, Scan_get_hashable a = Scan_get_hashable b <-> a = b) /\
  (forall a b : Scan,
     reader_options a <> reader_options b \/ cloud_options a <> cloud_options b ->
     Scan_get_hashable a <> Scan_get_hashable b) /\
  (forall a b : DataFrameScan,
     DataFrameScan_same_parameters a b <->
     DataFrameScan_get_hashable a = DataFrameScan_get_hashable b) /\
  (forall schema df1 df2 projection config_options drawn,
     DataFrameScan_get_hashable
       (DataFrameScan_init schema df1 projection config_options drawn) =
     DataFrameScan_get_hashable
       (DataFrameScan_init schema df2 projection config_options drawn)).
Proof.
  assert (Hscan : forall a b : Scan,
            Scan_get_hashable a = Scan_get_hashable b -> a = b).
  { intros a b H. unfold Scan_get_hashable in H.
    injection H as Hs Ht Hr Hc Hcfg Hp Hw Hsk Hn Hri Hi Hpr.
    apply JsonFacts.json_dumps_inj in Hr, Hc.
    destruct a, b. cbn in *. congruence. }
  split; [|split; [|split]].
  - intros a b. split; [apply Hscan|by intros ->].
  - intros a b Hne H. apply Hscan in H. subst b. by destruct Hne.
  - intros a b. split.
    + intros (Hs & Hid & Hp & Hc). unfold DataFrameScan_get_hashable. congruence.
    + intros H. unfold DataFrameScan_get_hashable in H.
      injection H as Hs Hid Hp Hc.
      unfold DataFrameScan_same_parameters. repeat split; assumption.
  - intros. reflexivity.
Qed.

Lemma hashable_determined_by_parameters_witness :
  Scan_get_hashable scan_1 <> Scan_get_hashable scan_2 /\
  DataFrameScan_get_hashable
    (DataFrameScan_init [("a", INT64)] Select.frame_ab None default_config 42) =
  DataFrameScan_get_hashable
    (DataFrameScan_init [("a", INT64)] CSE.frame_a None default_config 42).
Proof.
  destruct hashable_determined_by_parameters as (_ & Hdiff & _ & Hdf).
  split.
  - apply Hdiff. left. discriminate.
  - apply Hdf.
Defined.

(** C7 (as stated) fails: two Scan nodes whose reader options hold the same
    items, inserted in a different order, are both constructed, have equal
    option dictionaries, and get different hashable representations. *)
Lemma scan_key_order_changes_hashable :
  Scan_init false [("a", INT64)] "parquet" parquet_options_1 JNull default_config
    ["data.parquet"] None 0 (-1) None None None = Ok scan_1 /\
  Scan_init false [("a", INT64)] "parquet" parquet_options_2 JNull default_config
    ["data.parquet"] None 0 (-1) None None None = Ok scan_2 /\
  Scan_same_meaning scan_1 scan_2 /\
  Scan_get_hashable scan_1 <> Scan_get_hashable scan_2.
Proof.
  split; [vm_compute; reflexivity|].
  split; [vm_compute; reflexivity|].
  split; [repeat split; vm_compute; reflexivity|].
  vm_compute. discriminate.
Qed.

(** Two DataFrameScan nodes built from the same arguments differ in their
    representation as soon as the drawn identifiers differ. *)
Lemma dataframescan_identifier_changes_hashable :
  DataFrameScan_get_hashable
    (DataFrameScan_init [("a", INT64)] CSE.frame_a None default_config 1) <>
  DataFrameScan_get_hashable
    (DataFrameScan_init [("a", INT64)] CSE.frame_a None default_config 2).
Proof. vm_compute. discriminate. Qed.

End SourceFacts.

(** ** Facts about the order of joins *)

Module JoinFacts.
Import Columns Frames Engine EngineFacts Joins.

Lemma order_key_in_bounds (n : nat) (i : Z) :
  (0 <= i < Z.of_nat n)%Z -> order_key n i = Some i.
Proof.
  intros Hi. unfold order_key.
  replace ((0 <=? i) && (i <? Z.of_nat n))%Z with true; [reflexivity|].
  symmetry. apply andb_true_intro. split; [apply Z.leb_le | apply Z.ltb_lt]; lia.
Qed.

Lemma gather_cell_sequence (policy : OutOfBoundsPolicy) (n : nat) (i : Z) :
  policy = NULLIFY \/ (0 <= i < Z.of_nat n)%Z ->
  gather_cell (sequence n 0 1) policy i = Ok (order_key n i).
Proof.
  intros Hp. unfold gather_cell, order_key. rewrite sequence_length.
  destruct ((0 <=? i) && (i <? Z.of_nat n))%Z eqn:E1.
  - apply andb_prop in E1 as [H0 Hn]. apply Z.leb_le in H0. apply Z.ltb_lt in Hn.
    rewrite sequence_lookup by lia. simpl. do 2 f_equal. lia.
  - destruct ((- Z.of_nat n <=? i) && (i <? 0))%Z eqn:E2.
    + apply andb_prop in E2 as [H0 Hn]. apply Z.leb_le in H0. apply Z.ltb_lt in Hn.
      rewrite sequence_lookup by lia. simpl. do 2 f_equal. lia.
    + destruct Hp as [-> | Hi]; [reflexivity|].
      exfalso. apply andb_false_iff in E1 as [H | H];
        [apply Z.leb_gt in H | apply Z.ltb_ge in H]; lia.
Qed.

Lemma gather_sequence (policy : OutOfBoundsPolicy) (n : nat) (gather_map : list cell) :
  Forall (fun c => exists i, c = Some i /\
            (policy = NULLIFY \/ (0 <= i < Z.of_nat n)%Z)) gather_map ->
  gather [sequence n 0 1] gather_map policy = Ok [entry_key n <$> gather_map].
Proof.
  intros Hall.
  rewrite (gather_Ok _ _ _ (fun _ i => order_key n i)).
  - reflexivity.
  - eapply Forall_impl; [exact Hall|]. intros c (i & -> & Hi).
    exists i. split; [reflexivity|]. constructor; [|constructor].
    by apply gather_cell_sequence.
Qed.

Lemma zip_rows_pack (kl kr : cell -> cell) (lg rg : list cell) :
  zip ((fun p => [fst p; snd p]) <$> zip (kl <$> lg) (kr <$> rg))
      ((fun p => [fst p; snd p]) <$> zip lg rg) =
  (fun p => ([kl (fst p); kr (snd p)], [fst p; snd p])) <$> zip lg rg.
Proof.
  revert rg. induction lg as [|x lg IH]; intros [|y rg]; try reflexivity.
  simpl. f_equal. apply IH.
Qed.

(** What [_reorder_maps] returns for the maps of a left join. *)
Lemma _reorder_maps_sorted_pairs (left_rows right_rows : nat) (lg rg : list cell) :
  length lg = length rg ->
  Forall (fun c => exists i, c = Some i /\ (0 <= i < Z.of_nat left_rows)%Z) lg ->
  Forall (fun c => exists j, c = Some j) rg ->
  _reorder_maps left_rows lg DONT_CHECK right_rows rg NULLIFY =
  Ok [(sorted_pairs left_rows right_rows lg rg).*1;
      (sorted_pairs left_rows right_rows lg rg).*2].
Proof.
  intros Hlen Hlg Hrg. unfold _reorder_maps.
  rewrite (gather_sequence DONT_CHECK left_rows lg).
  2:{ eapply Forall_impl; [exact Hlg|]. intros c (i & -> & Hi). eauto. }
  cbn [rbind].
  rewrite (gather_sequence NULLIFY right_rows rg).
  2:{ eapply Forall_impl; [exact Hrg|]. intros c (j & ->). eauto. }
  cbn [rbind app]. unfold stable_sort_by_key.
  cbn [num_rows length]. rewrite length_fmap, Nat.eqb_refl. cbn [negb orb Nat.eqb].
  rewrite !rows_two_columns by (rewrite ?length_fmap; assumption).
  rewrite zip_rows_pack.
  rewrite (stable_sort_fmap
             (fun p => ([entry_key left_rows (fst p); entry_key right_rows (snd p)],
                        [fst p; snd p]))
             (fun p q => rows_leb (zip [ASCENDING; ASCENDING] [AFTER; AFTER])
                           (fst p) (fst q))).
  rewrite columns_of_two, <- !list_fmap_compose. reflexivity.
Qed.

Lemma pair_leb_total left_rows right_rows p q :
  pair_leb left_rows right_rows p q = true \/ pair_leb left_rows right_rows q p = true.
Proof. apply rows_leb_total. Qed.

Lemma pair_leb_trans left_rows right_rows p q r :
  pair_leb left_rows right_rows p q = true ->
  pair_leb left_rows right_rows q r = true ->
  pair_leb left_rows right_rows p r = true.
Proof. apply rows_leb_trans; reflexivity. Qed.

Lemma sorted_pairs_Permutation left_rows right_rows lg rg :
  Permutation (sorted_pairs left_rows right_rows lg rg) (zip lg rg).
Proof. apply stable_sort_Permutation. Qed.

Lemma sorted_pairs_StronglySorted left_rows right_rows lg rg :
  StronglySorted (fun p q => pair_leb left_rows right_rows p q = true)
    (sorted_pairs left_rows right_rows lg rg).
Proof.
  apply (stable_sort_StronglySorted _ (fun _ => True)).
  - apply pair_leb_total.
  - intros x y z _ _ _. apply pair_leb_trans.
  - apply Forall_forall. auto.
Qed.

Lemma pair_leb_order left_rows right_rows (a b c d : Z) :
  (0 <= a < Z.of_nat left_rows)%Z -> (0 <= c < Z.of_nat left_rows)%Z ->
  pair_leb left_rows right_rows (Some a, Some b) (Some c, Some d) = true ->
  (a <= c)%Z /\
  (a = c -> key_le_nulls_last (order_key right_rows b) (order_key right_rows d)).
Proof.
  intros Ha Hc. unfold pair_leb, rows_leb. cbn [fst snd].
  change (entry_key left_rows (Some a)) with (order_key left_rows a).
  change (entry_key left_rows (Some c)) with (order_key left_rows c).
  change (entry_key right_rows (Some b)) with (order_key right_rows b).
  change (entry_key right_rows (Some d)) with (order_key right_rows d).
  rewrite (order_key_in_bounds left_rows a Ha), (order_key_in_bounds left_rows c Hc).
  cbn [ascending_nulls_last compare_rows compare_cell fst snd compare_ascending].
  destruct (Z.compare_spec a c) as [-> | Hlt | Hgt].
  - intros H. split; [lia|]. intros _.
    destruct (order_key right_rows b) as [x|], (order_key right_rows d) as [y|];
      cbn in *; try exact I; try discriminate.
    destruct (Z.compare_spec x y); try discriminate; lia.
  - intros _. split; [lia | intros; lia].
  - discriminate.
Qed.

Lemma zip_Forall_entries (left_rows : nat) (lg rg : list cell) :
  Forall (fun c => exists i, c = Some i /\ (0 <= i < Z.of_nat left_rows)%Z) lg ->
  Forall (fun c => exists j, c = Some j) rg ->
  Forall (fun p => (exists i, fst p = Some i /\ (0 <= i < Z.of_nat left_rows)%Z) /\
                   (exists j, snd p = Some j)) (zip lg rg).
Proof.
  intros Hlg. revert rg. induction Hlg as [|x lg Hx Hlg IH]; intros rg Hrg.
  - constructor.
  - destruct Hrg as [|y rg Hy Hrg]; [constructor|].
    simpl. constructor; [split; assumption | apply IH; assumption].
Qed.

Lemma gather_rows (t : Table) (gather_map : list cell) (n : nat) :
  Forall (fun col => length col = n) t ->
  Forall (fun c => exists i, c = Some i /\ (0 <= i < Z.of_nat n)%Z) gather_map ->
  exists t',
    gather t gather_map DONT_CHECK = Ok t' /\
    length t' = length t /\
    Forall (fun col => length col = length gather_map) t' /\
    forall (p : nat) (a : Z), gather_map !! p = Some (Some a) ->
      row t' p = row t (Z.to_nat a).
Proof.
  intros Hrect Hmap.
  eexists. split; [|split; [|split]].
  - apply (gather_Ok _ _ _ (fun col i => default None (col !! Z.to_nat i))).
    eapply Forall_impl; [exact Hmap|]. intros c (i & -> & Hi).
    exists i. split; [reflexivity|].
    eapply Forall_impl; [exact Hrect|]. intros col Hcol. simpl in Hcol.
    apply gather_cell_in_bounds. lia.
  - apply length_fmap.
  - apply Forall_fmap, Forall_forall. intros col _. simpl. apply length_fmap.
  - intros p a Hp. unfold row. rewrite <- list_fmap_compose.
    apply list_fmap_ext. intros _ col _. simpl.
    rewrite list_lookup_fmap, Hp. reflexivity.
Qed.

Lemma gather_cell_order_key (col : list cell) (n : nat) (b : Z) :
  length col = n ->
  gather_cell col NULLIFY b =
  Ok (match order_key n b with
      | Some j => default None (col !! Z.to_nat j)
      | None => None
      end).
Proof.
  intros <-. unfold gather_cell, order_key.
  destruct (_ && _); [reflexivity|]. destruct (_ && _); reflexivity.
Qed.

Lemma gather_nullify_rows (t : Table) (gather_map : list cell) (n : nat) :
  Forall (fun c => exists j, c = Some j) gather_map ->
  exists t',
    gather t gather_map NULLIFY = Ok t' /\
    length t' = length t /\
    Forall (fun col => length col = length gather_map) t' /\
    (Forall (fun col => length col = n) t ->
     forall (p : nat) (b : Z), gather_map !! p = Some (Some b) ->
       row t' p = match order_key n b with
                  | Some j => row t (Z.to_nat j)
                  | None => replicate (length t) None
                  end).
Proof.
  intros Hmap.
  eexists. split; [|split; [|split]].
  - apply (gather_Ok _ _ _
             (fun col i => match gather_cell col NULLIFY i with
                           | Ok v => v
                           | Raise _ => None
                           end)).
    eapply Forall_impl; [exact Hmap|]. intros c (j & ->).
    exists j. split; [reflexivity|]. apply Forall_forall. intros col _.
    destruct (gather_cell_nullify col j) as (v & ->). reflexivity.
  - apply length_fmap.
  - apply Forall_fmap, Forall_forall. intros col _. simpl. apply length_fmap.
  - intros Hrect p b Hp. unfold row. rewrite <- list_fmap_compose.
    clear Hmap. induction Hrect as [|col t Hcol Hrect IH].
    + by destruct (order_key n b).
    + rewrite fmap_cons. cbn [length replicate]. rewrite IH.
      assert (Hc : (compose (fun col0 : list cell => default None (col0 !! p))
                      (fun col0 : list cell =>
                         (fun c : cell =>
                            match gather_cell col0 NULLIFY (default 0 c) with
                            | Ok v => v
                            | Raise _ => None
                            end) <$> gather_map)) col
                   = match order_key n b with
                     | Some j => default None (col !! Z.to_nat j)
                     | None => None
                     end).
      { simpl. rewrite list_lookup_fmap, Hp. simpl.
        by rewrite (gather_cell_order_key col n b Hcol). }
      rewrite Hc. by destruct (order_key n b).
Qed.

(** C3. For a Left join, and for a Right join (whose probe side is the
    right frame, after the operand swap), with a join primitive that returns
    its matching gather maps in any order: the maps the output is gathered
    through are the primitive's pairs stably sorted by the rows they select
    (the sequence 0, ..., n-1 gathered through each map under its own
    policy), ascending with nulls last; so they are a rearrangement of the
    pairs in which the probe row index ascends and, for one probe row, the
    rows selected on the other side ascend with the entries that select no
    row last, pairs that select the same rows keeping their order; every
    output row carries the probe row its map entry names, so the output
    keeps the probe side's row order and, among the matches of one probe
    row, the other side's row order. The two output tables have the columns
    of their sides and one row per pair of map entries, and every row of
    the other side's output is the row of the other frame that its map
    entry selects, or all nulls where the entry selects none. *)
Theorem left_right_join_keeps_probe_order
  (inner_join left_join full_join : Table -> Table -> NullEquality -> list cell * list cell)
  (how : JoinType) (nulls_equal : bool)
  (left_df right_df left_on right_on : DataFrame) :
  how = Left \/ how = Right ->
  left_join_contract left_join ->
  let probe := match how with Right => right_df | _ => left_df end in
  let other := match how with Right => left_df | _ => right_df end in
  let probe_on := match how with Right => right_on | _ => left_on end in
  let other_on := match how with Right => left_on | _ => right_on end in
  let unordered :=
    left_join (table probe_on) (table other_on)
      (if nulls_equal then EQUAL else UNEQUAL) in
  rectangular probe ->
  Engine.num_rows (table probe_on) = Frames.num_rows probe ->
  exists probe_table other_table lg rg,
    gathered_sides inner_join left_join full_join how nulls_equal
      left_df right_df left_on right_on = Ok (probe_table, other_table, lg, rg) /\
    zip lg rg = sorted_pairs (Frames.num_rows probe) (Frames.num_rows other)
                  (fst unordered) (snd unordered) /\
    Permutation (zip lg rg) (zip (fst unordered) (snd unordered)) /\
    (forall k : cell * cell,
       List.filter
         (same_key (pair_leb (Frames.num_rows probe) (Frames.num_rows other)) k)
         (zip lg rg) =
       List.filter
         (same_key (pair_leb (Frames.num_rows probe) (Frames.num_rows other)) k)
         (zip (fst unordered) (snd unordered))) /\
    maps_in_probe_order (Frames.num_rows other) lg rg /\
    (forall p : nat, (p < length lg)%nat ->
       exists a, lg !! p = Some (Some a) /\
                 (0 <= a < Z.of_nat (Frames.num_rows probe))%Z /\
                 row probe_table p = row (table probe) (Z.to_nat a)) /\
    length lg = length rg /\
    length probe_table = length (table probe) /\
    length other_table = length (table other) /\
    Forall (fun col => length col = length lg) probe_table /\
    Forall (fun col => length col = length rg) other_table /\
    (rectangular other ->
     forall p : nat, (p < length rg)%nat ->
       exists b, rg !! p = Some (Some b) /\
                 row other_table p =
                 match order_key (Frames.num_rows other) b with
                 | Some j => row (table other) (Z.to_nat j)
                 | None => replicate (length (table other)) None
                 end).
Proof.
  intros Hhow Hcontract probe other probe_on other_on unordered Hrect Hrows.
  destruct (Hcontract (table probe_on) (table other_on)
              (if nulls_equal then EQUAL else UNEQUAL)) as (Hlen & Hlg & Hrg).
  fold unordered in Hlen, Hlg, Hrg. rewrite Hrows in Hlg.
  set (S := sorted_pairs (Frames.num_rows probe) (Frames.num_rows other)
              (fst unordered) (snd unordered)).
  assert (Hentries :
            Forall (fun p => (exists i, fst p = Some i /\
                                (0 <= i < Z.of_nat (Frames.num_rows probe))%Z) /\
                             (exists j, snd p = Some j)) S).
  { unfold S. rewrite sorted_pairs_Permutation. by apply zip_Forall_entries. }
  assert (Hfst : Forall (fun c => exists i, c = Some i /\
                           (0 <= i < Z.of_nat (Frames.num_rows probe))%Z) (S.*1)).
  { apply Forall_fmap. eapply Forall_impl; [exact Hentries|]. intros p [H _]. exact H. }
  assert (Hsnd : Forall (fun c => exists j, c = Some j) (S.*2)).
  { apply Forall_fmap. eapply Forall_impl; [exact Hentries|]. intros p [_ H]. exact H. }
  assert (Hcols : Forall (fun col => length col = Frames.num_rows probe) (table probe)).
  { unfold table. apply Forall_fmap. exact Hrect. }
  destruct (gather_rows (table probe) (S.*1) _ Hcols Hfst)
    as (pt & Hpt & Hpt_width & Hpt_len & Hprow).
  destruct (gather_nullify_rows (table other) (S.*2) (Frames.num_rows other) Hsnd)
    as (ot & Hot & Hot_width & Hot_len & Horow).
  exists pt, ot, (S.*1), (S.*2).
  split; [|split; [|split; [|split; [|split; [|split; [|split; [|split; [|split;
    [|split; [|split]]]]]]]]]];
    [| | | | | |by rewrite !length_fmap|exact Hpt_width|exact Hot_width
     |exact Hpt_len|exact Hot_len|].
  - unfold gathered_sides.
    assert (Hre : _reorder_maps (Frames.num_rows probe) (fst unordered) DONT_CHECK
                    (Frames.num_rows other) (snd unordered) NULLIFY
                  = Ok [S.*1; S.*2])
      by (by apply _reorder_maps_sorted_pairs).
    destruct Hhow as [-> | ->]; cbn [_joiners is_left_or_right];
      subst probe other probe_on other_on; cbn iota in *;
      fold unordered; destruct unordered as [lg0 rg0]; cbn [fst snd] in *;
      rewrite Hre; cbn [rbind]; rewrite Hpt; cbn [rbind]; rewrite Hot; reflexivity.
  - apply zip_fst_snd.
  - rewrite zip_fst_snd. apply sorted_pairs_Permutation.
  - intros k. rewrite zip_fst_snd. unfold S, sorted_pairs.
    apply (stable_sort_stable _ (fun _ => True)).
    + intros x y z _ _ _. apply pair_leb_trans.
    + exact I.
    + apply Forall_forall. auto.
  - intros p q a b c d Hpq Hpa Hpb Hqc Hqd.
    rewrite list_lookup_fmap in Hpa, Hpb, Hqc, Hqd.
    destruct (S !! p) as [[x1 y1]|] eqn:Ep; [|discriminate].
    destruct (S !! q) as [[x2 y2]|] eqn:Eq; [|discriminate].
    simpl in *. injection Hpa as ->. injection Hpb as ->.
    injection Hqc as ->. injection Hqd as ->.
    pose proof (StronglySorted_lookup_lt _ _ _ _ _ _
                  (sorted_pairs_StronglySorted _ _ _ _) Hpq Ep Eq) as Hle.
    rewrite Forall_forall in Hentries.
    destruct (Hentries _ (list_elem_of_lookup_2 _ _ _ Ep)) as [(i & Hi & Hir) _].
    destruct (Hentries _ (list_elem_of_lookup_2 _ _ _ Eq)) as [(j & Hj & Hjr) _].
    simpl in Hi, Hj. injection Hi as ->. injection Hj as ->.
    eapply pair_leb_order; eauto.
  - intros p Hp. rewrite length_fmap in Hp.
    destruct (lookup_lt_is_Some_2 S p Hp) as [[x y] Ex].
    rewrite Forall_forall in Hentries.
    destruct (Hentries _ (list_elem_of_lookup_2 _ _ _ Ex)) as [(a & Ha & Har) _].
    simpl in Ha. subst x. exists a.
    assert (Hl : S.*1 !! p = Some (Some a)) by (by rewrite list_lookup_fmap, Ex).
    split; [exact Hl|]. split; [exact Har|]. by apply Hprow.
  - intros Hrect_other p Hp. rewrite length_fmap in Hp.
    destruct (lookup_lt_is_Some_2 S p Hp) as [[x y] Ex].
    rewrite Forall_forall in Hentries.
    destruct (Hentries _ (list_elem_of_lookup_2 _ _ _ Ex)) as [_ (b & Hb)].
    simpl in Hb. subst y. exists b.
    assert (Hr : S.*2 !! p = Some (Some b)) by (by rewrite list_lookup_fmap, Ex).
    split; [exact Hr|]. apply Horow; [|exact Hr].
    unfold table. apply Forall_fmap. exact Hrect_other.
Qed.

Lemma unordered_left_join_contract : left_join_contract unordered_left_join.
Proof.
  intros l r ne. unfold unordered_left_join.
  assert (Hempty : length (fst (([] : list cell), ([] : list cell))) =
                   length (snd (([] : list cell), ([] : list cell))) /\
                   Forall (fun c => exists i, c = Some i /\
                             (0 <= i < Z.of_nat (Engine.num_rows l))%Z) [] /\
                   Forall (fun c : cell => exists j, c = Some j) []).
  { split; [reflexivity|]. split; apply Forall_nil; exact I. }
  destruct (Engine.num_rows l) as [|[|[|[|n]]]]; try exact Hempty.
  cbn [fst snd length]. split; [reflexivity|]. split.
  - repeat (apply Forall_cons; split; [eexists; split; [reflexivity | lia]|]).
    apply Forall_nil. exact I.
  - repeat (apply Forall_cons; split; [eexists; reflexivity|]).
    apply Forall_nil. exact I.
Qed.

Lemma left_right_join_keeps_probe_order_witness :
  exists probe_table other_table lg rg,
    gathered_sides unordered_left_join unordered_left_join unordered_left_join
      Left false frame_k123 frame_k224 frame_k123 frame_k224
      = Ok (probe_table, other_table, lg, rg) /\
    Permutation (zip lg rg)
      (zip (fst (unordered_left_join (table frame_k123) (table frame_k224) UNEQUAL))
           (snd (unordered_left_join (table frame_k123) (table frame_k224) UNEQUAL))) /\
    maps_in_probe_order (Frames.num_rows frame_k224) lg rg /\
    length other_table = length (table frame_k224) /\
    forall p : nat, (p < length rg)%nat ->
      exists b, rg !! p = Some (Some b) /\
                row other_table p =
                match order_key (Frames.num_rows frame_k224) b with
                | Some j => row (table frame_k224) (Z.to_nat j)
                | None => replicate (length (table frame_k224)) None
                end.
Proof.
  destruct (left_right_join_keeps_probe_order
              unordered_left_join unordered_left_join unordered_left_join
              Left false frame_k123 frame_k224 frame_k123 frame_k224)
    as (pt & ot & lg & rg & Hev & _ & Hperm & _ & Horder & _ & _ & _ & Hwidth
        & _ & _ & Hrows).
  - left. reflexivity.
  - exact unordered_left_join_contract.
  - repeat constructor.
  - reflexivity.
  - exists pt, ot, lg, rg. split; [exact Hev|]. split; [exact Hperm|].
    split; [exact Horder|]. split; [exact Hwidth|].
    apply Hrows. repeat constructor.
Defined.

(** Scenario B: the left join of keys 1, 2, 3 with keys 2, 2, 4 keeps the
    left rows in the order 1, 2, 2, 3, the two matches of key 2 in the right
    table's order, and nulls on the right of keys 1 and 3. *)
Lemma left_join_scenario_B :
  gathered_sides unordered_left_join unordered_left_join unordered_left_join
    Left false frame_k123 frame_k224 frame_k123 frame_k224
  = Ok ([[Some 1; Some 2; Some 2; Some 3]],
        [[None; Some 2; Some 2; None]],
        [Some 0; Some 1; Some 1; Some 2],
        [Some no_match; Some 0; Some 1; Some no_match]).
Proof. vm_compute. reflexivity. Qed.

End JoinFacts.

(** ** Facts about the order of groups *)

Module GroupByFacts.
Import Columns Frames Exprs Engine EngineFacts BroadcastFacts JoinFacts GroupBys.

Lemma keep_first_from_elem (seen l : list (list cell)) (x : list cell) :
  x ∈ keep_first_from seen l <-> x ∈ l /\ x ∉ seen.
Proof.
  revert seen. induction l as [|r l IH]; intros seen; simpl.
  - split; [intros H; by apply elem_of_nil in H | intros [H _]; by apply elem_of_nil in H].
  - destruct (decide (r ∈ seen)) as [Hin|Hnin].
    + rewrite IH, elem_of_cons. split.
      * intros [H1 H2]. auto.
      * intros [[-> | H1] H2]; [contradiction | auto].
    + rewrite !elem_of_cons, IH, not_elem_of_cons. split.
      * intros [-> | [H1 [H2 H3]]]; auto.
      * intros [[-> | H1] H2]; [auto|].
        destruct (decide (x = r)) as [-> | Hne]; auto.
Qed.

Lemma keep_first_from_NoDup (seen l : list (list cell)) :
  NoDup (keep_first_from seen l).
Proof.
  revert seen. induction l as [|r l IH]; intros seen; simpl; [constructor|].
  destruct (decide (r ∈ seen)); [apply IH|].
  constructor; [|apply IH].
  rewrite keep_first_from_elem, not_elem_of_cons. intros [_ [H _]]. congruence.
Qed.

Lemma keep_first_NoDup l : NoDup (keep_first l).
Proof. apply keep_first_from_NoDup. Qed.

Lemma keep_first_elem l x : x ∈ keep_first l <-> x ∈ l.
Proof.
  unfold keep_first. rewrite keep_first_from_elem. split; [by intros [H _]|].
  intros H. split; [assumption|]. apply not_elem_of_nil.
Qed.

Lemma keep_first_Forall (P : list cell -> Prop) l : Forall P l -> Forall P (keep_first l).
Proof.
  rewrite !Forall_forall. intros H x Hx. apply H. by apply keep_first_elem.
Qed.

Lemma zip_strict_Ok {A B} (l : list A) (k : list B) :
  length l = length k -> zip_strict l k = Ok (zip l k).
Proof.
  revert k. induction l as [|a l IH]; intros [|b k] Hlen; try discriminate;
    [reflexivity|].
  simpl. rewrite IH by (simpl in Hlen; lia). reflexivity.
Qed.

Lemma rmapM_length {A B} (f : A -> result B) (l : list A) (out : list B) :
  rmapM f l = Ok out -> length out = length l.
Proof.
  revert out. induction l as [|a l IH]; intros out H; simpl in H.
  - by injection H as <-.
  - destruct (f a); [|discriminate]. simpl in H.
    destruct (rmapM f l) eqn:E; [|discriminate]. simpl in H.
    injection H as <-. simpl. f_equal. by apply IH.
Qed.

Lemma singleton_by_NoDup (m : list nat) (j0 : nat) :
  NoDup m -> (forall j, j ∈ m <-> j = j0) -> m = [j0].
Proof.
  intros Hnd Hm. destruct m as [|a m].
  - exfalso. apply (not_elem_of_nil j0). by apply Hm.
  - assert (a = j0) as -> by (apply Hm; left).
    apply NoDup_cons in Hnd as [Hnot Hnd]. f_equal.
    destruct m as [|b m]; [reflexivity|]. exfalso.
    assert (b = j0) as -> by (apply Hm; right; left).
    apply Hnot. left.
Qed.

Lemma bind_singletons {A B} (f : A -> list B) (g : A -> B) (l : list A) :
  (forall a, a ∈ l -> f a = [g a]) -> l ≫= f = g <$> l.
Proof.
  induction l as [|a l IH]; intros H; [reflexivity|].
  rewrite bind_cons, fmap_cons, (H a) by left. simpl. f_equal.
  apply IH. intros b Hb. apply H. by right.
Qed.

(** Between a table without repeated rows and a table whose rows are a
    rearrangement of its rows, every row has one match. *)
Lemma matching_pairs_bijection (want have : Table) :
  NoDup (rows have) -> Permutation (rows have) (rows want) ->
  exists pi : nat -> nat,
    matching_pairs want have =
      (fun i => (index_cell i, index_cell (pi i))) <$> seq 0 (num_rows want) /\
    forall i, (i < num_rows want)%nat ->
      (pi i < num_rows have)%nat /\ row have (pi i) = row want i.
Proof.
  intros Hnd Hperm.
  exists (fun i => hd 0%nat (matches_of want have i)).
  assert (Hone : forall i, (i < num_rows want)%nat ->
            exists j, matches_of want have i = [j] /\
                      (j < num_rows have)%nat /\ row have j = row want i).
  { intros i Hi.
    assert (Hin : row want i ∈ rows have).
    { rewrite Hperm. eapply list_elem_of_lookup_2. by apply rows_lookup. }
    apply list_elem_of_lookup_1 in Hin as (j0 & Hj0).
    assert (Hj0lt : (j0 < num_rows have)%nat).
    { rewrite <- rows_length. by eapply lookup_lt_Some. }
    pose proof Hj0 as Hrow. rewrite rows_lookup in Hrow by assumption.
    injection Hrow as Hrow.
    exists j0. split; [|split; assumption].
    apply singleton_by_NoDup.
    - unfold matches_of. apply NoDup_filter, NoDup_seq.
    - intros j. unfold matches_of. rewrite list_elem_of_filter, elem_of_seq. split.
      + intros [Heq [_ Hj]]. simpl in Hj.
        eapply NoDup_lookup; [exact Hnd | | exact Hj0].
        rewrite rows_lookup by lia. by rewrite Heq.
      + intros ->. split; [by rewrite Hrow|]. simpl. lia. }
  split.
  - unfold matching_pairs. apply bind_singletons. intros i Hi.
    apply elem_of_seq in Hi as [_ Hi]. simpl in Hi.
    destruct (Hone i Hi) as (j & -> & _). reflexivity.
  - intros i Hi. destruct (Hone i Hi) as (j & -> & Hj & Hrow). simpl. auto.
Qed.

Lemma rows_leb_single (order : Order) (null_order : NullOrder) (a b : Z) :
  rows_leb [(ASCENDING, null_order)] [Some a] [Some b] = true <-> (a <= b)%Z.
Proof.
  unfold rows_leb. cbn. destruct (Z.compare_spec a b); split; intros; try lia;
    try reflexivity; discriminate.
Qed.

Lemma StronglySorted_fmap_seq {B} (R : B -> B -> Prop) (g : nat -> B) (k n : nat) :
  (forall a b, (k <= a < b)%nat -> R (g a) (g b)) ->
  StronglySorted R (g <$> seq k n).
Proof.
  revert k. induction n as [|n IH]; intros k H; simpl; constructor.
  - apply IH. intros a b Hab. apply H. lia.
  - apply Forall_fmap, Forall_forall. intros b Hb.
    apply elem_of_seq in Hb. apply H. lia.
Qed.

Lemma row_app (t1 t2 : Table) (i : nat) : row (t1 ++ t2) i = row t1 i ++ row t2 i.
Proof. unfold row. apply fmap_app. Qed.

Lemma row_take (w : nat) (t : Table) (i : nat) : row (take w t) i = take w (row t i).
Proof. unfold row. apply fmap_take. Qed.

Section RestoreOrder.
Variable inner_join : Table -> Table -> NullEquality -> list cell * list cell.
Variable sort_by_key : Table -> Table -> list Order -> list NullOrder -> result Table.
Hypothesis Hjoin : inner_join_contract inner_join.
Hypothesis Hsort : sort_by_key_contract sort_by_key.

(** The reordering: the grouped columns [cols0], whose first columns are the
    group keys [gk], come back gathered through one map, and the key rows
    come back in the order of first appearance. *)
Lemma restore_order_spec (keys cols0 : list Column) (gk rest : Table) :
  keys <> [] ->
  obj <$> cols0 = gk ++ rest ->
  length gk = length keys ->
  Forall (fun c => length c = num_rows gk) (gk ++ rest) ->
  Permutation (rows gk) (keep_first (rows (obj <$> keys))) ->
  exists (ordered : list Column) (right_order : list cell),
    restore_order inner_join sort_by_key keys cols0 = Ok ordered /\
    name <$> ordered = name <$> cols0 /\
    gather (gk ++ rest) right_order DONT_CHECK = Ok (obj <$> ordered) /\
    rows (obj <$> take (length keys) ordered) = keep_first (rows (obj <$> keys)).
Proof.
  intros Hkeys Hobj Hlen Hrect Hperm.
  set (K := obj <$> keys) in *. set (W := keep_first (rows K)) in *.
  set (w := length keys) in *.
  assert (Hw : (0 < w)%nat) by (subst w; destruct keys; [congruence | simpl; lia]).
  assert (HKlen : length K = w) by (subst K w; apply length_fmap).
  assert (HW : Forall (fun r => length r = w) W).
  { subst W. apply keep_first_Forall. rewrite <- HKlen. apply rows_Forall_width. }
  set (want := stable_distinct K).
  assert (Hwant : rows want = W).
  { subst want. unfold stable_distinct. rewrite HKlen. by apply rows_columns_of. }
  assert (Hhave : obj <$> take w cols0 = gk).
  { rewrite fmap_take, Hobj. by apply take_app_length'. }
  assert (Hnd : NoDup (rows gk)).
  { rewrite Hperm. apply keep_first_NoDup. }
  assert (Hperm' : Permutation (rows gk) (rows want)) by (by rewrite Hwant).
  destruct (matching_pairs_bijection want gk Hnd Hperm') as (pi & Hmatch & Hpi).
  set (G := num_rows gk) in *.
  assert (HG : num_rows want = G).
  { subst G. rewrite <- !rows_length. symmetry. by apply Permutation_length. }
  rewrite HG in Hmatch, Hpi.
  set (g := fun i : nat => (index_cell i, index_cell (pi i))) in *.
  unfold restore_order. fold K want w. rewrite Hhave.
  destruct (Hjoin want gk) as (Hlens & Hpairs).
  destruct (inner_join want gk EQUAL) as [lo ro]. cbn [fst snd] in Hlens, Hpairs.
  destruct (Hsort ro lo ASCENDING AFTER (eq_sym Hlens)) as (S & HS & HSperm & HSsorted).
  rewrite HS. cbn [rbind].
  assert (HSeq : g <$> seq 0 G = S).
  { apply (StronglySorted_unique_strong
             (fun p q => rows_leb [(ASCENDING, AFTER)] [fst p] [fst q] = true)).
    - intros x1 x2 H1 H2 H12 H21.
      assert (H2' : x2 ∈ g <$> seq 0 G) by (by rewrite <- Hmatch, <- Hpairs, <- HSperm).
      apply list_elem_of_fmap in H1 as (a & -> & _).
      apply list_elem_of_fmap in H2' as (b & -> & _).
      unfold g, index_cell in H12, H21. cbn [fst] in H12, H21.
      apply (rows_leb_single ASCENDING) in H12. apply (rows_leb_single ASCENDING) in H21.
      assert (a = b) as -> by lia. reflexivity.
    - apply StronglySorted_fmap_seq. intros a b Hab.
      unfold g, index_cell. cbn [fst]. apply (rows_leb_single ASCENDING). lia.
    - exact HSsorted.
    - by rewrite HSperm, Hpairs, Hmatch. }
  set (right_order := S.*2).
  assert (Hro : right_order = (fun i => index_cell (pi i)) <$> seq 0 G).
  { subst right_order. rewrite <- HSeq, <- list_fmap_compose. reflexivity. }
  assert (Hrange : Forall (fun c => exists i, c = Some i /\ (0 <= i < Z.of_nat G)%Z)
                     right_order).
  { rewrite Hro. apply Forall_fmap, Forall_forall. intros i Hi.
    apply elem_of_seq in Hi as [_ Hi]. simpl in Hi.
    exists (Z.of_nat (pi i)). split; [reflexivity|].
    destruct (Hpi i Hi). lia. }
  rewrite Hobj.
  destruct (gather_rows (gk ++ rest) right_order G Hrect Hrange)
    as (t' & Hgather & Hwidth & Hheight & Hrow).
  rewrite Hgather. cbn [rbind].
  assert (Hcols0 : length cols0 = length (gk ++ rest)).
  { rewrite <- Hobj. symmetry. apply length_fmap. }
  rewrite zip_strict_Ok by lia. cbn [rbind].
  set (ordered := (fun p : list cell * Column => plain_column (fst p) (name (snd p)))
                    <$> zip t' cols0).
  assert (Hordered_obj : obj <$> ordered = t').
  { subst ordered. rewrite <- list_fmap_compose.
    etrans; [|apply (fst_zip t' cols0); lia]. reflexivity. }
  exists ordered, right_order. split; [reflexivity|]. split; [|split].
  - subst ordered. rewrite <- list_fmap_compose.
    transitivity (name <$> (zip t' cols0).*2);
      [by rewrite <- list_fmap_compose | by rewrite snd_zip by lia].
  - by rewrite Hordered_obj.
  - rewrite fmap_take, Hordered_obj.
    assert (Hro_len : length right_order = G).
    { rewrite Hro. by rewrite length_fmap, length_seq. }
    assert (Hn : num_rows (take w t') = G).
    { rewrite length_app in Hwidth.
      destruct t' as [|c t']; [simpl in Hwidth; lia|].
      destruct w as [|w']; [lia|]. simpl.
      inversion Hheight; subst. lia. }
    apply list_eq. intros i. fold W. rewrite <- Hwant.
    destruct (decide (i < G)%nat) as [Hi|Hi].
    + rewrite !rows_lookup by lia. f_equal.
      rewrite row_take, (Hrow i (Z.of_nat (pi i))).
      * rewrite Nat2Z.id, row_app, take_app_length' by (by rewrite row_length).
        by destruct (Hpi i Hi).
      * rewrite Hro, list_lookup_fmap, lookup_seq_lt by assumption. reflexivity.
    + rewrite !lookup_ge_None_2; [reflexivity | rewrite rows_length; lia
                                 | rewrite rows_length; lia].
Qed.

End RestoreOrder.

Lemma broadcast_same_size (cols : list Column) (G : nat) :
  Forall (fun c => size c = G) cols -> broadcast cols None = Ok cols.
Proof.
  intros Hall. destruct cols as [|c cs]; [reflexivity|].
  destruct (decide (G = 1%nat)) as [-> | HG].
  - unfold broadcast.
    pose proof (proj2 (lengths_all_one (c :: cs) ltac:(discriminate)) Hall) as Hset.
    destruct (decide _); [reflexivity | contradiction].
  - rewrite (broadcast_nonunit (c :: cs) None G); try assumption.
    + rewrite (rmapM_Ok (broadcast_column G) id).
      * by rewrite list_fmap_id.
      * eapply Forall_impl; [exact Hall|]. intros x Hx. simpl in Hx.
        unfold broadcast_column. destruct (decide (size x = 1%nat)); [lia | reflexivity].
    + discriminate.
    + eapply Forall_impl; [exact Hall|]. simpl. auto.
    + apply Exists_cons_hd. by inversion Hall.
Qed.

(** C2. With a grouping primitive that returns the groups in any order, an
    inner join that returns the matching pairs in any order and an unstable
    sort: a GroupBy with [maintain_order] whose (broadcast) key columns are
    not all marked sorted returns (before the final slice) the columns of
    the primitive, keys and aggregates alike, gathered through one map, and
    the rows of the key columns are the distinct key combinations of the
    input in the order of their first appearance. *)
Theorem groupby_maintains_first_appearance_order
  (evaluate_named : NamedExpr -> DataFrame -> result Column)
  (evaluate_expr : Expr -> DataFrame -> result Column)
  (aggregate : Table -> Columns.Sorted -> list Order -> list NullOrder ->
               list (list cell * Expr) -> Table * list Table)
  (inner_join : Table -> Table -> NullEquality -> list cell * list cell)
  (sort_by_key : Table -> Table -> list Order -> list NullOrder -> result Table)
  (slice : DataFrame -> option Zlice -> DataFrame)
  (keys_in agg_requests : list NamedExpr) (zlice : option Zlice) (df : DataFrame)
  (key_columns keys : list Column) (requests : list (list cell * Expr)) :
  aggregate_contract aggregate ->
  inner_join_contract inner_join ->
  sort_by_key_contract sort_by_key ->
  rmapM (fun k => evaluate_named k df) keys_in = Ok key_columns ->
  broadcast key_columns (Some (Frames.num_rows df)) = Ok keys ->
  keys <> [] ->
  all_sorted keys = NO ->
  rmapM (request_column evaluate_expr keys df) agg_requests = Ok requests ->
  let grouped :=
    aggregate (obj <$> keys) NO (order <$> keys) (null_order <$> keys) requests in
  exists (ordered : list Column) (right_order : list cell),
    do_evaluate evaluate_named evaluate_expr aggregate inner_join sort_by_key slice
      keys_in agg_requests true zlice df = Ok (slice (mkDataFrame ordered) zlice) /\
    name <$> ordered = (name <$> keys) ++ (ne_name <$> agg_requests) /\
    gather (fst grouped ++ concat (snd grouped)) right_order DONT_CHECK
      = Ok (obj <$> ordered) /\
    rows (obj <$> take (length keys) ordered) = keep_first (rows (obj <$> keys)).
Proof.
  intros Hagg Hjoin Hsort Hkeys_in Hkeys Hne Hsorted Hreq grouped.
  destruct (Hagg (obj <$> keys) NO (order <$> keys) (null_order <$> keys) requests)
    as (Hgk_len & Hraw_len & Hrect & Hperm).
  fold grouped in Hgk_len, Hraw_len, Hrect, Hperm.
  rewrite length_fmap in Hgk_len.
  assert (Hreq_len : length requests = length agg_requests)
    by (by eapply rmapM_length).
  set (cols0 :=
         ((fun p : Column * list cell => plain_column (snd p) (name (fst p)))
            <$> zip keys (fst grouped)) ++
         ((fun p : string * list cell => plain_column (snd p) (fst p))
            <$> zip (ne_name <$> agg_requests) (concat (snd grouped)))).
  assert (Hobj : obj <$> cols0 = fst grouped ++ concat (snd grouped)).
  { subst cols0. rewrite fmap_app, <- !list_fmap_compose. f_equal.
    - etrans; [|apply (snd_zip keys (fst grouped)); lia]. reflexivity.
    - etrans; [|apply (snd_zip (ne_name <$> agg_requests) (concat (snd grouped)));
                 rewrite length_fmap; lia].
      reflexivity. }
  assert (Hnames : name <$> cols0 = (name <$> keys) ++ (ne_name <$> agg_requests)).
  { subst cols0. rewrite fmap_app, <- !list_fmap_compose. f_equal.
    - transitivity (name <$> (zip keys (fst grouped)).*1);
        [by rewrite <- list_fmap_compose | by rewrite fst_zip by lia].
    - etrans; [|apply (fst_zip (ne_name <$> agg_requests) (concat (snd grouped)));
                 rewrite length_fmap; lia].
      reflexivity. }
  assert (Hsizes : Forall (fun c => size c = num_rows (fst grouped)) cols0).
  { unfold size. apply (Forall_fmap obj (fun o => length o = num_rows (fst grouped))).
    by rewrite Hobj. }
  destruct (restore_order_spec inner_join sort_by_key Hjoin Hsort keys cols0
              (fst grouped) (concat (snd grouped)) Hne Hobj Hgk_len Hrect Hperm)
    as (ordered & right_order & Hrestore & Hordered_names & Hgather & Hrows).
  exists ordered, right_order. split; [|split; [|split]].
  - unfold do_evaluate. rewrite Hkeys_in. cbn [rbind]. rewrite Hkeys. cbn [rbind].
    rewrite Hsorted, Hreq. cbn [rbind]. fold grouped.
    destruct grouped as [gk raw]. cbn [fst snd] in *.
    rewrite zip_strict_Ok by (rewrite length_fmap; lia). cbn [rbind].
    rewrite zip_strict_Ok by lia. cbn [rbind].
    fold cols0. rewrite (broadcast_same_size cols0 _ Hsizes). cbn [rbind andb].
    rewrite Hrestore. reflexivity.
  - by rewrite Hordered_names.
  - exact Hgather.
  - exact Hrows.
Qed.

(** The example collaborators keep their contracts. *)
Lemma reversed_groupby_contract : aggregate_contract reversed_groupby.
Proof.
  intros keys sorted orders null_orders requests. unfold reversed_groupby.
  cbn [fst snd].
  set (W := keep_first (rows keys)). set (w := length keys).
  assert (HW : Forall (fun r => length r = w) W).
  { subst W. apply keep_first_Forall, rows_Forall_width. }
  assert (Hrows : rows (columns_of w (reverse W)) = reverse W /\
                  num_rows (columns_of w (reverse W)) = length W).
  { destruct (decide (0 < w)%nat) as [Hw|Hw].
    - assert (Hr : rows (columns_of w (reverse W)) = reverse W).
      { apply rows_columns_of; [assumption|].
        apply Forall_forall. intros r Hr. rewrite elem_of_reverse in Hr.
        rewrite Forall_forall in HW. exact (HW r Hr). }
      split; [exact Hr|]. by rewrite <- rows_length, Hr, length_reverse.
    - assert (keys = []) as Hk by (subst w; destruct keys; [reflexivity | simpl in Hw; lia]).
      subst W w. rewrite Hk. simpl. split; reflexivity. }
  destruct Hrows as [Hr Hn].
  split; [apply columns_of_length|]. split; [|split].
  - induction requests as [|req requests IH]; [reflexivity|].
    rewrite fmap_cons. simpl. f_equal. exact IH.
  - rewrite Hn. apply Forall_app. split.
    + unfold columns_of. apply Forall_fmap, Forall_forall. intros j _. simpl.
      by rewrite length_fmap, length_reverse.
    + induction requests as [|req requests IH]; [constructor|].
      rewrite fmap_cons. simpl. constructor; [|exact IH].
      by rewrite length_fmap, length_reverse.
  - rewrite Hr. apply reverse_Permutation.
Qed.

Lemma reversed_inner_join_contract : inner_join_contract reversed_inner_join.
Proof.
  intros l r. unfold reversed_inner_join. cbn [fst snd]. split.
  - by rewrite !length_fmap.
  - rewrite zip_fst_snd. apply reverse_Permutation.
Qed.

Lemma rows_one_column (a : list cell) : rows [a] = (fun x => [x]) <$> a.
Proof.
  unfold rows, row. cbn [num_rows].
  apply list_eq. intros i. rewrite !list_lookup_fmap.
  destruct (decide (i < length a)%nat) as [Hi|Hi].
  - rewrite lookup_seq_lt by assumption.
    destruct (lookup_lt_is_Some_2 a i Hi) as [x Hx]. cbn. by rewrite Hx.
  - rewrite lookup_seq_ge by lia. by rewrite (lookup_ge_None_2 a i) by lia.
Qed.

Lemma zip_rows_single (keys values : list cell) :
  zip ((fun x => [x]) <$> keys) ((fun x => [x]) <$> values) =
  (fun p => ([fst p], [snd p])) <$> zip keys values.
Proof.
  revert values. induction keys as [|x keys IH]; intros [|y values]; try reflexivity.
  simpl. f_equal. apply IH.
Qed.

Lemma stable_sort_by_key_contract : sort_by_key_contract stable_sort_by_key.
Proof.
  intros values keys order null_order Hlen.
  exists (stable_sort (fun p q => rows_leb [(order, null_order)] [fst p] [fst q])
            (zip keys values)).
  split; [|split].
  - unfold stable_sort_by_key. cbn [num_rows length].
    rewrite Hlen, Nat.eqb_refl. cbn [negb orb Nat.eqb].
    rewrite !rows_one_column, zip_rows_single.
    rewrite (stable_sort_fmap (fun p => ([fst p], [snd p]))
               (fun p q => rows_leb (zip [order] [null_order]) (fst p) (fst q))).
    unfold columns_of. cbn [seq fmap list_fmap]. rewrite <- !list_fmap_compose.
    reflexivity.
  - apply stable_sort_Permutation.
  - apply (stable_sort_StronglySorted _ (fun _ => True)).
    + intros x y. apply rows_leb_total.
    + intros x y z _ _ _. apply rows_leb_trans; reflexivity.
    + apply Forall_forall. auto.
Qed.

Lemma groupby_maintains_first_appearance_order_witness :
  exists (ordered : list Column) (right_order : list cell),
    do_evaluate NamedExpr_evaluate Expr_evaluate reversed_groupby reversed_inner_join
      stable_sort_by_key no_slice [key_a] [sum_of_b] true None frame_scenario_A
      = Ok (no_slice (mkDataFrame ordered) None) /\
    name <$> ordered = ["a"; "b"] /\
    rows (obj <$> take 1 ordered) = [[Some 1]; [Some 2]].
Proof.
  destruct (groupby_maintains_first_appearance_order
              NamedExpr_evaluate Expr_evaluate reversed_groupby reversed_inner_join
              stable_sort_by_key no_slice [key_a] [sum_of_b] None frame_scenario_A
              [mkColumn [Some 1; Some 1; Some 2] NO ASCENDING BEFORE "a"]
              [mkColumn [Some 1; Some 1; Some 2] NO ASCENDING BEFORE "a"]
              [([Some 10; Some 20; Some 30], Agg INT64 "sum" JNull [Col INT64 "b"])]
              reversed_groupby_contract reversed_inner_join_contract
              stable_sort_by_key_contract)
    as (ordered & right_order & Hev & Hnames & _ & Hrows).
  - vm_compute. reflexivity.
  - vm_compute. reflexivity.
  - discriminate.
  - reflexivity.
  - vm_compute. reflexivity.
  - exists ordered, right_order. split; [exact Hev|]. split; [exact Hnames|].
    exact Hrows.
Defined.

(** Scenario A: the groups come back as a = 1 with sum 30 and a = 2 with
    sum 30, in that order, although the primitive returned a = 2 first. *)
Lemma groupby_scenario_A :
  fst (reversed_groupby [[Some 1; Some 1; Some 2]] NO [ASCENDING] [BEFORE]
         [([Some 10; Some 20; Some 30], Agg INT64 "sum" JNull [Col INT64 "b"])])
    = [[Some 2; Some 1]] /\
  do_evaluate NamedExpr_evaluate Expr_evaluate reversed_groupby reversed_inner_join
    stable_sort_by_key no_slice [key_a] [sum_of_b] true None frame_scenario_A
  = Ok (mkDataFrame [mkColumn [Some 1; Some 2] NO ASCENDING BEFORE "a";
                     mkColumn [Some 30; Some 30] NO ASCENDING BEFORE "b"]).
Proof. split; vm_compute; reflexivity. Qed.

End GroupByFacts.

(** ** Facts about MergeSorted *)

Module MergeFacts.
Import Columns Frames Engine EngineFacts MergeSorted.

Lemma index_of_Some (key : string) (names : list string) :
  key ∈ names ->
  exists i, index_of key names = Some i /\ (i < length names)%nat.
Proof.
  induction names as [|n names IH]; intros Hin.
  - by apply elem_of_nil in Hin.
  - simpl. destruct (String.eqb n key) eqn:E.
    + exists 0%nat. split; [reflexivity | lia].
    + apply String.eqb_neq in E. apply elem_of_cons in Hin as [-> | Hin]; [congruence|].
      destruct (IH Hin) as (i & -> & Hi). exists (S i). split; [reflexivity | lia].
Qed.

Lemma select_columns_key (df : DataFrame) (key : string) :
  key ∈ column_names df ->
  exists c, first_column (select_columns df {[ key ]}) = Ok c /\ name c = key.
Proof.
  unfold column_names, select_columns. destruct df as [cols]. simpl.
  induction cols as [|c cols IH]; intros Hin.
  - by apply elem_of_nil in Hin.
  - rewrite filter_cons. destruct (decide (name c ∈ ({[ key ]} : gset string))) as [Hc|Hc].
    + exists c. split; [reflexivity|]. by apply elem_of_singleton in Hc.
    + rewrite fmap_cons in Hin. apply elem_of_cons in Hin as [-> | Hin].
      * exfalso. apply Hc. by apply elem_of_singleton.
      * by apply IH.
Qed.

Lemma filter_ext_in {A} (P1 P2 : A -> Prop)
  `{!forall x, Decision (P1 x)} `{!forall x, Decision (P2 x)} (l : list A) :
  (forall x, x ∈ l -> (P1 x <-> P2 x)) -> filter P1 l = filter P2 l.
Proof.
  induction l as [|a l IH]; intros Hext; [reflexivity|].
  rewrite !filter_cons.
  assert (Ha : P1 a <-> P2 a) by (apply Hext; left).
  assert (Hl : filter P1 l = filter P2 l)
    by (apply IH; intros x Hx; apply Hext; by right).
  destruct (decide (P1 a)), (decide (P2 a)); rewrite ?Hl; tauto || reflexivity.
Qed.

(** The columns the minor side keeps are the right frame's columns whose
    names the left frame has; the others are dropped. *)
Lemma minor_side_columns (left_df right_df : DataFrame) :
  columns (minor_side left_df right_df) =
  filter (fun c => name c ∈ column_names left_df) (columns right_df).
Proof.
  unfold minor_side, discard_columns, column_names_set, column_names. simpl.
  apply filter_ext_in. intros c Hc.
  rewrite elem_of_difference, !elem_of_list_to_set. split.
  - intros Hnot. destruct (decide (name c ∈ name <$> columns left_df)) as [H|H];
      [assumption|]. exfalso. apply Hnot. split; [|assumption].
    apply list_elem_of_fmap. eauto.
  - intros Hin [_ Hnot]. contradiction.
Qed.

#[local] Instance key_le_total key_cols specs : Total (key_le key_cols specs).
Proof. intros r1 r2. unfold key_le. apply rows_leb_total. Qed.

Lemma compare_cell_refl spec a : compare_cell spec a a = Eq.
Proof. by apply compare_cell_Eq. Qed.

(** Comparing the one key column twice is comparing it once. *)
Lemma key_le_twice (i j : nat) (s1 s2 : Order * NullOrder) (r1 r2 : list cell) :
  i = j ->
  key_le [i; j] [s1; s2] r1 r2 <-> key_le [i] [s1] r1 r2.
Proof.
  intros <-. unfold key_le, key_of_row, rows_leb. cbn [fmap list_fmap compare_rows].
  destruct (compare_cell s1 _ _) eqn:E; try reflexivity.
  apply compare_cell_Eq in E. rewrite E, compare_cell_refl. reflexivity.
Qed.

Lemma Sorted_iff {A} (R R' : A -> A -> Prop) (l : list A) :
  (forall x y, R x y <-> R' x y) -> Sorted.Sorted R l -> Sorted.Sorted R' l.
Proof.
  intros H. induction 1 as [|x l Hs IH Hhd]; constructor; [assumption|].
  destruct Hhd; constructor. by apply H.
Qed.

Lemma table_width (df : DataFrame) : length (table df) = length (column_names df).
Proof. unfold table, column_names. by rewrite !length_fmap. Qed.

Lemma MergeSorted_init_Ok (key : string) (left_node right_node : ChildNode)
  (node : string * ChildNode * ChildNode) :
  MergeSorted_init key left_node right_node = Ok node ->
  exists sort_order left_names right_names,
    left_node = SortNode sort_order left_names /\
    right_node = SortNode sort_order right_names /\
    (length left_names <= length right_names)%nat /\
    node = (key, left_node, right_node).
Proof.
  unfold MergeSorted_init.
  destruct left_node as [lo ln | ? ?]; [|discriminate].
  destruct right_node as [ro rn | ? ?]; [|discriminate].
  destruct (bool_decide (lo = ro)) eqn:Eo; [|discriminate].
  apply bool_decide_eq_true in Eo as <-.
  destruct (Nat.leb (length ln) (length rn)) eqn:El; [|discriminate].
  apply Nat.leb_le in El. cbn [negb]. intros H. injection H as <-.
  exists lo, ln, rn. auto.
Qed.

Lemma do_evaluate_merge (key : string) (left_df right_df : DataFrame) :
  let minor := minor_side left_df right_df in
  column_names minor = column_names left_df ->
  key ∈ column_names left_df ->
  exists (out : DataFrame) (on_col : Column) (i : nat),
    do_evaluate key [left_df; right_df] = Ok out /\
    columns minor =
      filter (fun c => name c ∈ column_names left_df) (columns right_df) /\
    first_column (select_columns left_df {[ key ]}) = Ok on_col /\
    list_index (column_names left_df) key = Ok i /\
    column_names out = column_names left_df /\
    Permutation (rows (table out)) (rows (table minor) ++ rows (table left_df)) /\
    (Sorted.Sorted (shared_key_le i on_col) (rows (table minor)) ->
     Sorted.Sorted (shared_key_le i on_col) (rows (table left_df)) ->
     Sorted.Sorted (shared_key_le i on_col) (rows (table out))).
Proof.
  intros minor Hnames Hkey.
  destruct (select_columns_key left_df key Hkey) as (on_col & Hon & _).
  assert (Hkey' : key ∈ column_names minor) by (by rewrite Hnames).
  destruct (select_columns_key minor key Hkey') as (on_col_r & Hon_r & _).
  destruct (index_of_Some key (column_names left_df) Hkey) as (i & Hi & Hlt).
  set (w := length (column_names left_df)) in *.
  assert (Hw : (0 < w)%nat) by lia.
  set (specs := [(order on_col, null_order on_col);
                 (order on_col_r, null_order on_col_r)]).
  set (merged_rows := list_merge (key_le [i; i] specs)
                        (rows (table minor)) (rows (table left_df))).
  assert (Hmerge : merge [table minor; table left_df] [i; i]
                     [order on_col; order on_col_r]
                     [null_order on_col; null_order on_col_r]
                   = Ok (columns_of w merged_rows)).
  { unfold merge. cbn [forallb].
    rewrite !table_width, Hnames. fold w. rewrite Nat.eqb_refl.
    assert ((i <? w)%nat = true) as -> by (by apply Nat.ltb_lt).
    cbn [andb negb orb length Nat.eqb fmap list_fmap foldr zip zip_with].
    rewrite list_merge_nil_r. reflexivity. }
  assert (Hperm : Permutation merged_rows (rows (table minor) ++ rows (table left_df)))
    by apply merge_Permutation.
  assert (Hwidth : Forall (fun r => length r = w) merged_rows).
  { rewrite Hperm. apply Forall_app. split.
    - replace w with (length (table minor)) by (by rewrite table_width, Hnames).
      apply rows_Forall_width.
    - replace w with (length (table left_df)) by apply table_width.
      apply rows_Forall_width. }
  set (out := mkDataFrame
                ((fun p => plain_column (fst p) (snd p))
                   <$> zip (columns_of w merged_rows) (column_names left_df))).
  assert (Hout_table : table out = columns_of w merged_rows).
  { unfold table, out. cbn [columns]. rewrite <- list_fmap_compose.
    etrans; [|apply (fst_zip (columns_of w merged_rows) (column_names left_df));
               rewrite columns_of_length; subst w; lia].
    reflexivity. }
  assert (Hout_rows : rows (table out) = merged_rows).
  { rewrite Hout_table. by apply rows_columns_of. }
  exists out, on_col, i. repeat split.
  - unfold do_evaluate. fold minor. rewrite Hon, Hon_r. cbn [rbind].
    unfold list_index. rewrite Hnames, Hi. cbn [rbind].
    rewrite Hmerge. cbn [rbind]. unfold from_table.
    rewrite columns_of_length. fold w. rewrite Nat.eqb_refl. reflexivity.
  - apply minor_side_columns.
  - exact Hon.
  - unfold list_index. by rewrite Hi.
  - unfold column_names, out. cbn [columns]. rewrite <- list_fmap_compose.
    etrans; [|apply (snd_zip (columns_of w merged_rows) (column_names left_df));
               rewrite columns_of_length; subst w; lia].
    reflexivity.
  - by rewrite Hout_rows.
  - intros Hsm Hsl. rewrite Hout_rows. unfold shared_key_le in *.
    apply (Sorted_iff (key_le [i; i] specs)).
    + intros x y. by apply key_le_twice.
    + apply Sorted_list_merge.
      * apply key_le_total.
      * eapply Sorted_iff; [|exact Hsm]. intros x y. symmetry. by apply key_le_twice.
      * eapply Sorted_iff; [|exact Hsl]. intros x y. symmetry. by apply key_le_twice.
Qed.

(** C9 (as amended). A MergeSorted node is constructed only over two Sort
    nodes with the same sort order. Its evaluation drops the columns of the
    right frame whose names the left frame does not have and keeps the
    others; when the right frame then has the left frame's column names in
    the left frame's order, and the key is one of them, it returns a frame
    under the left frame's column names, in their order, whose rows are the
    rows of both inputs, and these rows are in the order of the shared key
    (under the order and null placement of the left key column) whenever
    the rows of both inputs are. *)
Theorem merge_sorted_spec (key : string) :
  (forall (left_node right_node : ChildNode) (node : string * ChildNode * ChildNode),
     MergeSorted_init key left_node right_node = Ok node ->
     exists sort_order left_names right_names,
       left_node = SortNode sort_order left_names /\
       right_node = SortNode sort_order right_names /\
       (length left_names <= length right_names)%nat /\
       node = (key, left_node, right_node)) /\
  (forall left_df right_df : DataFrame,
     let minor := minor_side left_df right_df in
     column_names minor = column_names left_df ->
     key ∈ column_names left_df ->
     exists (out : DataFrame) (on_col : Column) (i : nat),
       do_evaluate key [left_df; right_df] = Ok out /\
       columns minor =
         filter (fun c => name c ∈ column_names left_df) (columns right_df) /\
       first_column (select_columns left_df {[ key ]}) = Ok on_col /\
       list_index (column_names left_df) key = Ok i /\
       column_names out = column_names left_df /\
       Permutation (rows (table out)) (rows (table minor) ++ rows (table left_df)) /\
       (Sorted.Sorted (shared_key_le i on_col) (rows (table minor)) ->
        Sorted.Sorted (shared_key_le i on_col) (rows (table left_df)) ->
        Sorted.Sorted (shared_key_le i on_col) (rows (table out)))).
Proof.
  split.
  - intros left_node right_node node. apply MergeSorted_init_Ok.
  - intros left_df right_df. apply do_evaluate_merge.
Qed.

Lemma merge_sorted_spec_witness :
  exists (out : DataFrame) (on_col : Column) (i : nat),
    do_evaluate "k" [merge_left; merge_right] = Ok out /\
    column_names out = ["k"; "v"] /\
    Permutation (rows (table out))
      (rows (table (minor_side merge_left merge_right)) ++ rows (table merge_left)).
Proof.
  destruct (merge_sorted_spec "k") as (_ & Heval).
  destruct (Heval merge_left merge_right)
    as (out & on_col & i & Hev & _ & _ & _ & Hnames & Hperm & _).
  - vm_compute. reflexivity.
  - vm_compute. left.
  - exists out, on_col, i. split; [exact Hev|]. split; [exact Hnames | exact Hperm].
Defined.

(** C9 (as stated) fails: the columns of the right frame that duplicate a
    name of the left frame, the key among them, are the ones the merge
    receives; the column dropped is the one the left frame does not have.
    The merged frame holds the right row under the left frame's names. *)
Lemma merge_sorted_keeps_duplicate_names :
  column_names (minor_side merge_left merge_right) = ["k"; "v"] /\
  column_names (minor_side_without_duplicates merge_left merge_right) = ["extra"] /\
  minor_side merge_left merge_right
    <> minor_side_without_duplicates merge_left merge_right /\
  do_evaluate "k" [merge_left; merge_right] =
    Ok (mkDataFrame [mkColumn [Some 1; Some 2; Some 3] NO ASCENDING BEFORE "k";
                     mkColumn [Some 10; Some 20; Some 30] NO ASCENDING BEFORE "v"]).
Proof.
  split; [vm_compute; reflexivity|].
  split; [vm_compute; reflexivity|].
  split; [vm_compute; discriminate|].
  vm_compute. reflexivity.
Qed.

End MergeFacts.

(** ** The evaluation driver: traversal order, failures, the cache's keys *)

Module DriverFacts.
Import Columns Frames CSE CacheFacts Driver.

Lemma cache_free_Node kind f cs :
  cache_free (Node kind f cs) = forallb cache_free cs.
Proof. simpl. induction cs as [|c cs IH]; simpl; [done|]. by rewrite IH. Qed.

Lemma postorder_Node kind f cs :
  postorder (Node kind f cs) = concat (postorder <$> cs) ++ [kind].
Proof.
  simpl. f_equal. induction cs as [|c cs IH]; simpl; [done|]. by rewrite IH.
Qed.

Lemma evaluate_children_cons c cs s :
  evaluate_children (c :: cs) s =
  match evaluate c s with
  | (Raise e, s1) => (Raise e, s1)
  | (Ok df, s1) =>
    match evaluate_children cs s1 with
    | (Raise e, s2) => (Raise e, s2)
    | (Ok dfs, s2) => (Ok (df :: dfs), s2)
    end
  end.
Proof. reflexivity. Qed.

Lemma stored_log_Stored kind s : stored (log (Stored kind) s) = stored s ++ [kind].
Proof. unfold stored. simpl. by rewrite reverse_cons. Qed.

(** A plan without [Cache] nodes: the cache is left as it was and the timer
    gets one entry per node, in post-order. *)
Lemma evaluate_cache_free (n : IR) :
  cache_free n = true ->
  forall s df s', evaluate n s = (Ok df, s') ->
    cache s' = cache s /\ stored s' = stored s ++ postorder n.
Proof.
  induction n as [kind f cs IH | key refcount value IH] using IR_ind_children;
    [|discriminate].
  rewrite cache_free_Node, postorder_Node. intros Hfree s df s'.
  rewrite evaluate_Node.
  assert (Hcs : forall s dfs s1, evaluate_children cs s = (Ok dfs, s1) ->
            cache s1 = cache s /\ stored s1 = stored s ++ concat (postorder <$> cs)).
  { clear s df s'. induction cs as [|c cs IHcs]; intros s dfs s1.
    - simpl. intros [= <- <-]. by rewrite app_nil_r.
    - apply Forall_cons in IH as [IHc IHrest].
      simpl in Hfree. apply andb_true_iff in Hfree as [Hc Hrest].
      rewrite evaluate_children_cons.
      destruct (evaluate c s) as [[df0|e] s0] eqn:Ec; [|discriminate].
      destruct (evaluate_children cs s0) as [[dfs0|e] s2] eqn:Ecs; [|discriminate].
      intros [= <- <-].
      destruct (IHc Hc _ _ _ Ec) as [Hc1 Hc2].
      destruct (IHcs IHrest Hrest _ _ _ Ecs) as [Hr1 Hr2].
      split; [congruence|]. rewrite Hr2, Hc2. simpl. by rewrite app_assoc. }
  destruct (evaluate_children cs s) as [[dfs|e] s1] eqn:Ecs; [|discriminate].
  destruct (f dfs) as [df0|e]; [|discriminate].
  intros [= <- <-]. destruct (Hcs _ _ _ Ecs) as [H1 H2].
  split; [done|]. rewrite stored_log_Stored, H2. by rewrite app_assoc.
Qed.

(** X3. A plan without Cache nodes that evaluates successfully leaves the
    CSE cache as it found it, and the timer receives exactly one entry per
    node, in post-order: every child's entries, from left to right, before
    the parent's. *)
Theorem evaluate_records_postorder (n : IR) (s : State) (df : DataFrame) (s' : State) :
  cache_free n = true ->
  evaluate n s = (Ok df, s') ->
  cache s' = cache s /\ stored s' = stored s ++ postorder n.
Proof. intros Hfree. by apply evaluate_cache_free. Qed.

Lemma evaluate_records_postorder_witness :
  cache (snd (evaluate_top plan_two_leaves)) = cache initial /\
  stored (snd (evaluate_top plan_two_leaves)) =
    stored initial ++ ["Scan"; "DataFrameScan"; "HConcat"].
Proof.
  apply (evaluate_records_postorder plan_two_leaves initial frame_a
           (snd (evaluate_top plan_two_leaves))); reflexivity.
Defined.

Lemma evaluate_children_app_raise cs1 c cs2 s dfs s1 e s2 :
  evaluate_children cs1 s = (Ok dfs, s1) ->
  evaluate c s1 = (Raise e, s2) ->
  evaluate_children (cs1 ++ c :: cs2) s = (Raise e, s2).
Proof.
  revert s dfs. induction cs1 as [|c1 cs1 IH]; intros s dfs.
  - simpl. intros [= <- <-] Hc. by rewrite Hc.
  - rewrite <- app_comm_cons, !evaluate_children_cons.
    destruct (evaluate c1 s) as [[df0|e0] s0]; [|discriminate].
    destruct (evaluate_children cs1 s0) as [[dfs0|e0] s3] eqn:Ecs; [|discriminate].
    intros [= <- <-] Hc. by rewrite (IH _ _ Ecs Hc).
Qed.

(** X4. Evaluation stops at the first child that raises: the node raises
    the same exception, the children to its right are not evaluated, the
    node's own [do_evaluate] is not called, and the state is the one the
    failing child left. *)
Theorem evaluate_stops_at_first_failure (kind : string)
  (do_evaluate : list DataFrame -> result DataFrame) (cs1 cs2 : list IR) (c : IR)
  (s s1 s2 : State) (dfs : list DataFrame) (e : exn) :
  evaluate_children cs1 s = (Ok dfs, s1) ->
  evaluate c s1 = (Raise e, s2) ->
  evaluate (Node kind do_evaluate (cs1 ++ c :: cs2)) s = (Raise e, s2).
Proof.
  intros H1 H2. rewrite evaluate_Node.
  by rewrite (evaluate_children_app_raise _ _ _ _ _ _ _ _ H1 H2).
Qed.

Lemma evaluate_stops_at_first_failure_witness :
  evaluate (Node "HConcat" first_child ([leaf] ++ failing "Filter" :: [leaf])) initial
  = (Raise (NotImplementedError "unsupported"), snd (evaluate_children [leaf] initial)).
Proof.
  apply (evaluate_stops_at_first_failure "HConcat" first_child [leaf] [leaf]
           (failing "Filter") initial (snd (evaluate_children [leaf] initial))
           (snd (evaluate_children [leaf] initial)) [frame_a]); reflexivity.
Defined.

Lemma evaluate_cache_frame (K : Z) (n : IR) (s : State) (r : result DataFrame)
  (s' : State) :
  mentions K n = false -> evaluate n s = (r, s') -> cache s' !! K = cache s !! K.
Proof.
  intros Hm He. pose proof (evaluate_frame K n Hm s r s' He) as Hk.
  unfold kview in Hk. congruence.
Qed.

(** X5. Evaluating a plan, successfully or not, never changes the cache
    entry of a key that no Cache node of the plan carries. *)
Theorem evaluate_keeps_foreign_keys (K : Z) (n : IR) (s : State)
  (r : result DataFrame) (s' : State) :
  mentions K n = false ->
  evaluate n s = (r, s') ->
  cache s' !! K = cache s !! K.
Proof. apply evaluate_cache_frame. Qed.

Lemma evaluate_keeps_foreign_keys_witness :
  cache (snd (evaluate (plan_refs 2 2) (mkState {[ 7 := (frame_a, 0) ]} []))) !! 7
  = cache (mkState {[ 7 := (frame_a, 0) ]} []) !! 7.
Proof.
  apply (evaluate_keeps_foreign_keys 7 (plan_refs 2 2)
           (mkState {[ 7 := (frame_a, 0) ]} []) (Ok frame_a)); reflexivity.
Defined.

(** X6. A Cache node never stores a failure: when its evaluation raises, the
    key had no entry, the exception is the wrapped child's, and the key has
    no entry afterwards, so a later visit evaluates the child again. *)
Theorem Cache_failure_not_stored (key refcount : Z) (value : IR) (s s' : State)
  (e : exn) :
  mentions key value = false ->
  evaluate (Cache key refcount value) s = (Raise e, s') ->
  cache s !! key = None /\
  evaluate value (log (EvalChild key) (log (Visit key) s)) = (Raise e, s') /\
  cache s' !! key = None.
Proof.
  intros Hm. simpl.
  destruct (cache s !! key) as [[df hits]|] eqn:Ek.
  - destruct (decide (hits + 1 = refcount)); discriminate.
  - destruct (evaluate value _) as [[df|e0] s1] eqn:Ev; [discriminate|].
    intros [= <- <-]. split; [done|]. split; [done|].
    rewrite (evaluate_cache_frame key value _ _ _ Hm Ev). exact Ek.
Qed.

Lemma Cache_failure_not_stored_witness :
  cache initial !! 0 = None /\
  evaluate (failing "Filter") (log (EvalChild 0) (log (Visit 0) initial))
    = (Raise (NotImplementedError "unsupported"),
       snd (evaluate (Cache 0 1 (failing "Filter")) initial)) /\
  cache (snd (evaluate (Cache 0 1 (failing "Filter")) initial)) !! 0 = None.
Proof.
  apply (Cache_failure_not_stored 0 1 (failing "Filter") initial); reflexivity.
Defined.

End DriverFacts.

(** ** More about [broadcast]: what a successful call returns *)

Module BroadcastLaws.
Import Columns BroadcastFacts.

(** The two ways a call on a non-empty list succeeds: nothing to do, or
    every length-1 column replaced by [n] copies of its value. *)
Lemma broadcast_inv (columns out : list Column) (target_length : option nat) :
  columns <> [] ->
  broadcast columns target_length = Ok out ->
  (Forall (fun c => size c = 1%nat) columns /\ target_length = None /\ out = columns) \/
  (exists n, Forall2 (broadcast_rel n) columns out /\
             Forall (fun c => size c = 1%nat \/ size c = n) columns /\
             (target_length = None \/ target_length = Some n)).
Proof.
  intros Hne. unfold broadcast.
  destruct columns as [|c0 cs]; [congruence|].
  set (columns := c0 :: cs) in *.
  destruct (decide _) as [Hone|Hone].
  - apply lengths_all_one in Hone; [|assumption].
    destruct target_length as [nrows|].
    + destruct (rmapM_broadcast_column nrows columns) as (out' & -> & Hrel).
      intros [= <-]. right. exists nrows. split; [assumption|]. split; [|by right].
      eapply Forall_impl; [exact Hone|]. intros c Hc. by left.
    + intros [= <-]. by left.
  - destruct (elements _) as [|nrows [|m l]] eqn:Hel; try discriminate.
    assert (Hall : Forall (fun c => size c = 1%nat \/ size c = nrows) columns).
    { apply Forall_forall. intros c Hc.
      destruct (decide (size c = 1%nat)) as [H1|H1]; [by left|right].
      assert (Hm : size c ∈ elements
                ((list_to_set (size <$> columns) : gset nat) ∖ {[ 1%nat ]})).
      { apply elem_of_elements, elem_of_difference. split.
        - apply elem_of_list_to_set, list_elem_of_fmap. eauto.
        - by rewrite elem_of_singleton. }
      rewrite Hel in Hm. by apply list_elem_of_singleton in Hm. }
    destruct (rmapM_broadcast_column nrows columns) as (out' & Hout & Hrel).
    destruct target_length as [t|].
    + destruct (decide (nrows = t)) as [<-|]; [|discriminate].
      rewrite Hout. intros [= <-]. right. exists nrows. auto.
    + rewrite Hout. intros [= <-]. right. exists nrows. auto.
Qed.

(** A column that has its length already comes back from the replacement
    as it is, when it was itself built by the replacement. *)
Lemma broadcast_column_fixed (n : nat) (c o : Column) :
  broadcast_rel n c o -> size c = 1%nat \/ size c = n ->
  broadcast_column n o = Ok o.
Proof.
  intros [[Hne ->]|(v & Hv & ->)] Hs; unfold broadcast_column.
  - destruct (decide (size c = 1%nat)); [contradiction|reflexivity].
  - unfold size, obj_scalar, from_scalar. simpl. rewrite length_replicate.
    destruct (decide (n = 1%nat)) as [->|]; reflexivity.
Qed.

Lemma rmapM_broadcast_column_fixed (n : nat) (columns out : list Column) :
  Forall2 (broadcast_rel n) columns out ->
  Forall (fun c => size c = 1%nat \/ size c = n) columns ->
  rmapM (broadcast_column n) out = Ok out.
Proof.
  induction 1 as [|c o cs os Hr _ IH]; intros Hall; [reflexivity|].
  apply Forall_cons in Hall as [Hc Hcs]. simpl.
  rewrite (broadcast_column_fixed n c o Hr Hc), (IH Hcs). reflexivity.
Qed.

Lemma broadcast_rel_name (n : nat) (c o : Column) :
  broadcast_rel n c o -> name o = name c.
Proof. by intros [[_ ->]|(v & _ & ->)]. Qed.

Lemma Forall2_broadcast_rel_names (n : nat) (columns out : list Column) :
  Forall2 (broadcast_rel n) columns out -> name <$> out = name <$> columns.
Proof.
  induction 1 as [|c o cs os Hr _ IH]; [reflexivity|].
  rewrite !fmap_cons. f_equal; [by eapply broadcast_rel_name | exact IH].
Qed.

(** With a target, every returned column has the target length. *)
Lemma broadcast_target_sizes (columns out : list Column) (t : nat) :
  broadcast columns (Some t) = Ok out -> Forall (fun c => size c = t) out.
Proof.
  destruct columns as [|c0 cs] eqn:E.
  - simpl. intros [= <-]. constructor.
  - rewrite <- E. intros H.
    apply broadcast_inv in H as [(_ & Ht & _)|(n & Hrel & Hall & Ht)];
      [discriminate| |by subst].
    destruct Ht as [Ht|[= ->]]; [discriminate|].
    eapply Forall2_broadcast_rel_sizes; eauto.
Qed.

Lemma broadcast_names (columns out : list Column) (target_length : option nat) :
  broadcast columns target_length = Ok out -> name <$> out = name <$> columns.
Proof.
  destruct columns as [|c0 cs] eqn:E.
  - simpl. by intros [= <-].
  - rewrite <- E. intros H.
    apply broadcast_inv in H as [(_ & _ & ->)|(n & Hrel & _ & _)];
      [reflexivity| |by subst].
    by eapply Forall2_broadcast_rel_names.
Qed.

Lemma broadcast_same_length (columns out : list Column) (target_length : option nat) :
  broadcast columns target_length = Ok out ->
  exists n, Forall (fun c => size c = n) out.
Proof.
  destruct columns as [|c0 cs] eqn:E.
  - simpl. intros [= <-]. exists 0%nat. constructor.
  - rewrite <- E. intros H.
    apply broadcast_inv in H as [(Hone & _ & ->)|(n & Hrel & Hall & _)];
      [by exists 1%nat| |by subst].
    exists n. eapply Forall2_broadcast_rel_sizes; eauto.
Qed.

Lemma broadcast_fixed (columns out : list Column) (target_length : option nat) :
  broadcast columns target_length = Ok out ->
  broadcast out target_length = Ok out.
Proof.
  destruct columns as [|c0 cs] eqn:E.
  - simpl. by intros [= <-].
  - rewrite <- E. intros H. pose proof H as H0.
    apply broadcast_inv in H as [(Hone & _ & ->)|(n & Hrel & Hall & Ht)];
      [assumption| |by subst].
    assert (Hsz : Forall (fun c => size c = n) out)
      by (eapply Forall2_broadcast_rel_sizes; eauto).
    assert (Hout : out <> []).
    { apply Forall2_length in Hrel. subst columns. destruct out; [discriminate|done]. }
    pose proof (rmapM_broadcast_column_fixed n columns out Hrel Hall) as Hfix.
    destruct (decide (n = 1%nat)) as [->|Hn].
    + unfold broadcast. destruct out as [|o os]; [congruence|].
      destruct (decide _) as [_|Hno].
      * destruct Ht as [-> | ->]; [reflexivity|assumption].
      * exfalso. apply Hno. by apply lengths_all_one.
    + rewrite (broadcast_nonunit out target_length n Hout Hn).
      * destruct Ht as [-> | ->]; [assumption|].
        destruct (decide (n = n)); [assumption|congruence].
      * eapply Forall_impl; [exact Hsz|]. intros c Hc. by right.
      * destruct out as [|o os]; [congruence|].
        apply Exists_cons_hd. by apply Forall_cons in Hsz as [? _].
Qed.

(** X1. [broadcast] is idempotent: the columns a successful call returns
    come back unchanged, metadata included, from a second call with the same
    target. *)
Theorem broadcast_idempotent (columns out : list Column) (target_length : option nat) :
  broadcast columns target_length = Ok out ->
  broadcast out target_length = Ok out.
Proof. apply broadcast_fixed. Qed.

Lemma broadcast_idempotent_witness :
  broadcast [col_scalar_x3; col_three] None = Ok [col_scalar_x3; col_three].
Proof.
  apply (broadcast_idempotent [col_scalar; col_three] [col_scalar_x3; col_three] None).
  reflexivity.
Defined.

(** X2. Whenever [broadcast] succeeds, the returned columns are as many as
    the inputs, carry the inputs' names in the same order, and all have one
    length; when a target length is given, that length is the target. *)
Theorem broadcast_returns_one_length (columns out : list Column)
  (target_length : option nat) :
  broadcast columns target_length = Ok out ->
  name <$> out = name <$> columns /\
  (exists n, Forall (fun c => size c = n) out) /\
  (forall t, target_length = Some t -> Forall (fun c => size c = t) out).
Proof.
  intros H. split; [exact (broadcast_names _ _ _ H)|].
  split; [exact (broadcast_same_length _ _ _ H)|].
  intros t ->. exact (broadcast_target_sizes _ _ _ H).
Qed.

Lemma broadcast_returns_one_length_witness :
  name <$> [col_scalar_x3; col_three] = name <$> [col_scalar; col_three] /\
  (exists n, Forall (fun c => size c = n) [col_scalar_x3; col_three]) /\
  (forall t, Some 3%nat = Some t ->
             Forall (fun c => size c = t) [col_scalar_x3; col_three]).
Proof.
  apply (broadcast_returns_one_length [col_scalar; col_three]
           [col_scalar_x3; col_three] (Some 3%nat)).
  reflexivity.
Defined.

End BroadcastLaws.

(** ** Reduce, Select, HStack and Filter: the columns they hand on *)

Module NodeFacts.
Import Columns Frames Exprs BroadcastFacts BroadcastLaws.

Lemma rmapM_out_length {A B} (f : A -> result B) (l : list A) (out : list B) :
  rmapM f l = Ok out -> length out = length l.
Proof.
  revert out. induction l as [|a l IH]; intros out; simpl.
  - by intros [= <-].
  - destruct (f a) as [b|e]; [|discriminate]. simpl.
    destruct (rmapM f l) as [bs|e]; [|discriminate]. simpl.
    intros [= <-]. simpl. by rewrite (IH bs).
Qed.

Lemma forallb_size_one (columns : list Column) :
  forallb (fun column => Nat.eqb (size column) 1) columns = true <->
  Forall (fun c => size c = 1%nat) columns.
Proof.
  rewrite forallb_forall, Forall_forall. split; intros H c Hc.
  - apply Nat.eqb_eq, H. by apply list_elem_of_In.
  - apply Nat.eqb_eq, H. by apply list_elem_of_In.
Qed.

Lemma broadcast_all_one (columns : list Column) :
  Forall (fun c => size c = 1%nat) columns -> broadcast columns None = Ok columns.
Proof.
  intros Hone. unfold broadcast. destruct columns as [|c cs]; [reflexivity|].
  destruct (decide _) as [_|Hno]; [reflexivity|].
  exfalso. apply Hno. by apply lengths_all_one.
Qed.

Lemma broadcast_rel_all_one (n : nat) (cs os : list Column) :
  Forall2 (broadcast_rel n) cs os ->
  Forall (fun c => size c = 1%nat) os ->
  Forall (fun c => size c = 1%nat) cs.
Proof.
  induction 1 as [|c o cs os Hr _ IH]; intros Hall; [constructor|].
  apply Forall_cons in Hall as [Ho Hos].
  constructor; [|by apply IH].
  destruct Hr as [[Hne ->]|(v & Hv & ->)]; [done|].
  unfold size. by rewrite Hv.
Qed.

(** X7. [Reduce] returns a frame exactly when every expression evaluates to
    a column of length 1, and the frame then holds those columns unchanged;
    a column of any other length makes it raise ([RuntimeError] from
    [broadcast] or [AssertionError] from its own check). *)
Theorem Reduce_needs_single_rows
  (evaluate_named : NamedExpr -> DataFrame -> result Column)
  (exprs : list NamedExpr) (df : DataFrame) (evaluated : list Column) :
  rmapM (fun e => evaluate_named e df) exprs = Ok evaluated ->
  (Forall (fun c => size c = 1%nat) evaluated ->
     Reduce.do_evaluate evaluate_named exprs df = Ok (mkDataFrame evaluated)) /\
  (~ Forall (fun c => size c = 1%nat) evaluated ->
     Reduce.do_evaluate evaluate_named exprs df
       = Raise (RuntimeError "Mismatching column lengths") \/
     Reduce.do_evaluate evaluate_named exprs df
       = Raise (AssertionError "all(column.size == 1 for column in columns)")).
Proof.
  intros Hev. unfold Reduce.do_evaluate. rewrite Hev. simpl. split.
  - intros Hone. rewrite (broadcast_all_one _ Hone). simpl.
    apply forallb_size_one in Hone. by rewrite Hone.
  - intros Hno. destruct (broadcast evaluated None) as [out|e] eqn:Hb.
    + right. simpl.
      destruct (forallb _ out) eqn:Hall; [|reflexivity]. exfalso.
      apply forallb_size_one in Hall.
      assert (Hne : evaluated <> []) by (intros ->; apply Hno; constructor).
      apply (broadcast_inv _ _ _ Hne) in Hb
        as [(Hone & _ & _)|(n & Hrel & Hsz & _)]; [contradiction|].
      apply Hno. by eapply broadcast_rel_all_one.
    + left. simpl. f_equal. revert Hb. unfold broadcast.
      destruct evaluated as [|c cs]; [discriminate|].
      destruct (decide _); [discriminate|].
      destruct (elements _) as [|nrows [|m l]]; [by intros [= <-]| |by intros [= <-]].
      destruct (rmapM_broadcast_column nrows (c :: cs)) as (out' & -> & _).
      discriminate.
Qed.

Lemma Reduce_needs_single_rows_witness :
  Reduce.do_evaluate Reduce.constant_one
    [mkNamedExpr "n" (Len INT64); mkNamedExpr "m" (Len INT64)] CSE.frame_a
  = Ok (mkDataFrame [mkColumn [Some 1] NO ASCENDING BEFORE "n";
                     mkColumn [Some 1] NO ASCENDING BEFORE "m"]).
Proof.
  apply (Reduce_needs_single_rows Reduce.constant_one
           [mkNamedExpr "n" (Len INT64); mkNamedExpr "m" (Len INT64)] CSE.frame_a
           [mkColumn [Some 1] NO ASCENDING BEFORE "n";
            mkColumn [Some 1] NO ASCENDING BEFORE "m"] eq_refl).
  repeat constructor.
Defined.

Lemma Forall_same_rectangular (cols : list Column) (n : nat) :
  Forall (fun c => size c = n) cols -> rectangular (mkDataFrame cols).
Proof.
  intros H. unfold rectangular, num_rows. simpl.
  destruct cols as [|c cs]; [constructor|].
  pose proof H as H0. apply Forall_cons in H0 as [-> _]. exact H.
Qed.

(** X8. A [Select] that broadcasts returns, whenever it returns, one column
    per expression, and all its columns have one length: the frame is
    rectangular. *)
Theorem Select_broadcast_rectangular
  (evaluate_named : NamedExpr -> DataFrame -> result Column)
  (exprs : list NamedExpr) (df out : DataFrame) :
  Select.do_evaluate evaluate_named exprs true df = Ok out ->
  length (columns out) = length exprs /\ rectangular out.
Proof.
  unfold Select.do_evaluate.
  destruct (rmapM _ exprs) as [evaluated|e] eqn:Hev; [|discriminate]. simpl.
  destruct (broadcast evaluated None) as [cols|e] eqn:Hb; [|discriminate]. simpl.
  intros [= <-]. simpl. split.
  - pose proof (broadcast_names _ _ _ Hb) as Hn.
    apply (f_equal length) in Hn. rewrite !length_fmap in Hn.
    rewrite Hn. by eapply rmapM_out_length.
  - destruct (broadcast_same_length _ _ _ Hb) as (n & Hn).
    by eapply Forall_same_rectangular.
Qed.

Lemma Select_broadcast_rectangular_witness :
  length (columns (mkDataFrame [mkColumn [Some 3; Some 1; None] NO ASCENDING BEFORE "x"]))
    = length [mkNamedExpr "x" (Len INT64)] /\
  rectangular (mkDataFrame [mkColumn [Some 3; Some 1; None] NO ASCENDING BEFORE "x"]).
Proof.
  apply (Select_broadcast_rectangular Reduce.first_column_as
           [mkNamedExpr "x" (Len INT64)] CSE.frame_a).
  reflexivity.
Defined.

(** X9. [HStack] on a frame that has columns, when it broadcasts, hands
    [with_columns] one column per expression, each with exactly the frame's
    row count; a column of another length (other than 1) makes it raise.
    When it does not broadcast, it insists that every expression carries a
    name the planner generated ([__POLARS_CSER_0x...]) and otherwise raises
    [AssertionError]; the evaluated columns are then handed on unchanged. *)
Theorem HStack_columns_fit
  (evaluate_named : NamedExpr -> DataFrame -> result Column)
  (with_columns : DataFrame -> list Column -> DataFrame)
  (exprs : list NamedExpr) (df : DataFrame) :
  (forall out, columns df <> [] ->
     HStack.do_evaluate evaluate_named with_columns exprs true df = Ok out ->
     exists cols, out = with_columns df cols /\
                  length cols = length exprs /\
                  Forall (fun c => size c = num_rows df) cols) /\
  (forall evaluated c, rmapM (fun e => evaluate_named e df) exprs = Ok evaluated ->
     columns df <> [] -> c ∈ evaluated ->
     size c <> 1%nat -> size c <> num_rows df ->
     exists msg, HStack.do_evaluate evaluate_named with_columns exprs true df
                 = Raise (RuntimeError msg)) /\
  (forall evaluated, rmapM (fun e => evaluate_named e df) exprs = Ok evaluated ->
     HStack.do_evaluate evaluate_named with_columns exprs false df =
     if forallb (fun e => String.prefix "__POLARS_CSER_0x" (ne_name e)) exprs
     then Ok (with_columns df evaluated)
     else Raise (AssertionError
                   "all(e.name.startswith('__POLARS_CSER_0x') for e in exprs)")).
Proof.
  split; [|split].
  - intros out Hdf. unfold HStack.do_evaluate, HStack.num_columns.
    destruct (rmapM _ exprs) as [evaluated|e] eqn:Hev; [|discriminate]. simpl.
    destruct (columns df) as [|c0 cs] eqn:Hc; [congruence|]. simpl.
    destruct (broadcast evaluated _) as [cols|e] eqn:Hb; [|discriminate]. simpl.
    intros [= <-]. exists cols. split; [reflexivity|]. split.
    + pose proof (broadcast_names _ _ _ Hb) as Hn.
      apply (f_equal length) in Hn. rewrite !length_fmap in Hn.
      rewrite Hn. by eapply rmapM_out_length.
    + by apply broadcast_target_sizes in Hb.
  - intros evaluated c Hev Hdf Hc H1 Hn.
    unfold HStack.do_evaluate, HStack.num_columns. rewrite Hev. simpl.
    destruct (columns df) as [|c0 cs] eqn:Hcols; [congruence|]. simpl.
    destruct (broadcast evaluated _) as [cols|e] eqn:Hb.
    + exfalso. assert (Hne : evaluated <> []) by (intros ->; inversion Hc).
      apply (broadcast_inv _ _ _ Hne) in Hb
        as [(_ & Ht & _)|(n & _ & Hsz & Ht)]; [discriminate|].
      destruct Ht as [Ht|[= <-]]; [discriminate|].
      rewrite Forall_forall in Hsz. destruct (Hsz c Hc); contradiction.
    + simpl. revert Hb. unfold broadcast.
      destruct evaluated as [|e0 es]; [discriminate|].
      destruct (decide _).
      { destruct (rmapM_broadcast_column (num_rows df) (e0 :: es)) as (o & -> & _).
        discriminate. }
      destruct (elements _) as [|nrows [|m l]]; [intros [= <-]; eauto| |intros [= <-]; eauto].
      destruct (decide (nrows = num_rows df)); [|intros [= <-]; eauto].
      destruct (rmapM_broadcast_column nrows (e0 :: es)) as (o & -> & _).
      discriminate.
  - intros evaluated Hev. unfold HStack.do_evaluate. rewrite Hev. simpl.
    by destruct (forallb _ exprs).
Qed.

Lemma HStack_columns_fit_witness :
  exists cols,
    mkDataFrame [col_three;
                 mkColumn [Some 1; Some 1; Some 1] YES ASCENDING BEFORE "one"]
      = HStack.append_columns CSE.frame_a cols /\
    length cols = length [mkNamedExpr "one" (Len INT64)] /\
    Forall (fun c => size c = num_rows CSE.frame_a) cols.
Proof.
  apply (HStack_columns_fit Reduce.constant_one HStack.append_columns
           [mkNamedExpr "one" (Len INT64)] CSE.frame_a).
  - discriminate.
  - reflexivity.
Defined.

(** X10. [Filter] applies the frame's filter with a mask of exactly the
    frame's row count: a mask of that length is used as it is, a length-1
    mask is first repeated once per row (so it keeps every row or none), and
    a mask of any other length raises [RuntimeError] before any row is
    filtered. *)
Theorem Filter_mask_fits
  (evaluate_named : NamedExpr -> DataFrame -> result Column)
  (DataFrame_filter : DataFrame -> Column -> result DataFrame)
  (mask_expr : NamedExpr) (df : DataFrame) (mask : Column) :
  evaluate_named mask_expr df = Ok mask ->
  (size mask <> 1%nat -> size mask = num_rows df ->
     Filter.do_evaluate evaluate_named DataFrame_filter mask_expr df
       = DataFrame_filter df mask) /\
  (forall v, obj mask = [v] ->
     Filter.do_evaluate evaluate_named DataFrame_filter mask_expr df
       = DataFrame_filter df
           (mkColumn (replicate (num_rows df) v) YES ASCENDING BEFORE (name mask))) /\
  (size mask <> 1%nat -> size mask <> num_rows df ->
     Filter.do_evaluate evaluate_named DataFrame_filter mask_expr df
       = Raise (RuntimeError (mismatch_msg (size mask) (num_rows df)))).
Proof.
  intros Hev. unfold Filter.do_evaluate. rewrite Hev. cbn [rbind].
  assert (Hnon : size mask <> 1%nat ->
            broadcast [mask] (Some (num_rows df)) =
            if decide (size mask = num_rows df) then Ok [mask]
            else Raise (RuntimeError (mismatch_msg (size mask) (num_rows df)))).
  { intros H1.
    rewrite (broadcast_nonunit [mask] (Some (num_rows df)) (size mask));
      [ | discriminate | exact H1 | constructor; [by right | constructor]
        | by apply Exists_cons_hd ].
    destruct (decide _); [|reflexivity]. simpl. unfold broadcast_column.
    by destruct (decide (size mask = 1%nat)). }
  split; [|split].
  - intros H1 Hn. rewrite (Hnon H1). by destruct (decide _).
  - intros v Hv. clear Hnon. unfold broadcast.
    assert (H1 : size mask = 1%nat) by (unfold size; by rewrite Hv).
    destruct (decide (_ = {[ 1%nat ]})) as [_|Hno].
    + simpl. unfold broadcast_column, obj_scalar, from_scalar.
      destruct (decide (size mask = 1%nat)); [|contradiction].
      rewrite Hv. reflexivity.
    + exfalso. apply Hno. apply lengths_all_one; [discriminate|]. by constructor.
  - intros H1 Hn. rewrite (Hnon H1). by destruct (decide _).
Qed.

Lemma Filter_mask_fits_witness :
  Filter.do_evaluate Reduce.constant_one Filter.keep_nonzero
    (mkNamedExpr "m" (Len INT64)) CSE.frame_a
  = Filter.keep_nonzero CSE.frame_a
      (mkColumn (replicate (num_rows CSE.frame_a) (Some 1)) YES ASCENDING BEFORE "m").
Proof.
  apply (Filter_mask_fits Reduce.constant_one Filter.keep_nonzero
           (mkNamedExpr "m" (Len INT64)) CSE.frame_a
           (mkColumn [Some 1] NO ASCENDING BEFORE "m") eq_refl).
  reflexivity.
Defined.

End NodeFacts.

(** ** Projection *)

Module ProjectionFacts.
Import Columns Frames Exprs Sources BroadcastFacts BroadcastLaws EngineFacts Projection.

Lemma foldl_insert_inv (cols : list Column) (m : gmap string Column)
  (k : string) (c : Column) :
  foldl (fun m c => <[name c := c]> m) m cols !! k = Some c ->
  (c ∈ cols /\ name c = k) \/ m !! k = Some c.
Proof.
  revert m. induction cols as [|c0 cs IH]; intros m; simpl; [by right|].
  intros H. apply IH in H as [[Hin Hn]|H].
  - left. split; [by right|done].
  - destruct (decide (name c0 = k)) as [<-|Hne].
    + rewrite lookup_insert_eq in H. injection H as <-. left. split; [by left|done].
    + rewrite lookup_insert_ne in H by done. by right.
Qed.

Lemma column_map_inv (df : DataFrame) (k : string) (c : Column) :
  column_map df !! k = Some c -> c ∈ columns df /\ name c = k.
Proof.
  unfold column_map. intros H. apply foldl_insert_inv in H as [H|H]; [done|].
  by rewrite lookup_empty in H.
Qed.

Lemma rmapM_getitem_inv (df : DataFrame) (names : list string) (selected : list Column) :
  rmapM (column_map_getitem df) names = Ok selected ->
  Forall2 (fun k c => column_map df !! k = Some c) names selected.
Proof.
  revert selected. induction names as [|k ks IH]; intros selected; simpl.
  - intros [= <-]. constructor.
  - unfold column_map_getitem at 1.
    destruct (column_map df !! k) as [c|] eqn:Hk; [|discriminate]. simpl.
    destruct (rmapM _ ks) as [cs|e]; [|discriminate]. simpl.
    intros [= <-]. constructor; [done|by apply IH].
Qed.

Lemma rmapM_getitem_Ok (df : DataFrame) (names : list string) (selected : list Column) :
  Forall2 (fun k c => column_map df !! k = Some c) names selected ->
  rmapM (column_map_getitem df) names = Ok selected.
Proof.
  induction 1 as [|k c ks cs Hk _ IH]; [reflexivity|].
  simpl. unfold column_map_getitem at 1. rewrite Hk, IH. reflexivity.
Qed.

Lemma rmapM_getitem_missing (df : DataFrame) (pre : list string) (k : string)
  (post : list string) :
  Forall (fun n => is_Some (column_map df !! n)) pre ->
  column_map df !! k = None ->
  rmapM (column_map_getitem df) (pre ++ k :: post) = Raise (KeyError k).
Proof.
  intros Hpre Hk. induction Hpre as [|n pre [c Hn] _ IH]; simpl.
  - unfold column_map_getitem at 1. by rewrite Hk.
  - unfold column_map_getitem at 1. rewrite Hn. simpl. by rewrite IH.
Qed.

Lemma selected_names (df : DataFrame) (names : list string) (selected : list Column) :
  Forall2 (fun k c => column_map df !! k = Some c) names selected ->
  name <$> selected = names.
Proof.
  induction 1 as [|k c ks cs Hk _ IH]; [reflexivity|].
  rewrite fmap_cons. f_equal; [|exact IH]. by apply column_map_inv in Hk as [_ ?].
Qed.

Lemma selected_sizes (df : DataFrame) (names : list string) (selected : list Column) :
  rectangular df ->
  Forall2 (fun k c => column_map df !! k = Some c) names selected ->
  Forall (fun c => size c = num_rows df) selected.
Proof.
  intros Hrect. induction 1 as [|k c ks cs Hk _ IH]; constructor; [|exact IH].
  apply column_map_inv in Hk as [Hin _].
  unfold rectangular in Hrect. rewrite Forall_forall in Hrect. by apply Hrect.
Qed.

Lemma broadcast_column_fitted (n : nat) (c : Column) :
  size c = n -> broadcast_column n c = Ok (fitted n c).
Proof.
  intros Hs. unfold broadcast_column, fitted, retagged, obj_scalar, from_scalar.
  destruct (decide (size c = 1%nat)) as [H1|H1].
  - assert (n = 1%nat) as -> by congruence.
    destruct (decide (1%nat = 1%nat)); [|congruence].
    unfold size in H1. destruct (obj c) as [|v [|w l]] eqn:E; simpl in H1; try lia.
    reflexivity.
  - destruct (decide (n = 1%nat)); [congruence|reflexivity].
Qed.

Lemma broadcast_fitted (cols : list Column) (n : nat) :
  Forall (fun c => size c = n) cols ->
  broadcast cols (Some n) = Ok (fitted n <$> cols).
Proof.
  intros Hall. destruct cols as [|c0 cs] eqn:E; [reflexivity|]. rewrite <- E in *.
  assert (Hne : cols <> []) by (subst; discriminate).
  assert (Hmap : rmapM (broadcast_column n) cols = Ok (fitted n <$> cols)).
  { apply rmapM_Ok. eapply Forall_impl; [exact Hall|].
    intros c Hc. by apply broadcast_column_fitted. }
  destruct (decide (n = 1%nat)) as [->|Hn].
  - unfold broadcast. destruct cols as [|c cs']; [congruence|].
    destruct (decide _) as [_|Hno]; [exact Hmap|].
    exfalso. apply Hno. by apply lengths_all_one.
  - rewrite (broadcast_nonunit cols (Some n) n Hne Hn).
    + destruct (decide (n = n)); [exact Hmap|congruence].
    + eapply Forall_impl; [exact Hall|]. intros c Hc. by right.
    + subst cols. apply Exists_cons_hd. by apply Forall_cons in Hall as [? _].
Qed.

Lemma do_evaluate_selected (schema : Schema) (df : DataFrame) (selected : list Column) :
  rectangular df ->
  Forall2 (fun k c => column_map df !! k = Some c) (schema.*1) selected ->
  do_evaluate schema df = Ok (mkDataFrame (fitted (num_rows df) <$> selected)).
Proof.
  intros Hrect Hsel. unfold do_evaluate.
  rewrite (rmapM_getitem_Ok _ _ _ Hsel). cbn [rbind].
  rewrite (broadcast_fitted selected (num_rows df)); [reflexivity|].
  by eapply selected_sizes.
Qed.

Lemma fitted_name (n : nat) (c : Column) : name (fitted n c) = name c.
Proof. unfold fitted. by destruct (decide _). Qed.

Lemma fitted_obj (n : nat) (c : Column) : obj (fitted n c) = obj c.
Proof. unfold fitted. by destruct (decide _). Qed.

Lemma fitted_fitted (n : nat) (c : Column) : fitted n (fitted n c) = fitted n c.
Proof. unfold fitted. by destruct (decide _). Qed.

(** X11. On a frame whose columns share one row count, [Projection] returns
    the columns the schema names, in the schema's order, under those names
    and with their values; the columns are the frame's own, metadata
    included, unless the frame has exactly one row, in which case each comes
    back tagged as sorted. A schema name the frame does not have raises
    [KeyError] for the first such name. *)
Theorem Projection_selects (schema : Schema) (df : DataFrame) :
  rectangular df ->
  (forall selected,
     Forall2 (fun k c => column_map df !! k = Some c) (schema.*1) selected ->
     exists out,
       do_evaluate schema df = Ok out /\
       column_names out = schema.*1 /\
       table out = obj <$> selected /\
       (num_rows df <> 1%nat -> columns out = selected) /\
       (num_rows df = 1%nat -> columns out = retagged <$> selected)) /\
  (forall pre k post,
     schema.*1 = pre ++ k :: post ->
     Forall (fun n => is_Some (column_map df !! n)) pre ->
     column_map df !! k = None ->
     do_evaluate schema df = Raise (KeyError k)).
Proof.
  intros Hrect. split.
  - intros selected Hsel. eexists. split; [by apply do_evaluate_selected|].
    unfold column_names, table. simpl. rewrite <- !list_fmap_compose.
    split; [|split; [|split]].
    + rewrite <- (selected_names df _ _ Hsel). apply list_fmap_ext.
      intros i c _. apply fitted_name.
    + apply list_fmap_ext. intros i c _. apply fitted_obj.
    + intros Hn. rewrite <- (list_fmap_id selected) at 2. apply list_fmap_ext.
      intros i c _. unfold fitted. by destruct (decide _).
    + intros Hn. apply list_fmap_ext.
      intros i c _. unfold fitted. by destruct (decide _).
  - intros pre k post Hnames Hpre Hk. unfold do_evaluate. rewrite Hnames.
    by rewrite (rmapM_getitem_missing df pre k post Hpre Hk).
Qed.

Lemma Projection_selects_witness :
  exists out,
    do_evaluate schema_ba Select.frame_ab = Ok out /\
    column_names out = ["b"; "a"] /\
    table out = obj <$> [col_three; col_scalar_x3] /\
    (num_rows Select.frame_ab <> 1%nat -> columns out = [col_three; col_scalar_x3]) /\
    (num_rows Select.frame_ab = 1%nat ->
       columns out = retagged <$> [col_three; col_scalar_x3]).
Proof.
  apply (Projection_selects schema_ba Select.frame_ab).
  - repeat constructor.
  - repeat constructor.
Defined.

Lemma Forall2_lookup_elem (df : DataFrame) (names : list string)
  (selected : list Column) (k : string) :
  Forall2 (fun k c => column_map df !! k = Some c) names selected ->
  k ∈ names -> exists c, column_map df !! k = Some c /\ c ∈ selected.
Proof.
  induction 1 as [|k0 c0 ks cs Hk _ IH]; intros Hin; [inversion Hin|].
  apply elem_of_cons in Hin as [->|Hin].
  - exists c0. split; [done|by left].
  - destruct (IH Hin) as (c & Hc & Hel). exists c. split; [done|by right].
Qed.

Lemma select_subset (df : DataFrame) (names1 names2 : list string)
  (selected1 : list Column) :
  Forall2 (fun k c => column_map df !! k = Some c) names1 selected1 ->
  names2 ⊆ names1 ->
  exists selected2,
    Forall2 (fun k c => column_map df !! k = Some c) names2 selected2 /\
    Forall (fun c => c ∈ selected1) selected2.
Proof.
  intros H1. induction names2 as [|k ks IH]; intros Hsub.
  - exists []. split; constructor.
  - destruct IH as (cs & Hcs & Hin).
    { intros x Hx. apply Hsub. by right. }
    destruct (Forall2_lookup_elem df names1 selected1 k H1) as (c & Hc & Hel).
    { apply Hsub. by left. }
    exists (c :: cs). split; constructor; done.
Qed.

Lemma fitted_size (n : nat) (c : Column) : size (fitted n c) = size c.
Proof. unfold size. by rewrite fitted_obj. Qed.

(** X12. Projections compose: on a frame whose columns share one row count,
    projecting onto a schema and then onto a second schema whose names all
    occur in the first gives the same result, errors included, as
    projecting onto the second schema at once. *)
Theorem Projection_composes (schema1 schema2 : Schema) (df d1 : DataFrame) :
  rectangular df ->
  NoDup (schema1.*1) ->
  schema2.*1 ⊆ schema1.*1 ->
  do_evaluate schema1 df = Ok d1 ->
  do_evaluate schema2 d1 = do_evaluate schema2 df.
Proof.
  intros Hrect Hnd Hsub Hd1.
  assert (Hsel1 : exists selected1,
            Forall2 (fun k c => column_map df !! k = Some c) (schema1.*1) selected1).
  { revert Hd1. unfold do_evaluate.
    destruct (rmapM _ (schema1.*1)) as [sel|e] eqn:E; [|discriminate].
    intros _. exists sel. by apply rmapM_getitem_inv. }
  destruct Hsel1 as (selected1 & Hsel1).
  rewrite (do_evaluate_selected _ _ _ Hrect Hsel1) in Hd1. injection Hd1 as <-.
  set (N := num_rows df) in *.
  set (d1 := mkDataFrame (fitted N <$> selected1)).
  destruct (select_subset df _ _ _ Hsel1 Hsub) as (selected2 & Hsel2 & Hin2).
  assert (Hnames1 : column_names d1 = schema1.*1).
  { unfold column_names, d1. simpl. rewrite <- list_fmap_compose.
    rewrite <- (selected_names df _ _ Hsel1). apply list_fmap_ext.
    intros i c _. apply fitted_name. }
  assert (Hsz1 : Forall (fun c => size c = N) (fitted N <$> selected1)).
  { apply Forall_fmap. eapply Forall_impl; [exact (selected_sizes _ _ _ Hrect Hsel1)|].
    intros c Hc. simpl. by rewrite fitted_size. }
  assert (Hrect1 : rectangular d1) by (by eapply NodeFacts.Forall_same_rectangular).
  assert (Hsel2' : Forall2 (fun k c => column_map d1 !! k = Some c) (schema2.*1)
                     (fitted N <$> selected2)).
  { clear Hsub. induction Hsel2 as [|k c ks cs Hk _ IH]; [constructor|].
    apply Forall_cons in Hin2 as [Hc Hcs]. rewrite fmap_cons.
    constructor; [|by apply IH].
    apply column_map_inv in Hk as [_ <-].
    rewrite <- (fitted_name N c).
    apply SelectFacts.column_map_lookup; [by rewrite Hnames1|].
    unfold d1. simpl. apply list_elem_of_fmap. eauto. }
  rewrite (do_evaluate_selected _ _ _ Hrect1 Hsel2').
  rewrite (do_evaluate_selected _ _ _ Hrect Hsel2).
  do 2 f_equal. rewrite <- list_fmap_compose. apply list_fmap_ext.
  intros i c Hi. simpl.
  assert (Hc : c ∈ selected1).
  { rewrite Forall_forall in Hin2. apply Hin2. by eapply list_elem_of_lookup_2. }
  assert (HN : num_rows d1 = N).
  { unfold num_rows, d1. simpl. destruct selected1 as [|c0 cs]; [inversion Hc|].
    simpl. apply Forall_cons in Hsz1 as [? _]. done. }
  rewrite HN. apply fitted_fitted.
Qed.

Lemma Projection_composes_witness :
  do_evaluate schema_b
    (mkDataFrame [col_three; col_scalar_x3]) = do_evaluate schema_b Select.frame_ab.
Proof.
  apply (Projection_composes schema_ba schema_b Select.frame_ab
           (mkDataFrame [col_three; col_scalar_x3])).
  - repeat constructor.
  - apply NoDup_cons. split; [|apply NoDup_singleton].
    intros H. apply list_elem_of_singleton in H. discriminate.
  - intros x Hx. apply list_elem_of_singleton in Hx as ->. by left.
  - reflexivity.
Defined.

End ProjectionFacts.

(** ** MapFunction: rename and row_index *)

Module MapFunctionFacts.
Import Columns Frames Exprs Engine EngineFacts Sources MapFunction.

Lemma size_list_to_set_le (l : list string) :
  (base.size (list_to_set l : gset string) <= length l)%nat.
Proof.
  induction l as [|x l IH].
  - by rewrite list_to_set_nil, size_empty.
  - rewrite list_to_set_cons. cbn [length].
    destruct (decide (x ∈ (list_to_set l : gset string))) as [Hin|Hin].
    + replace ({[x]} ∪ list_to_set l : gset string) with (list_to_set l : gset string).
      * lia.
      * apply set_eq. intros y. rewrite elem_of_union, elem_of_singleton.
        split; [by right|]. intros [->|?]; done.
    + rewrite size_union, size_singleton; [lia|].
      intros y. rewrite elem_of_singleton. intros -> ?. done.
Qed.

Lemma size_list_to_set_NoDup (l : list string) :
  base.size (list_to_set l : gset string) = length l -> NoDup l.
Proof.
  induction l as [|x l IH]; [constructor|].
  rewrite list_to_set_cons. cbn [length].
  destruct (decide (x ∈ (list_to_set l : gset string))) as [Hin|Hin].
  - replace ({[x]} ∪ list_to_set l : gset string) with (list_to_set l : gset string).
    + pose proof (size_list_to_set_le l). lia.
    + apply set_eq. intros y. rewrite elem_of_union, elem_of_singleton.
      split; [by right|]. intros [->|?]; done.
  - rewrite size_union, size_singleton.
    + intros H. constructor; [|apply IH; lia].
      by rewrite elem_of_list_to_set in Hin.
    + intros y. rewrite elem_of_singleton. intros -> ?. done.
Qed.

(** What [init_rename] has checked when it returns. *)
Lemma init_rename_Ok (child_schema : Schema) (old new : list string) (strict : bool)
  (options : list string * list string * bool) :
  init_rename child_schema old new strict = Ok options ->
  options = (old, new, strict) /\ NoDup new /\
  forall k, k ∈ new -> k ∈ child_schema.*1 -> k ∈ old.
Proof.
  unfold init_rename.
  destruct (Nat.eqb _ _) eqn:Hlen; simpl; [|discriminate].
  destruct (bool_decide _) eqn:Hdis; simpl; [|discriminate].
  intros [= <-]. split; [reflexivity|].
  apply Nat.eqb_eq in Hlen. apply bool_decide_eq_true in Hdis.
  split; [by apply size_list_to_set_NoDup|].
  intros k Hnew Hschema. destruct (decide (k ∈ old)) as [|Hold]; [done|].
  exfalso. apply (not_elem_of_empty (C := gset string) k). rewrite <- Hdis.
  rewrite elem_of_intersection, elem_of_difference, !elem_of_list_to_set. done.
Qed.

Lemma foldl_mapping_inv (pairs : list (string * string)) (m : gmap string string)
  (k v : string) :
  foldl (fun m p => <[fst p := snd p]> m) m pairs !! k = Some v ->
  (k, v) ∈ pairs \/ m !! k = Some v.
Proof.
  revert m. induction pairs as [|[k0 v0] pairs IH]; intros m; simpl; [by right|].
  intros H. apply IH in H as [Hin|H]; [left; by right|].
  destruct (decide (k0 = k)) as [<-|Hne].
  - rewrite lookup_insert_eq in H. injection H as <-. left. by left.
  - rewrite lookup_insert_ne in H by done. by right.
Qed.

Lemma foldl_mapping_None (pairs : list (string * string)) (m : gmap string string)
  (k : string) :
  foldl (fun m p => <[fst p := snd p]> m) m pairs !! k = None ->
  (k ∉ pairs.*1) /\ m !! k = None.
Proof.
  revert m. induction pairs as [|[k0 v0] pairs IH]; intros m; simpl.
  - intros H. split; [apply not_elem_of_nil|done].
  - intros H. apply IH in H as [Hnot H].
    destruct (decide (k0 = k)) as [<-|Hne].
    + by rewrite lookup_insert_eq in H.
    + rewrite lookup_insert_ne in H by done. split; [|done].
      rewrite not_elem_of_cons. split; [congruence|done].
Qed.

Lemma NoDup_snd_inj (pairs : list (string * string)) (a b v : string) :
  NoDup (pairs.*2) -> (a, v) ∈ pairs -> (b, v) ∈ pairs -> a = b.
Proof.
  induction pairs as [|[k0 v0] pairs IH]; intros Hnd Ha Hb; [inversion Ha|].
  rewrite fmap_cons in Hnd. apply NoDup_cons in Hnd as [Hnot Hnd].
  apply elem_of_cons in Ha as [Ha|Ha]; apply elem_of_cons in Hb as [Hb|Hb].
  - congruence.
  - exfalso. apply Hnot. apply list_elem_of_fmap. exists (b, v).
    split; [simpl; congruence|done].
  - exfalso. apply Hnot. apply list_elem_of_fmap. exists (a, v).
    split; [simpl; congruence|done].
  - by apply IH.
Qed.

(** X13. A rename the constructor has accepted never produces a duplicate
    column name: on a frame with the child schema's (distinct) column names
    and as many old names as new ones, the renamed frame has distinct
    column names; its columns keep their values and metadata, a column
    whose name is not among the old names keeps its name, and every other
    column gets one of the new names. *)
Theorem rename_keeps_names_distinct (child_schema : Schema) (old new : list string)
  (strict : bool) (options : list string * list string * bool) (df : DataFrame) :
  init_rename child_schema old new strict = Ok options ->
  column_names df = child_schema.*1 ->
  NoDup (column_names df) ->
  length old = length new ->
  exists out,
    do_evaluate_rename old new df = Ok out /\
    NoDup (column_names out) /\
    table out = table df /\
    Forall2 (fun c o => o = rename c (name o) /\
                        (name c ∉ old -> name o = name c) /\
                        (name c ∈ old -> name o ∈ new))
            (columns df) (columns out).
Proof.
  intros Hinit Hnames Hnd Hlen.
  apply init_rename_Ok in Hinit as (_ & Hnew & Hdisj).
  unfold do_evaluate_rename, rename_mapping.
  rewrite (GroupByFacts.zip_strict_Ok old new Hlen). cbn [rbind].
  set (m := foldl _ ∅ (zip old new)).
  set (f := fun k : string => default k (m !! k)).
  assert (Hm : forall k v, m !! k = Some v -> (k, v) ∈ zip old new).
  { intros k v H. apply foldl_mapping_inv in H as [H|H]; [done|].
    by rewrite lookup_empty in H. }
  assert (Hnone : forall k, m !! k = None -> k ∉ old).
  { intros k H. apply foldl_mapping_None in H as [H _].
    by rewrite fst_zip in H by lia. }
  assert (Hsnd : NoDup ((zip old new).*2)) by (rewrite snd_zip by lia; done).
  assert (Hin_new : forall k v, m !! k = Some v -> v ∈ new /\ k ∈ old).
  { intros k v H. apply Hm in H. split.
    - apply (list_elem_of_fmap_2 snd) in H. simpl in H. by rewrite snd_zip in H by lia.
    - apply (list_elem_of_fmap_2 fst) in H. simpl in H. by rewrite fst_zip in H by lia. }
  eexists. split; [reflexivity|]. split; [|split].
  - unfold column_names, rename_columns. simpl. rewrite <- list_fmap_compose.
    change (NoDup ((f ∘ name) <$> columns df)).
    rewrite list_fmap_compose. apply NoDup_fmap_2_strong; [|exact Hnd].
    intros k1 k2 H1 H2 Heq. unfold f in Heq.
    destruct (m !! k1) as [v1|] eqn:E1; destruct (m !! k2) as [v2|] eqn:E2;
      simpl in Heq.
    + rewrite Heq in E1.
      eapply NoDup_snd_inj; [exact Hsnd|by apply Hm|by apply Hm].
    + exfalso. destruct (Hin_new _ _ E1) as [Hv _]. rewrite Heq in Hv.
      apply (Hnone k2 E2). apply Hdisj; [done|]. by rewrite <- Hnames.
    + exfalso. destruct (Hin_new _ _ E2) as [Hv _]. rewrite <- Heq in Hv.
      apply (Hnone k1 E1). apply Hdisj; [done|]. by rewrite <- Hnames.
    + exact Heq.
  - unfold table, rename_columns. simpl. rewrite <- list_fmap_compose.
    by apply list_fmap_ext.
  - unfold rename_columns. simpl. apply Forall2_fmap_r, Forall_Forall2_diag.
    apply Forall_forall. intros c _. simpl. split; [reflexivity|]. split.
    + intros Hold. destruct (m !! name c) as [v|] eqn:E; [|reflexivity].
      destruct (Hin_new _ _ E) as [_ ?]. contradiction.
    + intros Hold. destruct (m !! name c) as [v|] eqn:E.
      * simpl. by destruct (Hin_new _ _ E).
      * exfalso. by apply (Hnone _ E).
Qed.

Lemma rename_keeps_names_distinct_witness :
  exists out,
    do_evaluate_rename ["a"; "b"] ["b"; "a"] Select.frame_ab = Ok out /\
    NoDup (column_names out) /\
    table out = table Select.frame_ab /\
    Forall2 (fun c o => o = rename c (name o) /\
                        (name c ∉ ["a"; "b"] -> name o = name c) /\
                        (name c ∈ ["a"; "b"] -> name o ∈ ["b"; "a"]))
            (columns Select.frame_ab) (columns out).
Proof.
  apply (rename_keeps_names_distinct [("a", INT64); ("b", INT64)] ["a"; "b"] ["b"; "a"]
           true (["a"; "b"], ["b"; "a"], true) Select.frame_ab).
  - vm_compute. reflexivity.
  - reflexivity.
  - apply NoDup_cons. split; [|apply NoDup_singleton].
    intros H. apply list_elem_of_singleton in H. discriminate.
  - reflexivity.
Defined.

Lemma sequence_lookup_from (n k : nat) (init : Z) :
  (k < n)%nat -> sequence n init 1 !! k = Some (Some (init + Z.of_nat k)%Z).
Proof.
  intros Hk. unfold sequence. rewrite list_lookup_fmap, lookup_seq_lt by done.
  simpl. do 2 f_equal. lia.
Qed.

Lemma sequence_strictly_ascending (n : nat) (init : Z) :
  StronglySorted cell_lt (sequence n init 1).
Proof.
  unfold sequence. apply GroupByFacts.StronglySorted_fmap_seq.
  intros a b Hab. simpl. lia.
Qed.

Lemma schema_getitem_missing (schema : Schema) (k : string) :
  k ∉ schema.*1 -> schema_getitem schema k = Raise (KeyError k).
Proof.
  induction schema as [|[k0 dt] schema IH]; intros Hk; [reflexivity|].
  rewrite fmap_cons, not_elem_of_cons in Hk. destruct Hk as [Hne Hk]. simpl in *.
  destruct (String.eqb k0 k) eqn:E; [|by apply IH].
  apply String.eqb_eq in E. congruence.
Qed.

Lemma fits_one (dt : DataType) (z : Z) : fits dt z -> fits dt 1.
Proof. unfold fits. destruct dt; simpl; try done; lia. Qed.

Lemma fits_between (dt : DataType) (a b c : Z) :
  fits dt a -> fits dt c -> (a <= b <= c)%Z -> fits dt b.
Proof. unfold fits. destruct (int_bounds dt) as [[lo modulus]|]; [lia|done]. Qed.

Lemma cast_cell_fits (dt : DataType) (z : Z) :
  fits dt z -> cast_cell dt (Some z) = Some z.
Proof.
  unfold fits, cast_cell. destruct (int_bounds dt) as [[lo modulus]|]; [|done].
  intros Hz. simpl. f_equal. rewrite Z.mod_small by lia. lia.
Qed.

Lemma wrapping_exact_when_fitting :
  exact_when_fitting wrapping_from_py wrapping_sequence.
Proof.
  split.
  - intros dt z _. by eexists.
  - intros dt init step n s_init s_step [= <-] [= <-] Hfit.
    unfold wrapping_sequence, sequence. cbn [fst snd]. f_equal.
    rewrite <- list_fmap_compose. apply list_eq. intros k.
    rewrite !list_lookup_fmap.
    destruct (decide (k < n)%nat) as [Hk|Hk].
    + rewrite lookup_seq_lt by done. simpl. f_equal.
      apply cast_cell_fits. exact (Hfit k Hk).
    + by rewrite lookup_seq_ge by lia.
Qed.

(** X14. The [row_index] transform, when the requested offset and the index
    of the last row both fit the integer type the node's schema gives the
    new column (and the storage engine's scalars and sequences are exact
    for integers that fit), puts one new column in front of the frame's
    columns, which it leaves as they are. The new column has the requested
    name and one value per row, the values [offset], [offset + 1], ... in
    row order, so that its tags (sorted, ascending, nulls last) are right
    and the frame stays rectangular. A name that the node's schema does not
    have raises [KeyError]. *)
Theorem row_index_counts_rows {Scalar : Type}
  (Scalar_from_py : Z -> DataType -> result Scalar)
  (filling_sequence : nat -> Scalar -> Scalar -> result (list cell))
  (schema : Schema) (col_name : string) (offset : Z) (df : DataFrame) :
  (forall dtype,
     exact_when_fitting Scalar_from_py filling_sequence ->
     schema_getitem schema col_name = Ok dtype ->
     fits dtype offset ->
     fits dtype (offset + Z.of_nat (Frames.num_rows df - 1)) ->
     exists index_col,
       do_evaluate_row_index Scalar_from_py filling_sequence schema col_name offset df
         = Ok (mkDataFrame (index_col :: columns df)) /\
       name index_col = col_name /\
       size index_col = Frames.num_rows df /\
       (forall i : nat, (i < Frames.num_rows df)%nat ->
          obj index_col !! i = Some (Some (offset + Z.of_nat i)%Z)) /\
       is_sorted index_col = YES /\ order index_col = ASCENDING /\
       null_order index_col = AFTER /\
       StronglySorted cell_lt (obj index_col) /\
       (rectangular df -> rectangular (mkDataFrame (index_col :: columns df)))) /\
  ((col_name ∉ schema.*1) ->
     do_evaluate_row_index Scalar_from_py filling_sequence schema col_name offset df
       = Raise (KeyError col_name)).
Proof.
  split.
  - intros dtype [Hscalar Hseq] Hdt Hfirst Hlast.
    destruct (Hscalar dtype 1 (fits_one _ _ Hfirst)) as [s_step Hstep].
    destruct (Hscalar dtype offset Hfirst) as [s_init Hinit].
    assert (Hvalues : filling_sequence (Frames.num_rows df) s_init s_step
                      = Ok (sequence (Frames.num_rows df) offset 1)).
    { apply (Hseq dtype); [exact Hinit|exact Hstep|].
      intros k Hk. apply (fits_between dtype offset _ _ Hfirst Hlast). lia. }
    unfold do_evaluate_row_index. rewrite Hdt. cbn [rbind].
    rewrite Hstep. cbn [rbind]. rewrite Hinit. cbn [rbind].
    rewrite Hvalues. cbn [rbind].
    eexists. split; [reflexivity|]. simpl.
    split; [reflexivity|]. split; [apply sequence_length|].
    split; [intros i Hi; by apply sequence_lookup_from|].
    do 3 (split; [reflexivity|]).
    split; [apply sequence_strictly_ascending|].
    intros Hrect. unfold rectangular. simpl. unfold Frames.num_rows at 1. simpl.
    unfold size at 2. simpl. rewrite sequence_length.
    constructor; [apply sequence_length|exact Hrect].
  - intros Hk. unfold do_evaluate_row_index.
    by rewrite (schema_getitem_missing _ _ Hk).
Qed.

Lemma row_index_counts_rows_witness :
  exists index_col,
    do_evaluate_row_index wrapping_from_py wrapping_sequence
      [("index", UINT32); ("b", INT64)] "index" 5 CSE.frame_a
      = Ok (mkDataFrame (index_col :: columns CSE.frame_a)) /\
    name index_col = "index" /\
    size index_col = Frames.num_rows CSE.frame_a /\
    (forall i : nat, (i < Frames.num_rows CSE.frame_a)%nat ->
       obj index_col !! i = Some (Some (5 + Z.of_nat i)%Z)) /\
    is_sorted index_col = YES /\ order index_col = ASCENDING /\
    null_order index_col = AFTER /\
    StronglySorted cell_lt (obj index_col) /\
    (rectangular CSE.frame_a ->
     rectangular (mkDataFrame (index_col :: columns CSE.frame_a))).
Proof.
  apply (proj1 (row_index_counts_rows wrapping_from_py wrapping_sequence
                  [("index", UINT32); ("b", INT64)] "index" 5 CSE.frame_a) UINT32).
  - exact wrapping_exact_when_fitting.
  - reflexivity.
  - unfold fits. simpl. lia.
  - unfold fits. vm_compute. split; [discriminate|reflexivity].
Defined.

End MapFunctionFacts.

(** ** Union and HConcat *)

Module ConcatFacts.
Import Columns Frames Engine EngineFacts Concatenate.

Lemma fmap_lookup_seq {A} (d : A) (l : list A) :
  (fun j => default d (l !! j)) <$> seq 0 (length l) = l.
Proof.
  apply list_eq. intros i. rewrite list_lookup_fmap.
  destruct (decide (i < length l)%nat) as [Hi|Hi].
  - rewrite lookup_seq_lt by done. simpl.
    destruct (lookup_lt_is_Some_2 l i Hi) as [x ->]. reflexivity.
  - rewrite lookup_seq_ge by lia. simpl. symmetry. apply lookup_ge_None. lia.
Qed.

Lemma concatenate_Ok (t0 : Table) (rest : list Table) :
  Forall (fun t => length t = length t0) rest ->
  concatenate (t0 :: rest) =
  Ok ((fun j => concat ((fun t => default [] (t !! j)) <$> (t0 :: rest)))
        <$> seq 0 (length t0)).
Proof.
  intros Hall. unfold concatenate.
  replace (forallb _ (t0 :: rest)) with true; [reflexivity|].
  symmetry. apply forallb_forall. intros t Ht. apply Nat.eqb_eq.
  apply list_elem_of_In, elem_of_cons in Ht as [->|Ht]; [done|].
  rewrite Forall_forall in Hall. by apply Hall.
Qed.


Lemma plain_column_sorted (o : list cell) (n : string) :
  is_sorted (plain_column o n) = YES -> (size (plain_column o n) <= 1)%nat.
Proof.
  unfold plain_column, size. cbn [is_sorted obj].
  destruct (Nat.leb (length o) 1) eqn:E; [|discriminate].
  intros _. by apply Nat.leb_le.
Qed.

Lemma from_table_Ok (t : Table) (names : list string) :
  length t = length names ->
  MergeSorted.from_table t names =
  Ok (mkDataFrame ((fun p => plain_column (fst p) (snd p)) <$> zip t names)).
Proof.
  intros H. unfold MergeSorted.from_table.
  by rewrite (proj2 (Nat.eqb_eq _ _) H).
Qed.



Lemma _extend_with_nulls_Ok (t : list (list cell)) (nrows : nat) :
  HConcat._extend_with_nulls t nrows =
  Ok ((fun column => column ++ replicate nrows None) <$> t).
Proof.
  unfold HConcat._extend_with_nulls. rewrite concatenate_Ok.
  2:{ constructor; [by rewrite length_fmap|constructor]. }
  f_equal. apply list_eq. intros i. rewrite !list_lookup_fmap.
  destruct (decide (i < length t)%nat) as [Hi|Hi].
  - rewrite lookup_seq_lt by done.
    destruct (lookup_lt_is_Some_2 t i Hi) as [column Hc]. rewrite Hc.
    assert (Hn : ((fun column => all_null_like column nrows) <$> t) !! i
                 = Some (replicate nrows None)).
    { by rewrite list_lookup_fmap, Hc. }
    change (Some (concat [default [] (t !! i);
                          default [] (((fun column => all_null_like column nrows)
                                         <$> t) !! i)])
            = Some (column ++ replicate nrows None)).
    rewrite Hc, Hn. simpl. by rewrite app_nil_r.
  - rewrite lookup_seq_ge by lia. rewrite (proj2 (lookup_ge_None t i)) by lia.
    reflexivity.
Qed.

Lemma zip_table_names (g : list cell -> list cell) (cols : list Column) :
  (fun p => plain_column (fst p) (snd p))
    <$> zip (g <$> (obj <$> cols)) (name <$> cols) =
  (fun c => plain_column (g (obj c)) (name c)) <$> cols.
Proof. induction cols as [|c cs IH]; [reflexivity|]. simpl. by f_equal. Qed.

Lemma extend_frame (df : DataFrame) (max_rows : nat) :
  Nat.eqb (Frames.num_rows df) max_rows = false ->
  (t <- HConcat._extend_with_nulls (table df) (max_rows - Frames.num_rows df) ;;
   MergeSorted.from_table t (column_names df))
  = Ok (mkDataFrame (HConcat.padded max_rows df)).
Proof.
  intros Hne. rewrite _extend_with_nulls_Ok. cbn [rbind].
  rewrite from_table_Ok.
  2:{ unfold table, column_names. by rewrite !length_fmap. }
  unfold HConcat.padded. rewrite Hne. unfold table, column_names.
  by rewrite zip_table_names.
Qed.

Lemma rmapM_padded (dfs : list DataFrame) (max_rows : nat) :
  rmapM (fun df =>
           if Nat.eqb (Frames.num_rows df) max_rows then Ok df
           else
             t <- HConcat._extend_with_nulls (table df) (max_rows - Frames.num_rows df) ;;
             MergeSorted.from_table t (column_names df)) dfs
  = Ok ((fun df => mkDataFrame (HConcat.padded max_rows df)) <$> dfs).
Proof.
  apply rmapM_Ok, Forall_forall. intros df _.
  destruct (Nat.eqb (Frames.num_rows df) max_rows) eqn:E.
  - unfold HConcat.padded. rewrite E. by destruct df.
  - by apply extend_frame.
Qed.

Lemma foldl_max_ge (a : nat) (l : list nat) :
  (a <= foldl Nat.max a l)%nat /\ Forall (fun x => (x <= foldl Nat.max a l)%nat) l.
Proof.
  revert a. induction l as [|x l IH]; intros a; simpl; [split; [lia|constructor]|].
  destruct (IH (Nat.max a x)) as [H1 H2]. split; [lia|].
  constructor; [lia|exact H2].
Qed.

Lemma foldl_max_in (a : nat) (l : list nat) : foldl Nat.max a l ∈ a :: l.
Proof.
  revert a. induction l as [|x l IH]; intros a; simpl; [by left|].
  specialize (IH (Nat.max a x)). apply elem_of_cons in IH as [->|IH].
  - destruct (Nat.max_spec a x) as [[_ ->]|[_ ->]]; [right; by left|by left].
  - right. by right.
Qed.

Lemma padded_sizes (df : DataFrame) (max_rows : nat) :
  rectangular df -> (Frames.num_rows df <= max_rows)%nat ->
  Forall (fun c => size c = max_rows) (HConcat.padded max_rows df).
Proof.
  intros Hrect Hle. unfold HConcat.padded.
  destruct (Nat.eqb (Frames.num_rows df) max_rows) eqn:E.
  - apply Nat.eqb_eq in E. by rewrite <- E.
  - apply Forall_fmap. eapply Forall_impl; [exact Hrect|].
    intros c Hc. unfold size in *. simpl. rewrite length_app, length_replicate. lia.
Qed.

Lemma padded_names (df : DataFrame) (max_rows : nat) :
  name <$> HConcat.padded max_rows df = column_names df.
Proof.
  unfold HConcat.padded, column_names.
  destruct (Nat.eqb _ _); [reflexivity|]. by rewrite <- list_fmap_compose.
Qed.

(** X16. Without broadcasting, [HConcat] returns the columns of all its
    children, in order and under their names, over as many rows as the
    longest child has: a child of that many rows keeps its columns,
    metadata included; the columns of a shorter child are built anew, with
    their values in front and filled up with nulls, under the metadata of a
    column built without any (so that one of more than one row is not
    tagged as sorted). When
    every child's columns share one row count, so do all the columns of the
    result. An empty list of children raises [ValueError]. *)
Theorem HConcat_pads_with_nulls (dfs : list DataFrame) :
  (forall max_rows, HConcat.max_num_rows dfs = Ok max_rows ->
     HConcat.do_evaluate false dfs
       = Ok (mkDataFrame (concat (HConcat.padded max_rows <$> dfs))) /\
     name <$> concat (HConcat.padded max_rows <$> dfs) = concat (column_names <$> dfs) /\
     Forall (fun df => (Frames.num_rows df <= max_rows)%nat) dfs /\
     Exists (fun df => Frames.num_rows df = max_rows) dfs /\
     (Forall rectangular dfs ->
      Forall (fun c => size c = max_rows) (concat (HConcat.padded max_rows <$> dfs)))) /\
  HConcat.do_evaluate false [] = Raise (ValueError "max() arg is an empty sequence").
Proof.
  split; [|reflexivity].
  intros max_rows Hmax.
  assert (Hle : Forall (fun df => (Frames.num_rows df <= max_rows)%nat) dfs).
  { destruct dfs as [|df dfs]; [discriminate|]. injection Hmax as <-.
    destruct (foldl_max_ge (Frames.num_rows df) (Frames.num_rows <$> dfs)) as [H1 H2].
    constructor; [exact H1|]. by apply Forall_fmap in H2. }
  split; [|split; [|split; [exact Hle|split]]].
  - unfold HConcat.do_evaluate. rewrite Hmax. cbn [rbind].
    rewrite rmapM_padded. cbn [rbind]. by rewrite <- list_fmap_compose.
  - clear. induction dfs as [|df dfs IH]; [reflexivity|].
    rewrite !fmap_cons. simpl. rewrite fmap_app, IH. by rewrite padded_names.
  - destruct dfs as [|df dfs]; [discriminate|]. injection Hmax as <-.
    pose proof (foldl_max_in (Frames.num_rows df) (Frames.num_rows <$> dfs)) as Hin.
    rewrite <- fmap_cons in Hin. apply list_elem_of_fmap in Hin as (d & Hd & Hin).
    apply Exists_exists. exists d. split; [exact Hin|by symmetry].
  - intros Hrect. apply Forall_concat, Forall_fmap.
    apply Forall_forall. intros df Hdf. simpl.
    rewrite Forall_forall in Hrect, Hle. apply padded_sizes; auto.
Qed.

Lemma HConcat_pads_with_nulls_witness :
  HConcat.do_evaluate false [Union.frame_uv; Union.frame_xy]
    = Ok (mkDataFrame (concat (HConcat.padded 2 <$> [Union.frame_uv; Union.frame_xy]))) /\
  name <$> concat (HConcat.padded 2 <$> [Union.frame_uv; Union.frame_xy])
    = concat (column_names <$> [Union.frame_uv; Union.frame_xy]) /\
  Forall (fun df => (Frames.num_rows df <= 2)%nat) [Union.frame_uv; Union.frame_xy] /\
  Exists (fun df => Frames.num_rows df = 2%nat) [Union.frame_uv; Union.frame_xy] /\
  (Forall rectangular [Union.frame_uv; Union.frame_xy] ->
   Forall (fun c => size c = 2%nat)
     (concat (HConcat.padded 2 <$> [Union.frame_uv; Union.frame_xy]))).
Proof.
  apply (proj1 (HConcat_pads_with_nulls [Union.frame_uv; Union.frame_xy]) 2%nat).
  reflexivity.
Defined.

End ConcatFacts.

(** ** Scan: skipping rows while reading parquet in chunks *)

Module ScanChunkFacts.
Import Columns Frames Engine EngineFacts ScanChunks.

Lemma slice_skip_table (tbl : list (list cell)) (rows_left_to_skip : Z) :
  table_rectangular tbl ->
  fst (slice_skip tbl rows_left_to_skip)
    = drop (Z.to_nat rows_left_to_skip) <$> tbl.
Proof.
  intros Hrect. unfold slice_skip.
  destruct (0 <? rows_left_to_skip)%Z eqn:Hpos; simpl.
  - apply Z.ltb_lt in Hpos. unfold slice_rows. apply list_fmap_ext.
    intros i column Hi. simpl.
    assert (Hlen : length column = num_rows tbl).
    { unfold table_rectangular in Hrect. rewrite Forall_forall in Hrect.
      apply Hrect. by eapply list_elem_of_lookup_2. }
    rewrite Nat2Z.id.
    destruct (Z.min_spec rows_left_to_skip (Z.of_nat (num_rows tbl)))
      as [[Hlt ->]|[Hge ->]].
    + rewrite take_ge; [reflexivity|]. rewrite length_drop. lia.
    + rewrite Nat2Z.id, Nat.sub_diag. simpl.
      rewrite !drop_ge; [reflexivity|lia|lia].
  - apply Z.ltb_ge in Hpos. replace (Z.to_nat rows_left_to_skip) with 0%nat by lia.
    symmetry. rewrite <- (list_fmap_id tbl) at 2. by apply list_fmap_ext.
Qed.

Lemma slice_skip_left (tbl : list (list cell)) (rows_left_to_skip : Z) :
  Z.to_nat (snd (slice_skip tbl rows_left_to_skip))
    = (Z.to_nat rows_left_to_skip - num_rows tbl)%nat.
Proof.
  unfold slice_skip. destruct (0 <? rows_left_to_skip)%Z eqn:Hpos; simpl.
  - apply Z.ltb_lt in Hpos. lia.
  - apply Z.ltb_ge in Hpos. lia.
Qed.

Lemma append_columns_from (tbl : list (list cell)) (n i : nat) (cols : list (list cell)) :
  (i + n = length tbl)%nat -> length cols = length tbl ->
  foldl (fun acc i =>
           cols <- acc ;;
           match cols !! i, tbl !! i with
           | Some column, Some new => Ok (<[i := column ++ new]> cols)
           | _, _ => Raise (IndexError "list index out of range")
           end) (Ok cols) (seq i n)
  = Ok (take i cols ++ zip_with app (drop i cols) (drop i tbl)).
Proof.
  revert i cols. induction n as [|n IH]; intros i cols Hi Hlen.
  - simpl. rewrite !drop_ge by lia. simpl. rewrite app_nil_r. by rewrite take_ge by lia.
  - simpl.
    destruct (lookup_lt_is_Some_2 cols i) as [column Hc]; [lia|].
    destruct (lookup_lt_is_Some_2 tbl i) as [new Hn]; [lia|].
    rewrite Hc, Hn. rewrite IH; [|lia|by rewrite length_insert].
    f_equal.
    rewrite (drop_S cols column i Hc), (drop_S tbl new i Hn). simpl.
    rewrite (take_S_r (<[i:=column ++ new]> cols) i (column ++ new)).
    2:{ apply list_lookup_insert_eq. lia. }
    rewrite take_insert_ge by lia. rewrite drop_insert_lt by lia.
    by rewrite <- app_assoc.
Qed.

Lemma append_columns_Ok (cols tbl : list (list cell)) :
  length cols = length tbl ->
  append_columns cols tbl = Ok (zip_with app cols tbl).
Proof.
  intros Hlen. exact (append_columns_from tbl (length tbl) 0 cols eq_refl Hlen).
Qed.

Lemma whole_column_length (chunk : list (list cell)) (j : nat) :
  table_rectangular chunk -> (j < length chunk)%nat ->
  length (default [] (chunk !! j)) = num_rows chunk.
Proof.
  intros Hrect Hj. destruct (lookup_lt_is_Some_2 chunk j Hj) as [column Hc].
  rewrite Hc. simpl. unfold table_rectangular in Hrect.
  rewrite Forall_forall in Hrect. apply Hrect. by eapply list_elem_of_lookup_2.
Qed.

Lemma whole_column_cons (chunk : list (list cell)) (chunks : list (list (list cell)))
  (j : nat) :
  whole_column (chunk :: chunks) j = default [] (chunk !! j) ++ whole_column chunks j.
Proof. reflexivity. Qed.

Lemma read_remaining_Ok (chunks : list (list (list cell))) :
  forall (cols : list (list cell)) (rows_left_to_skip : Z),
    Forall table_rectangular chunks ->
    Forall (fun t => length t = length cols) chunks ->
    read_remaining cols chunks rows_left_to_skip =
    Ok ((fun j => default [] (cols !! j)
                  ++ drop (Z.to_nat rows_left_to_skip) (whole_column chunks j))
          <$> seq 0 (length cols)).
Proof.
  induction chunks as [|chunk chunks IH]; intros cols left Hrect Hw.
  - simpl. f_equal. rewrite <- (ConcatFacts.fmap_lookup_seq [] cols) at 1.
    apply list_fmap_ext. intros i j _. unfold whole_column. simpl.
    by rewrite drop_nil, app_nil_r.
  - apply Forall_cons in Hrect as [Hr Hrect]. apply Forall_cons in Hw as [Hw0 Hw].
    cbn [read_remaining].
    pose proof (slice_skip_table chunk left Hr) as Htbl.
    pose proof (slice_skip_left chunk left) as Hleft.
    destruct (slice_skip chunk left) as [tbl left'] eqn:Hs. simpl in Htbl, Hleft.
    subst tbl.
    rewrite append_columns_Ok by (by rewrite length_fmap).
    cbn [rbind]. rewrite IH; [|exact Hrect|].
    2:{ eapply Forall_impl; [exact Hw|]. intros t Ht. simpl.
        rewrite length_zip_with_l_eq; [done|]. by rewrite length_fmap. }
    f_equal. rewrite length_zip_with_l_eq by (by rewrite length_fmap).
    apply list_fmap_ext. intros i j Hj.
    apply lookup_seq in Hj as [Hji Hj]. simpl in Hji. subst i. simpl.
    destruct (lookup_lt_is_Some_2 cols j Hj) as [column Hc].
    assert (Hjc : (j < length chunk)%nat) by lia.
    destruct (lookup_lt_is_Some_2 chunk j Hjc) as [new Hn].
    rewrite lookup_zip_with, Hc, list_lookup_fmap, Hn. simpl.
    rewrite whole_column_cons, Hn. simpl.
    rewrite drop_app, <- app_assoc. do 2 f_equal.
    rewrite Hleft. f_equal. f_equal.
    pose proof (whole_column_length chunk j Hr Hjc) as Hl. by rewrite Hn in Hl.
Qed.

(** X17. Reading parquet in chunks and skipping rows chunk by chunk gives
    the table one gets by putting the chunks together and skipping the rows
    once: for chunks that all have the first chunk's number of columns (and
    are tables, each with one row count), column [j] of the result is column
    [j] of all the chunks, one after the other, without its first
    [skip_rows] values; a [skip_rows] that is not positive skips nothing. *)
Theorem chunked_skip_is_whole_skip (first_chunk : list (list cell))
  (chunks : list (list (list cell))) (skip_rows : Z) :
  Forall table_rectangular (first_chunk :: chunks) ->
  Forall (fun t => length t = length first_chunk) chunks ->
  read_chunked first_chunk chunks skip_rows =
  Ok ((fun j => drop (Z.to_nat skip_rows) (whole_column (first_chunk :: chunks) j))
        <$> seq 0 (length first_chunk)).
Proof.
  intros Hrect Hw. apply Forall_cons in Hrect as [Hr Hrect].
  unfold read_chunked.
  pose proof (slice_skip_table first_chunk skip_rows Hr) as Htbl.
  pose proof (slice_skip_left first_chunk skip_rows) as Hleft.
  destruct (slice_skip first_chunk skip_rows) as [tbl left'] eqn:Hs.
  simpl in Htbl, Hleft. subst tbl.
  rewrite read_remaining_Ok; [|exact Hrect|].
  2:{ eapply Forall_impl; [exact Hw|]. intros t Ht. simpl. by rewrite length_fmap. }
  f_equal. rewrite length_fmap. apply list_fmap_ext. intros i j Hj.
  apply lookup_seq in Hj as [Hji Hj]. simpl in Hji. subst i. simpl.
  destruct (lookup_lt_is_Some_2 first_chunk j Hj) as [column Hc].
  rewrite list_lookup_fmap, Hc. simpl.
  rewrite whole_column_cons, Hc. simpl.
  rewrite drop_app. do 2 f_equal. rewrite Hleft. f_equal.
  pose proof (whole_column_length first_chunk j Hr Hj) as Hl. by rewrite Hc in Hl.
Qed.

Lemma chunked_skip_is_whole_skip_witness :
  read_chunked [[Some 1; Some 2]; [Some 10; Some 20]]
    [[[Some 3]; [Some 30]]; [[Some 4; Some 5]; [Some 40; Some 50]]] 3
  = Ok ((fun j => drop (Z.to_nat 3)
                    (whole_column
                       [[[Some 1; Some 2]; [Some 10; Some 20]];
                        [[Some 3]; [Some 30]];
                        [[Some 4; Some 5]; [Some 40; Some 50]]] j))
          <$> seq 0 (length [[Some 1; Some 2]; [Some 10; Some 20]])).
Proof.
  apply (chunked_skip_is_whole_skip [[Some 1; Some 2]; [Some 10; Some 20]]
           [[[Some 3]; [Some 30]]; [[Some 4; Some 5]; [Some 40; Some 50]]] 3).
  - repeat constructor.
  - repeat constructor.
Defined.

End ScanChunkFacts.

(** ** Decomposition of grouped aggregations: the shape of the requests *)

Module AggregationShapeFacts.
Import Columns Frames Exprs Aggregations AggregationFacts AggregationShapes.

Lemma has_aggregation_any (cs : list Expr) :
  (fix any (cs : list Expr) : bool :=
     match cs with
     | [] => false
     | c :: cs' => has_aggregation c || any cs'
     end) cs = existsb has_aggregation cs.
Proof. induction cs as [|c cs IH]; [reflexivity|]. simpl. by rewrite IH. Qed.

Section WithNames.
Variable fresh : nat -> string.

Lemma decompose_children_shape (cs : list Expr) :
  Forall (fun agg => forall name is_top gen r,
            decompose_single_agg fresh name agg is_top gen = Ok r ->
            well_decomposed fresh name agg gen r) cs ->
  forall gen aggs_l posts has_aggs gen',
    decompose_children fresh cs gen = Ok (aggs_l, posts, has_aggs, gen') ->
    has_aggs = has_aggregation <$> cs /\
    (gen <= gen')%nat /\
    Forall (fun a => is_request (value a) = true /\
                     exists i, (gen <= i < gen')%nat /\ ne_name a = fresh i)
           (concat aggs_l).
Proof.
  induction 1 as [|c cs Hc _ IH]; intros gen aggs_l posts has_aggs gen' Hd;
    simpl in Hd.
  - injection Hd as <- _ <- <-. repeat split; [lia|constructor].
  - destruct (decompose_single_agg fresh (fresh gen) c false (S gen))
      as [[[[a p] f] g1]|e] eqn:Ec; [|discriminate].
    simpl in Hd.
    destruct (decompose_children fresh cs g1) as [[[[al ps] fs] g2]|e] eqn:Ecs;
      [|discriminate].
    simpl in Hd. injection Hd as <- _ <- <-.
    destruct (Hc _ _ _ _ Ec) as (Hf & _ & Hg & Hreq). simpl in *.
    destruct (IH _ _ _ _ _ Ecs) as (Hfs & Hg2 & Hreqs).
    split; [by rewrite Hf, Hfs|]. split; [lia|].
    apply Forall_app. split.
    + eapply Forall_impl; [exact Hreq|]. intros x [Hx Hn]. split; [done|].
      destruct Hn as [Hn|(i & Hi & Hn)].
      * exists gen. split; [lia|done].
      * exists i. split; [lia|done].
    + eapply Forall_impl; [exact Hreqs|]. intros x [Hx (i & Hi & Hn)].
      split; [done|]. exists i. split; [lia|done].
Qed.

Lemma existsb_id_fmap (cs : list Expr) :
  existsb id (has_aggregation <$> cs) = existsb has_aggregation cs.
Proof.
  induction cs as [|c cs IH]; [reflexivity|].
  change (has_aggregation c || existsb id (has_aggregation <$> cs)
          = has_aggregation c || existsb has_aggregation cs).
  by rewrite IH.
Qed.

Lemma decompose_pointwise_shape (agg : Expr) :
  has_aggregation agg = existsb has_aggregation (children agg) ->
  is_request agg = negb (has_aggregation agg) ->
  Forall (fun agg => forall name is_top gen r,
            decompose_single_agg fresh name agg is_top gen = Ok r ->
            well_decomposed fresh name agg gen r) (children agg) ->
  forall name gen r,
    decompose_pointwise fresh name agg gen = Ok r ->
    well_decomposed fresh name agg gen r.
Proof.
  intros Hany Hreq Hcs name gen r Hd. unfold decompose_pointwise in Hd.
  destruct (is_pointwise agg); [|discriminate].
  destruct (children agg) as [|c cs] eqn:Echildren; [discriminate|].
  destruct (decompose_children fresh (c :: cs) gen) as [[[[al ps] fs] g1]|e] eqn:Ecs;
    [|discriminate].
  simpl in Hd.
  destruct (decompose_children_shape _ Hcs _ _ _ _ _ Ecs) as (Hfs & Hg & Hreqs).
  rewrite Hfs, existsb_id_fmap, <- Hany in Hd.
  destruct (has_aggregation agg) eqn:Hagg; injection Hd as <-;
    unfold well_decomposed; simpl.
  - split; [done|]. split; [done|]. split; [done|].
    eapply Forall_impl; [exact Hreqs|]. intros x [Hx Hn]. split; [done|by right].
  - split; [done|]. split; [done|]. split; [done|].
    constructor; [|constructor]. simpl. split; [by rewrite Hreq|by left].
Qed.

Lemma decompose_shape (agg : Expr) :
  forall name is_top gen r,
    decompose_single_agg fresh name agg is_top gen = Ok r ->
    well_decomposed fresh name agg gen r.
Proof.
  induction agg as [dt nm|dt|dt v|dt vs|dt nm o cs IH|dt cs IH|dt nm o cs IH
                   |dt cs IH|cl dt pw cs IH] using Expr_ind_children;
    intros name is_top gen r Hd.
  - simpl in Hd. injection Hd as <-. unfold well_decomposed. simpl.
    repeat split; [lia|]. constructor; [|constructor]. split; [done|by left].
  - simpl in Hd. injection Hd as <-. unfold well_decomposed. simpl.
    repeat split; [lia|]. constructor; [|constructor]. split; [done|by left].
  - simpl in Hd. injection Hd as <-. unfold well_decomposed. simpl.
    repeat split; [lia|constructor].
  - simpl in Hd. injection Hd as <-. unfold well_decomposed. simpl.
    repeat split; [lia|constructor].
  - simpl in Hd. destruct cs as [|child rest].
    { destruct (String.eqb nm "quantile"); discriminate. }
    apply Forall_cons in IH as [IHchild _].
    destruct (negb (String.eqb nm "quantile") && _); [discriminate|].
    destruct (bool_decide (nm ∈ ["min"; "max"]) && is_floating_point (dtype child)).
    + destruct (truthy o); simpl in Hd; [discriminate|].
      destruct (decompose_single_agg fresh (fresh gen) child false (S gen))
        as [[[[a p] f] g1]|e] eqn:Ec; simpl in Hd; [|discriminate].
      destruct (IHchild _ _ _ _ Ec) as (Hf & _ & Hg & _). simpl in Hf, Hg.
      destruct f; [discriminate|]. injection Hd as <-.
      unfold well_decomposed. simpl. repeat split; [lia|].
      constructor; [|constructor]. simpl. rewrite orb_false_r, <- Hf.
      split; [done|by left].
    + simpl in Hd.
      destruct (decompose_single_agg fresh (fresh gen) child false (S gen))
        as [[[[a p] f] g1]|e] eqn:Ec; simpl in Hd; [|discriminate].
      destruct (IHchild _ _ _ _ Ec) as (Hf & _ & Hg & _). simpl in Hf, Hg.
      destruct f; [discriminate|].
      assert (Hreq : is_request (Agg dt nm o (child :: rest)) = true)
        by (simpl; by rewrite <- Hf).
      destruct (String.eqb nm "sum"); [destruct is_top|]; injection Hd as <-;
        unfold well_decomposed; simpl; (repeat split; [lia|]);
        (constructor; [|constructor]); (split; [exact Hreq|by left]).
  - simpl in Hd. discriminate.
  - rewrite decompose_UnaryFunction in Hd.
    eapply decompose_pointwise_shape; [| |exact IH|exact Hd].
    + simpl. apply has_aggregation_any.
    + reflexivity.
  - rewrite decompose_Cast in Hd.
    eapply decompose_pointwise_shape; [| |exact IH|exact Hd].
    + simpl. apply has_aggregation_any.
    + reflexivity.
  - rewrite decompose_Other in Hd.
    eapply decompose_pointwise_shape; [| |exact IH|exact Hd].
    + simpl. apply has_aggregation_any.
    + reflexivity.
Qed.

Lemma _decompose_aggs_list_shape (aggs : list NamedExpr) (is_top : bool) :
  forall gen aggs_l posts has_aggs gen',
    _decompose_aggs_list fresh aggs is_top gen = Ok (aggs_l, posts, has_aggs, gen') ->
    ne_name <$> posts = ne_name <$> aggs /\
    (gen <= gen')%nat /\
    Forall (fun a => is_request (value a) = true /\
                     (ne_name a ∈ ne_name <$> aggs \/
                      exists i, (gen <= i < gen')%nat /\ ne_name a = fresh i))
           (concat aggs_l).
Proof.
  induction aggs as [|a aggs IH]; intros gen aggs_l posts has_aggs gen' Hd;
    simpl in Hd.
  - injection Hd as <- <- _ <-. repeat split; [lia|constructor].
  - destruct (decompose_single_agg fresh (ne_name a) (value a) is_top gen)
      as [[[[new p] f] g1]|e] eqn:Ea; [|discriminate].
    simpl in Hd.
    destruct (_decompose_aggs_list fresh aggs is_top g1)
      as [[[[al ps] fs] g2]|e] eqn:Eas; [|discriminate].
    simpl in Hd. injection Hd as <- <- _ <-.
    destruct (decompose_shape _ _ _ _ _ Ea) as (_ & Hn & Hg & Hreq).
    simpl in Hn, Hg, Hreq.
    destruct (IH _ _ _ _ _ Eas) as (Hns & Hg2 & Hreqs).
    split; [by rewrite !fmap_cons, Hn, Hns|]. split; [lia|].
    apply Forall_app. split.
    + eapply Forall_impl; [exact Hreq|]. intros x [Hx Hname]. split; [done|].
      destruct Hname as [->|(i & Hi & Hname)].
      * left. rewrite fmap_cons. by left.
      * right. exists i. split; [lia|done].
    + eapply Forall_impl; [exact Hreqs|]. intros x [Hx Hname]. split; [done|].
      destruct Hname as [Hname|(i & Hi & Hname)].
      * left. rewrite fmap_cons. by right.
      * right. exists i. split; [lia|done].
Qed.

Lemma decompose_aggs_shape (aggs : list NamedExpr) (gen : nat)
  (new_aggs post : list NamedExpr) (gen' : nat) :
  decompose_aggs fresh aggs gen = Ok (new_aggs, post, gen') ->
  ne_name <$> post = ne_name <$> aggs /\
  (gen <= gen')%nat /\
  Forall (fun a => is_request (value a) = true /\
                   (ne_name a ∈ ne_name <$> aggs \/
                    exists i, (gen <= i < gen')%nat /\ ne_name a = fresh i))
         new_aggs.
Proof.
  unfold decompose_aggs, _decompose_aggs.
  destruct aggs as [|a aggs]; [discriminate|].
  destruct (_decompose_aggs_list fresh (a :: aggs) true gen)
    as [[[[al ps] fs] g1]|e] eqn:E; [|discriminate].
  cbn [rbind]. intros [= <- <- <-].
  exact (_decompose_aggs_list_shape (a :: aggs) true _ _ _ _ _ E).
Qed.

End WithNames.

(** X18. Whenever [decompose_single_agg] returns, its flag tells whether the
    expression has an aggregation (or a row count) anywhere inside; hence an
    aggregation whose first child itself has an aggregation is never
    decomposed: the call raises. *)
Theorem decompose_reports_aggregations (fresh : nat -> string) :
  (forall name agg is_top gen aggs post flag gen',
     decompose_single_agg fresh name agg is_top gen = Ok (aggs, post, flag, gen') ->
     flag = has_aggregation agg) /\
  (forall name dt agg_name options child rest is_top gen,
     has_aggregation child = true ->
     exists e, decompose_single_agg fresh name (Agg dt agg_name options (child :: rest))
                 is_top gen = Raise e).
Proof.
  split.
  - intros name agg is_top gen aggs post flag gen' Hd.
    by destruct (decompose_shape fresh _ _ _ _ _ Hd) as (Hf & _).
  - intros name dt nm o child rest is_top gen Hchild. simpl.
    destruct (negb (String.eqb nm "quantile") && _); [eauto|].
    destruct (bool_decide (nm ∈ ["min"; "max"]) && is_floating_point (dtype child)).
    + destruct (truthy o); simpl; [eauto|].
      destruct (decompose_single_agg fresh (fresh gen) child false (S gen))
        as [[[[a p] f] g1]|e] eqn:Ec; simpl; [|eauto].
      destruct (decompose_shape fresh _ _ _ _ _ Ec) as (Hf & _). simpl in Hf.
      rewrite Hf, Hchild. eauto.
    + simpl.
      destruct (decompose_single_agg fresh (fresh gen) child false (S gen))
        as [[[[a p] f] g1]|e] eqn:Ec; simpl; [|eauto].
      destruct (decompose_shape fresh _ _ _ _ _ Ec) as (Hf & _). simpl in Hf.
      rewrite Hf, Hchild. eauto.
Qed.

Lemma decompose_reports_aggregations_witness :
  true = has_aggregation mean_over_sum /\
  exists e, decompose_single_agg numbered "s" sum_of_sum true 0 = Raise e.
Proof.
  split.
  - apply (proj1 (decompose_reports_aggregations numbered) "c" mean_over_sum true
             0%nat [mkNamedExpr "__tmp0" mean_a; mkNamedExpr "__tmp2" sum_b]
             (mkNamedExpr "c" (Other "BinOp" INT64 true
                                 [Col INT64 "__tmp0"; Col INT64 "__tmp2"]))
             true 4%nat).
    reflexivity.
  - apply (proj2 (decompose_reports_aggregations numbered) "s" INT64 "sum" JNull
             sum_b [] true 0%nat).
    reflexivity.
Defined.

(** X19. Every aggregation request [decompose_aggs] returns is one the
    grouping primitive can be asked for: a row count, an aggregation whose
    (first) child has no aggregation inside, or an expression without any
    aggregation, to be evaluated before the grouping. *)
Theorem decompose_aggs_requests_are_simple (fresh : nat -> string)
  (aggs : list NamedExpr) (gen : nat) (new_aggs post : list NamedExpr) (gen' : nat) :
  decompose_aggs fresh aggs gen = Ok (new_aggs, post, gen') ->
  Forall (fun a => is_request (value a) = true) new_aggs.
Proof.
  intros Hd. destruct (decompose_aggs_shape fresh _ _ _ _ _ Hd) as (_ & _ & Hreq).
  eapply Forall_impl; [exact Hreq|]. by intros a [Ha _].
Qed.

Lemma decompose_aggs_requests_are_simple_witness :
  Forall (fun a => is_request (value a) = true)
    [mkNamedExpr "__tmp0" mean_a; mkNamedExpr "__tmp2" sum_b].
Proof.
  apply (decompose_aggs_requests_are_simple numbered [mkNamedExpr "c" mean_over_sum]
           0%nat [mkNamedExpr "__tmp0" mean_a; mkNamedExpr "__tmp2" sum_b]
           [mkNamedExpr "c" (Other "BinOp" INT64 true
                               [Col INT64 "__tmp0"; Col INT64 "__tmp2"])] 4%nat).
  reflexivity.
Defined.

(** X20. [decompose_aggs] returns one post-aggregation expression per
    aggregation, in order and under the aggregation's name, so that the
    length check of [apply_pre_evaluation] on its result cannot fail; with
    no aggregation at all it raises [ValueError]. *)
Theorem decompose_aggs_keeps_names (fresh : nat -> string) (gen : nat) :
  (forall aggs new_aggs post gen',
     decompose_aggs fresh aggs gen = Ok (new_aggs, post, gen') ->
     ne_name <$> post = ne_name <$> aggs /\ length post = length aggs) /\
  decompose_aggs fresh [] gen
    = Raise (ValueError "not enough values to unpack (expected 3, got 0)").
Proof.
  split; [|reflexivity].
  intros aggs new_aggs post gen' Hd.
  destruct (decompose_aggs_shape fresh _ _ _ _ _ Hd) as (Hn & _ & _).
  split; [exact Hn|]. apply (f_equal length) in Hn. by rewrite !length_fmap in Hn.
Qed.

Lemma decompose_aggs_keeps_names_witness :
  ne_name <$> [mkNamedExpr "c" (Other "BinOp" INT64 true
                                  [Col INT64 "__tmp0"; Col INT64 "__tmp2"])]
    = ne_name <$> [mkNamedExpr "c" mean_over_sum] /\
  length [mkNamedExpr "c" (Other "BinOp" INT64 true
                             [Col INT64 "__tmp0"; Col INT64 "__tmp2"])]
    = length [mkNamedExpr "c" mean_over_sum].
Proof.
  apply (proj1 (decompose_aggs_keeps_names numbered 0%nat)
           [mkNamedExpr "c" mean_over_sum]
           [mkNamedExpr "__tmp0" mean_a; mkNamedExpr "__tmp2" sum_b]
           [mkNamedExpr "c" (Other "BinOp" INT64 true
                               [Col INT64 "__tmp0"; Col INT64 "__tmp2"])] 4%nat).
  reflexivity.
Defined.

(** X21. The name generator only moves forward, and every aggregation
    request [decompose_aggs] returns is named either like one of the given
    aggregations or by a name the generator yielded during the call. *)
Theorem decompose_aggs_request_names (fresh : nat -> string)
  (aggs : list NamedExpr) (gen : nat) (new_aggs post : list NamedExpr) (gen' : nat) :
  decompose_aggs fresh aggs gen = Ok (new_aggs, post, gen') ->
  (gen <= gen')%nat /\
  Forall (fun a => ne_name a ∈ ne_name <$> aggs \/
                   exists i, (gen <= i < gen')%nat /\ ne_name a = fresh i) new_aggs.
Proof.
  intros Hd. destruct (decompose_aggs_shape fresh _ _ _ _ _ Hd) as (_ & Hg & Hreq).
  split; [exact Hg|].
  eapply Forall_impl; [exact Hreq|]. by intros a [_ Ha].
Qed.

Lemma decompose_aggs_request_names_witness :
  (0 <= 4)%nat /\
  Forall (fun a => ne_name a ∈ ne_name <$> [mkNamedExpr "c" mean_over_sum] \/
                   exists i, (0 <= i < 4)%nat /\ ne_name a = numbered i)
    [mkNamedExpr "__tmp0" mean_a; mkNamedExpr "__tmp2" sum_b].
Proof.
  apply (decompose_aggs_request_names numbered [mkNamedExpr "c" mean_over_sum]
           0%nat [mkNamedExpr "__tmp0" mean_a; mkNamedExpr "__tmp2" sum_b]
           [mkNamedExpr "c" (Other "BinOp" INT64 true
                               [Col INT64 "__tmp0"; Col INT64 "__tmp2"])] 4%nat).
  reflexivity.
Defined.

End AggregationShapeFacts.

(** ** Scan: the configurations the constructor accepts *)

Module ScanAcceptFacts.
Import Columns Frames Exprs Sources SourceFacts ScanAccepts.

Lemma cloud_check_free (cloud_options : json) :
  (if is_not_None cloud_options
   then any_cloud_key cloud_options ["aws"; "azure"; "gcp"]
   else Ok false) = Ok false <-> cloud_free cloud_options.
Proof.
  unfold cloud_free. split.
  - destruct cloud_options as [|b|z|s|l|items]; simpl; try discriminate.
    + by left.
    + intros H. right. exists items. split; [reflexivity|].
      change (any_cloud_key (JDict items) ["aws"; "azure"; "gcp"] = Ok false) in H.
      rewrite any_cloud_key_dict in H.
      assert (He : existsb (fun k => is_not_None (default JNull (assoc_lookup k items)))
                     ["aws"; "azure"; "gcp"] = false) by congruence.
      clear H. apply Forall_forall. intros k Hk.
      destruct (default JNull (assoc_lookup k items)) eqn:E; [reflexivity|..];
        exfalso; apply Bool.not_true_iff_false in He; apply He;
        apply existsb_exists; exists k; (split; [by apply list_elem_of_In|]);
        by rewrite E.
  - intros [->|(items & -> & Hall)]; [reflexivity|].
    change (any_cloud_key (JDict items) ["aws"; "azure"; "gcp"] = Ok false).
    rewrite any_cloud_key_dict. f_equal. apply Bool.not_true_iff_false.
    intros H. apply existsb_exists in H as (k & Hk & Hv).
    rewrite Forall_forall in Hall. rewrite (Hall k) in Hv; [discriminate|].
    by apply list_elem_of_In.
Qed.

Lemma cloud_check_cases (cloud_options : json) :
  cloud_free cloud_options \/
  exists e, (cloud <- (if is_not_None cloud_options
                       then any_cloud_key cloud_options ["aws"; "azure"; "gcp"]
                       else Ok false) ;;
             raise_if cloud "Read from cloud storage") = Raise e.
Proof.
  destruct (if is_not_None cloud_options
            then any_cloud_key cloud_options ["aws"; "azure"; "gcp"]
            else Ok false) as [[|]|e] eqn:E.
  - right. eexists. reflexivity.
  - left. by apply cloud_check_free.
  - right. eexists. reflexivity.
Qed.

Lemma existsb_prefix_local (paths : list string) :
  existsb (String.prefix "https:/") paths = false <-> local_paths paths.
Proof.
  unfold local_paths. rewrite Forall_forall. split.
  - intros H p Hp. apply Bool.not_true_iff_false. intros Hpre.
    apply Bool.not_true_iff_false in H. apply H, existsb_exists.
    exists p. split; [by apply list_elem_of_In|done].
  - intros H. apply Bool.not_true_iff_false. intros Hex.
    apply existsb_exists in Hex as (p & Hp & Hpre).
    rewrite (H p) in Hpre; [discriminate|]. by apply list_elem_of_In.
Qed.

(** X22. A Scan node is only ever constructed for one of the three file
    types, with a row skip that is not negative, without a path read over
    https and without a request for cloud storage; the ndjson reader
    moreover only without row limit, row skip and file-path column. The node
    then holds the attributes exactly as they were given. *)
Theorem Scan_init_accepts_only (POLARS_VERSION_LT_128 : bool)
  (schema : Schema) (typ : string) (reader_options cloud_options : json)
  (config_options : ConfigOptions) (paths : list string)
  (with_columns : option (list string)) (skip_rows n_rows : Z)
  (row_index : option (string * Z)) (include_file_paths : option string)
  (predicate : option NamedExpr) (self : Scan) :
  Scan_init POLARS_VERSION_LT_128 schema typ reader_options cloud_options
    config_options paths with_columns skip_rows n_rows row_index
    include_file_paths predicate = Ok self ->
  self = mkScan schema typ reader_options cloud_options config_options paths
           with_columns skip_rows n_rows row_index include_file_paths predicate /\
  typ ∈ ["csv"; "parquet"; "ndjson"] /\
  0 <= skip_rows /\
  local_paths paths /\
  cloud_free cloud_options /\
  (typ = "ndjson" -> n_rows = -1 /\ skip_rows = 0 /\ include_file_paths = None).
Proof.
  unfold Scan_init.
  destruct (bool_decide (typ ∈ ["csv"; "parquet"; "ndjson"])) eqn:Htyp;
    cbn [negb raise_if rbind]; [|discriminate].
  apply bool_decide_eq_true in Htyp.
  destruct (String.eqb typ "ndjson" && _) eqn:Hnd; cbn [raise_if rbind];
    [discriminate|].
  destruct (Z.ltb skip_rows 0) eqn:Hskip; cbn [raise_if rbind]; [discriminate|].
  apply Z.ltb_ge in Hskip.
  destruct (POLARS_VERSION_LT_128 && String.eqb typ "csv" && _);
    cbn [raise_if rbind]; [discriminate|].
  destruct (if is_not_None cloud_options
            then any_cloud_key cloud_options ["aws"; "azure"; "gcp"]
            else Ok false) as [[|]|e] eqn:Hcloud; cbn [raise_if rbind];
    try discriminate.
  apply cloud_check_free in Hcloud.
  destruct (existsb (String.prefix "https:/") paths) eqn:Hpaths;
    cbn [raise_if rbind]; [discriminate|].
  apply existsb_prefix_local in Hpaths.
  intros Hrest.
  assert (Hself : self = mkScan schema typ reader_options cloud_options config_options
                           paths with_columns skip_rows n_rows row_index
                           include_file_paths predicate /\
                  (typ = "ndjson" -> include_file_paths = None)).
  { revert Hrest. destruct (String.eqb typ "csv") eqn:Hcsv.
    - apply String.eqb_eq in Hcsv.
      destruct (getitem reader_options "skip_rows_after_header") as [sa|e];
        cbn [rbind]; [|discriminate].
      destruct (ne_zero sa); cbn [raise_if rbind]; [discriminate|].
      destruct (getitem reader_options "parse_options") as [po|e];
        cbn [rbind]; [|discriminate].
      destruct (getitem po "null_values") as [nv|e]; cbn [rbind]; [|discriminate].
      destruct (if is_not_None nv then contains_str "Named" nv else Ok false)
        as [[|]|e]; cbn [raise_if rbind]; try discriminate.
      destruct (getitem po "comment_prefix") as [cm|e]; cbn [rbind]; [|discriminate].
      destruct (if is_not_None cm then contains_str "Multi" cm else Ok false)
        as [[|]|e]; cbn [raise_if rbind]; try discriminate.
      destruct (getitem reader_options "has_header") as [hh|e];
        cbn [rbind]; [|discriminate].
      destruct (negb (truthy hh)); cbn [raise_if rbind]; [discriminate|].
      intros [= <-]. split; [reflexivity|]. intros ->. discriminate.
    - destruct (String.eqb typ "ndjson") eqn:Hj.
      + destruct (getitem reader_options "ignore_errors") as [ie|e];
          cbn [rbind]; [|discriminate].
        destruct (truthy ie); cbn [raise_if rbind]; [discriminate|].
        destruct include_file_paths as [p|]; cbn [raise_if rbind].
        * rewrite bool_decide_eq_true_2 by eauto. discriminate.
        * rewrite bool_decide_eq_false_2 by (intros [? ?]; discriminate).
          cbn [raise_if rbind]. intros [= <-]. split; reflexivity.
      + destruct (String.eqb typ "parquet" && _ && _); cbn [raise_if rbind];
          [discriminate|].
        intros [= <-]. split; [reflexivity|]. intros ->. discriminate. }
  destruct Hself as [Hself Hfiles].
  repeat split; try assumption.
  - subst typ. simpl in Hnd. apply orb_false_elim in Hnd as [H _].
    apply negb_false_iff, Z.eqb_eq in H. exact H.
  - subst typ. simpl in Hnd. apply orb_false_elim in Hnd as [_ H].
    apply negb_false_iff, Z.eqb_eq in H. exact H.
  - by apply Hfiles.
Qed.

Lemma Scan_init_accepts_only_witness :
  scan_1 = mkScan [("a", INT64)] "parquet" parquet_options_1 JNull default_config
             ["data.parquet"] None 0 (-1) None None None /\
  "parquet" ∈ ["csv"; "parquet"; "ndjson"] /\
  0 <= 0 /\
  local_paths ["data.parquet"] /\
  cloud_free JNull /\
  ("parquet" = "ndjson" -> -1 = -1 /\ 0 = 0 /\ (None : option string) = None).
Proof.
  apply (Scan_init_accepts_only false [("a", INT64)] "parquet" parquet_options_1 JNull
           default_config ["data.parquet"] None 0 (-1) None None None scan_1).
  reflexivity.
Defined.

Lemma metadata_only_check (row_index : option (string * Z))
  (with_columns : option (list string)) :
  bool_decide (is_Some row_index)
  && match with_columns with
     | Some cols => Nat.eqb (length cols) 0
     | None => false
     end = false <-> ~ metadata_only row_index with_columns.
Proof.
  unfold metadata_only. split.
  - intros H [Hri ->]. rewrite bool_decide_eq_true_2 in H by done. discriminate.
  - intros H. apply Bool.not_true_iff_false. intros Hb. apply H.
    apply andb_prop in Hb as [Hri Hwc]. apply bool_decide_eq_true in Hri.
    split; [done|]. destruct with_columns as [[|c cols]|]; try discriminate.
    reflexivity.
Qed.

(** X23. For parquet files the constructor accepts a configuration exactly
    when the row skip is not negative, no cloud storage is asked for, no
    path is read over https, and it is not the case that a row index is to
    be produced from an empty list of columns; the reader options, the row
    limit, the file-path column and the predicate play no part. *)
Theorem Scan_init_parquet (POLARS_VERSION_LT_128 : bool)
  (schema : Schema) (reader_options cloud_options : json)
  (config_options : ConfigOptions) (paths : list string)
  (with_columns : option (list string)) (skip_rows n_rows : Z)
  (row_index : option (string * Z)) (include_file_paths : option string)
  (predicate : option NamedExpr) :
  Scan_init POLARS_VERSION_LT_128 schema "parquet" reader_options cloud_options
    config_options paths with_columns skip_rows n_rows row_index
    include_file_paths predicate
  = Ok (mkScan schema "parquet" reader_options cloud_options config_options paths
          with_columns skip_rows n_rows row_index include_file_paths predicate)
  <-> 0 <= skip_rows /\ cloud_free cloud_options /\ local_paths paths /\
      ~ metadata_only row_index with_columns.
Proof.
  unfold Scan_init.
  rewrite bool_decide_eq_true_2 by (right; left).
  change (String.eqb "parquet" "ndjson") with false.
  change (String.eqb "parquet" "csv") with false.
  change (String.eqb "parquet" "parquet") with true.
  rewrite andb_false_r. cbn [negb andb raise_if rbind].
  rewrite <- cloud_check_free, <- existsb_prefix_local, <- metadata_only_check.
  destruct (Z.ltb skip_rows 0) eqn:Hskip; cbn [raise_if rbind].
  { apply Z.ltb_lt in Hskip. split; [discriminate|]. intros [? _]. lia. }
  apply Z.ltb_ge in Hskip.
  destruct (if is_not_None cloud_options
            then any_cloud_key cloud_options ["aws"; "azure"; "gcp"]
            else Ok false) as [[|]|e]; cbn [raise_if rbind];
    try (split; [discriminate|]; by intros (_ & ? & _)).
  destruct (existsb (String.prefix "https:/") paths); cbn [raise_if rbind];
    try (split; [discriminate|]; by intros (_ & _ & ? & _)).
  destruct (bool_decide (is_Some row_index) && _); cbn [raise_if rbind].
  - split; [discriminate|]. by intros (_ & _ & _ & ?).
  - split; [|reflexivity]. intros _. repeat split; [exact Hskip].
Qed.

Lemma Scan_init_parquet_witness :
  Scan_init false [("a", INT64)] "parquet" parquet_options_1 JNull
    default_config ["data.parquet"] None 0 (-1) None None None
  = Ok (mkScan [("a", INT64)] "parquet" parquet_options_1 JNull default_config
          ["data.parquet"] None 0 (-1) None None None).
Proof.
  apply (Scan_init_parquet false [("a", INT64)] parquet_options_1 JNull
           default_config ["data.parquet"] None 0 (-1) None None None).
  split; [lia|]. split; [by left|]. split; [by repeat constructor|].
  intros [[? H] _]. discriminate.
Defined.

End ScanAcceptFacts.

(** ** Join, GroupBy and MergeSorted: further facts *)

Module OrderFacts.
Import Columns Frames Exprs Engine EngineFacts BroadcastFacts Joins JoinFacts
  GroupBys GroupByFacts.

Lemma stable_sort_sorted {A} (leb : A -> A -> bool) (l : list A) :
  StronglySorted (fun a b => leb a b = true) l -> stable_sort leb l = l.
Proof.
  induction 1 as [|x l Hs IH Hall]; [reflexivity|].
  simpl. rewrite IH. destruct l as [|y l']; [reflexivity|].
  simpl. apply Forall_cons in Hall as [-> _]. reflexivity.
Qed.

Lemma sorted_pairs_entries (left_rows right_rows : nat) (lg rg : list cell) :
  length lg = length rg ->
  Forall (fun c => exists i, c = Some i /\ (0 <= i < Z.of_nat left_rows)%Z) lg ->
  Forall (fun c => exists j, c = Some j) rg ->
  Forall (fun c => exists i, c = Some i /\ (0 <= i < Z.of_nat left_rows)%Z)
    (sorted_pairs left_rows right_rows lg rg).*1 /\
  Forall (fun c => exists j, c = Some j) (sorted_pairs left_rows right_rows lg rg).*2.
Proof.
  intros Hlen Hl Hr.
  pose proof (zip_Forall_entries left_rows lg rg Hl Hr) as Hz.
  pose proof (sorted_pairs_Permutation left_rows right_rows lg rg) as Hp.
  rewrite <- Hp in Hz. split; apply Forall_fmap; (eapply Forall_impl; [exact Hz|]);
    intros p [H1 H2]; assumption.
Qed.

(** X24. Reordering the gather maps of a left join is idempotent: maps that
    come out of [_reorder_maps] are returned unchanged when they are
    reordered again. *)
Theorem _reorder_maps_idempotent (left_rows right_rows : nat)
  (lg rg lg' rg' : list cell) :
  length lg = length rg ->
  Forall (fun c => exists i, c = Some i /\ (0 <= i < Z.of_nat left_rows)%Z) lg ->
  Forall (fun c => exists j, c = Some j) rg ->
  _reorder_maps left_rows lg DONT_CHECK right_rows rg NULLIFY = Ok [lg'; rg'] ->
  _reorder_maps left_rows lg' DONT_CHECK right_rows rg' NULLIFY = Ok [lg'; rg'].
Proof.
  intros Hlen Hl Hr H.
  rewrite (_reorder_maps_sorted_pairs _ _ _ _ Hlen Hl Hr) in H.
  injection H as <- <-.
  destruct (sorted_pairs_entries left_rows right_rows lg rg Hlen Hl Hr) as [Hl' Hr'].
  rewrite _reorder_maps_sorted_pairs; [|by rewrite !length_fmap|exact Hl'|exact Hr'].
  unfold sorted_pairs at 1 4. rewrite zip_fst_snd.
  rewrite stable_sort_sorted; [reflexivity|].
  apply sorted_pairs_StronglySorted.
Qed.

Lemma _reorder_maps_idempotent_witness :
  _reorder_maps 3 [Some 0; Some 1; Some 1; Some 2] DONT_CHECK 3
    [Some no_match; Some 0; Some 1; Some no_match] NULLIFY
  = Ok [[Some 0; Some 1; Some 1; Some 2];
        [Some no_match; Some 0; Some 1; Some no_match]].
Proof.
  apply (_reorder_maps_idempotent 3 3 [Some 2; Some 1; Some 0; Some 1]
           [Some no_match; Some 1; Some no_match; Some 0]).
  - reflexivity.
  - repeat constructor; eexists; (split; [reflexivity|lia]).
  - repeat constructor; eexists; reflexivity.
  - reflexivity.
Defined.

(** X25. Without order restoration (the caller does not ask for the input
    order, or all key columns are marked sorted) a GroupBy returns, before
    the final slice, exactly what the grouping primitive returned, in the
    primitive's row order: the key columns under the names of the keys,
    then one column per aggregation request under the request's name. The
    sortedness tags of the key columns are not carried over: no column of
    more than one row is tagged as sorted. *)
Theorem groupby_without_order_restoration
  (evaluate_named : NamedExpr -> DataFrame -> result Column)
  (evaluate_expr : Expr -> DataFrame -> result Column)
  (aggregate : Table -> Columns.Sorted -> list Order -> list NullOrder ->
               list (list cell * Expr) -> Table * list Table)
  (inner_join : Table -> Table -> NullEquality -> list cell * list cell)
  (sort_by_key : Table -> Table -> list Order -> list NullOrder -> result Table)
  (slice : DataFrame -> option Zlice -> DataFrame)
  (keys_in agg_requests : list NamedExpr) (maintain_order : bool)
  (zlice : option Zlice) (df : DataFrame)
  (key_columns keys : list Column) (requests : list (list cell * Expr)) :
  aggregate_contract aggregate ->
  rmapM (fun k => evaluate_named k df) keys_in = Ok key_columns ->
  broadcast key_columns (Some (Frames.num_rows df)) = Ok keys ->
  rmapM (request_column evaluate_expr keys df) agg_requests = Ok requests ->
  maintain_order = false \/ all_sorted keys = YES ->
  let grouped :=
    aggregate (obj <$> keys) (all_sorted keys) (order <$> keys) (null_order <$> keys)
      requests in
  exists cols : list Column,
    do_evaluate evaluate_named evaluate_expr aggregate inner_join sort_by_key slice
      keys_in agg_requests maintain_order zlice df
      = Ok (slice (mkDataFrame cols) zlice) /\
    name <$> cols = (name <$> keys) ++ (ne_name <$> agg_requests) /\
    obj <$> cols = fst grouped ++ concat (snd grouped) /\
    Forall (fun c => is_sorted c = YES -> (size c <= 1)%nat) cols.
Proof.
  intros Hagg Hkeys_in Hkeys Hreq Hcase grouped.
  destruct (Hagg (obj <$> keys) (all_sorted keys) (order <$> keys)
              (null_order <$> keys) requests) as (Hgk_len & Hraw_len & Hrect & _).
  fold grouped in Hgk_len, Hraw_len, Hrect.
  rewrite length_fmap in Hgk_len.
  assert (Hreq_len : length requests = length agg_requests)
    by (by eapply rmapM_length).
  set (cols0 :=
         ((fun p : Column * list cell => plain_column (snd p) (name (fst p)))
            <$> zip keys (fst grouped)) ++
         ((fun p : string * list cell => plain_column (snd p) (fst p))
            <$> zip (ne_name <$> agg_requests) (concat (snd grouped)))).
  assert (Hobj : obj <$> cols0 = fst grouped ++ concat (snd grouped)).
  { subst cols0. rewrite fmap_app, <- !list_fmap_compose. f_equal.
    - etrans; [|apply (snd_zip keys (fst grouped)); lia]. reflexivity.
    - etrans; [|apply (snd_zip (ne_name <$> agg_requests) (concat (snd grouped)));
                 rewrite length_fmap; lia].
      reflexivity. }
  assert (Hnames : name <$> cols0 = (name <$> keys) ++ (ne_name <$> agg_requests)).
  { subst cols0. rewrite fmap_app, <- !list_fmap_compose. f_equal.
    - transitivity (name <$> (zip keys (fst grouped)).*1);
        [by rewrite <- list_fmap_compose | by rewrite fst_zip by lia].
    - etrans; [|apply (fst_zip (ne_name <$> agg_requests) (concat (snd grouped)));
                 rewrite length_fmap; lia].
      reflexivity. }
  assert (Hsizes : Forall (fun c => size c = Engine.num_rows (fst grouped)) cols0).
  { unfold size.
    apply (Forall_fmap obj (fun o => length o = Engine.num_rows (fst grouped))).
    by rewrite Hobj. }
  exists cols0. split; [|split; [exact Hnames|split; [exact Hobj|]]].
  - unfold do_evaluate. rewrite Hkeys_in. cbn [rbind]. rewrite Hkeys. cbn [rbind].
    rewrite Hreq. cbn [rbind]. fold grouped.
    destruct grouped as [gk raw]. cbn [fst snd] in *.
    rewrite zip_strict_Ok by (rewrite length_fmap; lia). cbn [rbind].
    rewrite zip_strict_Ok by lia. cbn [rbind].
    fold cols0. rewrite (broadcast_same_size cols0 _ Hsizes). cbn [rbind].
    destruct Hcase as [-> | ->]; [reflexivity|].
    by rewrite andb_false_r.
  - subst cols0. apply Forall_app. split; apply Forall_fmap, Forall_forall;
      intros p _; exact (ConcatFacts.plain_column_sorted _ _).
Qed.

Lemma groupby_without_order_restoration_witness :
  exists cols : list Column,
    do_evaluate NamedExpr_evaluate Expr_evaluate reversed_groupby reversed_inner_join
      stable_sort_by_key no_slice [key_a] [sum_of_b] false None frame_scenario_A
      = Ok (no_slice (mkDataFrame cols) None) /\
    name <$> cols = ["a"; "b"] /\
    obj <$> cols = [[Some 2; Some 1]; [Some 30; Some 30]].
Proof.
  destruct (groupby_without_order_restoration NamedExpr_evaluate Expr_evaluate
              reversed_groupby reversed_inner_join stable_sort_by_key no_slice
              [key_a] [sum_of_b] false None frame_scenario_A
              [mkColumn [Some 1; Some 1; Some 2] NO ASCENDING BEFORE "a"]
              [mkColumn [Some 1; Some 1; Some 2] NO ASCENDING BEFORE "a"]
              [([Some 10; Some 20; Some 30], Agg INT64 "sum" JNull [Col INT64 "b"])]
              reversed_groupby_contract eq_refl eq_refl eq_refl (or_introl eq_refl))
    as (cols & H1 & H2 & H3 & _).
  exists cols. split; [exact H1|]. split; [exact H2|exact H3].
Defined.

End OrderFacts.

Module MergeErrors.
Import Columns Frames Engine MergeSorted MergeFacts.

Lemma select_columns_missing (df : DataFrame) (key : string) :
  (key ∉ column_names df) -> select_columns df {[ key ]} = [].
Proof.
  intros Hk. unfold select_columns, column_names in *.
  induction (columns df) as [|c cs IH]; [reflexivity|].
  rewrite fmap_cons, not_elem_of_cons in Hk. destruct Hk as [Hne Hk].
  rewrite filter_cons_False; [by apply IH|].
  rewrite elem_of_singleton. congruence.
Qed.

(** X26. [MergeSorted] needs the key as a column of both frames and exactly
    two frames: a key the left frame does not have, or one the right frame
    does not have, raises [IndexError] before anything is merged, and any
    other number of frames raises [ValueError]. *)
Theorem merge_sorted_needs_key (key : string) :
  (forall left_df right_df, (key ∉ column_names left_df) ->
     MergeSorted.do_evaluate key [left_df; right_df]
       = Raise (IndexError "list index out of range")) /\
  (forall left_df right_df, key ∈ column_names left_df ->
     (key ∉ column_names right_df) ->
     MergeSorted.do_evaluate key [left_df; right_df]
       = Raise (IndexError "list index out of range")) /\
  (forall dfs, length dfs <> 2%nat ->
     exists msg, MergeSorted.do_evaluate key dfs = Raise (ValueError msg)).
Proof.
  split; [|split].
  - intros left_df right_df Hk. unfold MergeSorted.do_evaluate.
    by rewrite (select_columns_missing left_df key Hk).
  - intros left_df right_df Hl Hr. unfold MergeSorted.do_evaluate.
    destruct (select_columns_key left_df key Hl) as (c & -> & _). cbn [rbind].
    rewrite (select_columns_missing (minor_side left_df right_df) key); [reflexivity|].
    intros Hin. apply Hr. unfold column_names in *.
    rewrite minor_side_columns in Hin.
    apply list_elem_of_fmap in Hin as (c' & -> & Hc').
    apply list_elem_of_filter in Hc' as [_ Hc']. apply list_elem_of_fmap. eauto.
  - intros dfs Hlen. unfold MergeSorted.do_evaluate.
    destruct dfs as [|d1 [|d2 [|d3 dfs]]]; simpl in Hlen; try lia; eauto.
Qed.

Lemma merge_sorted_needs_key_witness :
  MergeSorted.do_evaluate "extra" [merge_left; merge_right]
    = Raise (IndexError "list index out of range").
Proof.
  apply (proj1 (merge_sorted_needs_key "extra") merge_left merge_right).
  intros H. repeat (apply elem_of_cons in H as [H|H]; [discriminate|]).
  by apply elem_of_nil in H.
Defined.

End MergeErrors.

(** ** Scan: reading several CSV files under one row limit *)

Module ScanCsvFacts.
Import Columns Frames Engine EngineFacts Concatenate ScanCsv.

Section WithReader.
Variable read_csv : string -> Z -> Z -> option (list string) -> Table * list string.
Variable blank_lines : string -> Z.
Variable read_csv_header : string -> list string.
Variable POLARS_VERSION_LT_128 : bool.
Variable reader_skip_rows : Z.
Variable skip_rows : Z.
Variable include_file_paths : option string.

Lemma read_paths_inv (read_partial : bool) (paths : list string) :
  forall st : LoopState,
  exists new : list (Table * list string),
    pieces (read_paths read_csv blank_lines read_csv_header POLARS_VERSION_LT_128
       reader_skip_rows skip_rows include_file_paths read_partial paths st) = pieces st ++ new /\
    (length new <= length paths)%nat /\
    (paths <> [] -> new <> []) /\
    seen_paths (read_paths read_csv blank_lines read_csv_header POLARS_VERSION_LT_128
       reader_skip_rows skip_rows include_file_paths read_partial paths st)
      = seen_paths st ++ match include_file_paths with
                         | Some _ => take (length new) paths
                         | None => []
                         end /\
    (read_partial = false -> length new = length paths) /\
    (read_partial = true -> honours_row_limit read_csv -> 0 <= n_rows st ->
     Z.of_nat (sum_list (num_rows <$> (fst <$> new))) <= n_rows st).
Proof.
  induction paths as [|p paths IH]; intros st.
  - exists []. cbn [ScanCsv.read_paths length]. rewrite app_nil_r.
    split; [reflexivity|]. split; [lia|]. split; [done|].
    split; [by destruct include_file_paths; rewrite ?take_0, app_nil_r|].
    split; [done|]. intros _ _ Hn. simpl. lia.
  - cbn [ScanCsv.read_paths].
    set (names := match column_names st with
                  | Some names => Some names
                  | None => if negb POLARS_VERSION_LT_128 && Z.ltb 0 skip_rows
                            then Some (read_csv_header p) else None
                  end).
    set (skiprows := if POLARS_VERSION_LT_128 then reader_skip_rows + blank_lines p
                     else reader_skip_rows + blank_lines p + skip_rows).
    set (piece := read_csv p (n_rows st) skiprows names).
    set (seen := match include_file_paths with
                 | Some _ => seen_paths st ++ [p]
                 | None => seen_paths st
                 end).
    assert (Hseen : forall k,
              seen ++ match include_file_paths with
                      | Some _ => take k paths
                      | None => []
                      end
              = seen_paths st ++ match include_file_paths with
                                 | Some _ => take (S k) (p :: paths)
                                 | None => []
                                 end).
    { intros k. unfold seen. destruct include_file_paths; [|reflexivity].
      by rewrite <- app_assoc. }
    destruct read_partial.
    + destruct (Z.leb (n_rows st - Z.of_nat (num_rows (fst piece))) 0) eqn:Hstop.
      * exists [piece]. cbn [pieces seen_paths n_rows length].
        split; [reflexivity|]. split; [lia|]. split; [discriminate|].
        split; [|split; [discriminate|]].
        -- cbn [length]. rewrite <- (Hseen 0%nat).
           clear. destruct include_file_paths; by rewrite ?take_0, app_nil_r.
        -- intros _ Hlim Hn. simpl. specialize (Hlim p (n_rows st) skiprows names Hn).
           fold piece in Hlim. lia.
      * apply Z.leb_gt in Hstop.
        destruct (IH (mkLoopState (pieces st ++ [piece]) seen
                        (n_rows st - Z.of_nat (num_rows (fst piece))) names))
          as (new & Hp & Hlen & _ & Hs & _ & Hsum).
        exists (piece :: new). cbn [pieces seen_paths n_rows] in *.
        split; [by rewrite Hp, <- app_assoc|]. split; [simpl; lia|].
        split; [discriminate|]. split; [|split; [discriminate|]].
        -- rewrite Hs. apply Hseen.
        -- intros _ Hlim Hn. specialize (Hsum eq_refl Hlim).
           rewrite !fmap_cons. cbn [sum_list_with id]. lia.
    + destruct (IH (mkLoopState (pieces st ++ [piece]) seen (n_rows st) names))
        as (new & Hp & Hlen & _ & Hs & Hall & _).
      exists (piece :: new). cbn [pieces seen_paths n_rows] in *.
      split; [by rewrite Hp, <- app_assoc|]. split; [simpl; lia|].
      split; [discriminate|]. split; [|split; [|discriminate]].
      * rewrite Hs. apply Hseen.
      * intros _. simpl. by rewrite Hall.
Qed.

End WithReader.

(** X27. Reading the CSV files of one scan under one row limit: whenever
    the scan returns, at least one file and at most every file was read;
    without a limit ([n_rows = -1]) every file is read; with a limit
    [n_rows >= 0] and a reader that honours the limit it is given for each
    file, the tables read hold at most [n_rows] rows in total. When a
    file-path column is asked for, the paths handed on for it are the
    leading paths of the list, one per table read; otherwise none are.
    Without any path the scan raises [ValueError]. *)
Theorem csv_row_limit_spans_files
  (read_csv : string -> Z -> Z -> option (list string) -> Table * list string)
  (blank_lines : string -> Z) (read_csv_header : string -> list string)
  (POLARS_VERSION_LT_128 : bool) (reader_skip_rows skip_rows : Z)
  (include_file_paths : option string) (column_names : option (list string))
  (n_rows : Z) :
  (forall paths df seen rows_per_path,
     read_csv_files read_csv blank_lines read_csv_header POLARS_VERSION_LT_128
       reader_skip_rows skip_rows include_file_paths column_names paths n_rows
       = Ok (df, seen, rows_per_path) ->
     (0 < length rows_per_path <= length paths)%nat /\
     seen = match include_file_paths with
            | Some _ => take (length rows_per_path) paths
            | None => []
            end /\
     (n_rows = -1 -> length rows_per_path = length paths) /\
     (honours_row_limit read_csv -> 0 <= n_rows ->
      Z.of_nat (sum_list rows_per_path) <= n_rows)) /\
  read_csv_files read_csv blank_lines read_csv_header POLARS_VERSION_LT_128
    reader_skip_rows skip_rows include_file_paths column_names [] n_rows
    = Raise (ValueError "not enough values to unpack (expected 2, got 0)").
Proof.
  split; [|reflexivity].
  intros paths df seen rows_per_path. unfold read_csv_files.
  destruct (read_paths_inv read_csv blank_lines read_csv_header POLARS_VERSION_LT_128
              reader_skip_rows skip_rows include_file_paths
              (negb (Z.eqb n_rows (-1))) paths
              (mkLoopState [] [] n_rows column_names))
    as (new & Hp & Hlen & _ & Hs & Hall & Hsum).
  cbn [pieces seen_paths ScanCsv.n_rows app] in Hp, Hs, Hall, Hsum.
  rewrite Hp, Hs.
  destruct new as [|[t0 names0] new]; [discriminate|].
  destruct (concatenate _) as [t|e]; cbn [rbind]; [|discriminate].
  destruct (MergeSorted.from_table t names0) as [d|e]; cbn [rbind]; [|discriminate].
  assert (Hpos : (0 < length ((t0, names0) :: new))%nat) by (simpl; lia).
  revert Hpos Hlen Hall Hsum. generalize ((t0, names0) :: new). clear.
  intros pcs Hpos Hlen Hall Hsum [= <- <- <-]. rewrite !length_fmap.
  split; [lia|]. split; [reflexivity|]. split.
  - intros ->. by apply Hall.
  - intros Hlim Hn. apply Hsum; [|exact Hlim|exact Hn].
    destruct (Z.eqb_spec n_rows (-1)); [lia|reflexivity].
Qed.

Lemma csv_row_limit_spans_files_witness :
  (0 < length [3%nat; 1%nat] <= length ["a.csv"; "b.csv"; "c.csv"])%nat /\
  ["a.csv"; "b.csv"] = take (length [3%nat; 1%nat]) ["a.csv"; "b.csv"; "c.csv"] /\
  (4 = -1 -> length [3%nat; 1%nat] = length ["a.csv"; "b.csv"; "c.csv"]) /\
  (honours_row_limit three_rows -> 0 <= 4 ->
   Z.of_nat (sum_list [3%nat; 1%nat]) <= 4).
Proof.
  apply (proj1 (csv_row_limit_spans_files three_rows (fun _ => 0) (fun _ => ["a"])
                  false 0 0 (Some "path") None 4)
           ["a.csv"; "b.csv"; "c.csv"]
           (mkDataFrame [mkColumn [Some 1; Some 2; Some 3; Some 1] NO ASCENDING BEFORE "a"])
           ["a.csv"; "b.csv"] [3%nat; 1%nat]).
  reflexivity.
Defined.

End ScanCsvFacts.
